(** * Genetic-algorithm programs of sausheong/ga: a shallow embedding

    The repository holds several small Go programs that evolve a target
    (a byte string, or an image) with a generational genetic algorithm.
    This development embeds the functions of three of them:

    - [Shakespeare]: the byte-string program (fitness is a [float64]
      match ratio, the pool is proportional to the maximum fitness);
    - [Monalisa]: src/monalisa/main.go, random pixel buffers compared
      with the target by a Euclidean distance (fitness is an [int64],
      lower is better, the pool is built from the top of the sorted
      population);
    - [Triangles]: the triangle-drawing program, whose [createPool] has
      the extra branch for a population without fitness differences.

    Module [Go] fixes the fragment of Go's semantics the programs rely on:
    wrap-around integers, slices with bounds checks (a run-time panic is
    [None]), counted [for] loops, IEEE 754 binary64 arithmetic (through
    the Standard Library's [SpecFloat]), [sort.SliceStable] and the
    [math/rand] functions.

    The definitions come first: the Go fragment, the programs with
    their first population and the loop of [main], the concrete
    populations the programs are run on, and the notions the statements
    are written with. The facts follow: about the Go fragment and about
    binary64, then, program by program, the lemmas on the loops and the
    statements about the pools, the best organism, crossover and
    mutation, the pixel distance and the match ratio; then the
    populations through a round of the loop: what every organism of the
    programs looks like, when a round goes through, when it panics and
    when it stops. *)

From Stdlib Require Import ZArith Lia List Bool Strings.Byte SpecFloat.
From Stdlib Require Import Sorting.Sorted Sorting.Permutation.
From Stdlib Require QArith Qround.
From stdpp Require Import base option list numbers.

#[local] Open Scope Z_scope.

(* ================================================================== *)
(** * The Go fragment *)
(* ================================================================== *)

Module Go.

(** ** Fixed-width integers

    Values are mathematical integers; every operation that can leave
    the range of its type is followed by the wrap of that type. *)

Definition uint64 (z : Z) : Z := z mod 2 ^ 64.

Definition int64 (z : Z) : Z := (z + 2 ^ 63) mod 2 ^ 64 - 2 ^ 63.

(** Go's [int] on the 64-bit targets the programs are built for. *)
Definition int (z : Z) : Z := int64 z.

(** [uint64(x)] for [x : uint8]. *)
Definition uint64_of_uint8 (b : byte) : Z := Z.of_N (Byte.to_N b).

(** [uint8(z)] and [byte(z)] for an integer [z]: the low eight bits. *)
Definition uint8 (z : Z) : byte :=
  match Byte.of_N (Z.to_N (z mod 256)) with
  | Some b => b
  | None => x00
  end.

(** ** Slices

    A slice is the list of its elements; the slices of these programs
    all come from [make([]T, n)], so length and capacity agree.
    An access out of range panics. *)

Definition len {A} (s : list A) : Z := Z.of_nat (length s).

Definition index {A} (s : list A) (i : Z) : option A :=
  if bool_decide (0 <= i) then s !! Z.to_nat i else None.

(** [s[i] = x] *)
Definition store {A} (s : list A) (i : Z) (x : A) : option (list A) :=
  if bool_decide (0 <= i < len s) then Some (<[Z.to_nat i := x]> s) else None.

(** [s[lo:hi]] *)
Definition slice {A} (s : list A) (lo hi : Z) : option (list A) :=
  if bool_decide (0 <= lo <= hi /\ hi <= len s)
  then Some (take (Z.to_nat (hi - lo)) (drop (Z.to_nat lo) s))
  else None.

(** [make([]T, n)] for a length that is the [len] of another slice. *)
Definition make {A} (zero : A) (n : Z) : list A := replicate (Z.to_nat n) zero.

(** ** Counted loops

    [for i := lo; i < hi; i++ { s = body(i, s) }], where the body leaves
    [i] and [hi] alone: [hi - lo] rounds when [lo < hi], none otherwise.
    A panic in the body ends the loop. *)

Fixpoint for_steps {St} (n : nat) (i : Z) (body : Z -> St -> option St) (s : St)
  : option St :=
  match n with
  | O => Some s
  | S n' => s' ← body i s; for_steps n' (i + 1) body s'
  end.

Definition for_range {St} (lo hi : Z) (body : Z -> St -> option St) (s : St)
  : option St :=
  for_steps (Z.to_nat (hi - lo)) lo body s.

(** ** float64 *)

Definition float64 : Type := spec_float.

Definition prec : Z := 53.
Definition emax : Z := 1024.

Definition fdiv : float64 -> float64 -> float64 := SFdiv prec emax.
Definition fmul : float64 -> float64 -> float64 := SFmul prec emax.
Definition math_Sqrt : float64 -> float64 := SFsqrt prec emax.
Definition flt : float64 -> float64 -> bool := SFltb.
Definition fle : float64 -> float64 -> bool := SFleb.
Definition feq : float64 -> float64 -> bool := SFeqb.

(** [m * 2^e], rounded to nearest even. *)
Definition ldexp (m e : Z) : float64 := binary_normalize prec emax m e false.

(** [float64(z)] for an integer [z]. *)
Definition float64_of_int (z : Z) : float64 := ldexp z 0.

Definition fzero : float64 := S754_zero false.
Definition fone : float64 := Eval cbv in float64_of_int 1.
Definition f100 : float64 := Eval cbv in float64_of_int 100.

(** The integer part of a finite float (rounding toward zero). *)
Definition trunc (x : float64) : option Z :=
  match x with
  | S754_zero _ => Some 0
  | S754_finite s m e => Some (cond_Zopp s (Z.shiftl (Z.pos m) e))
  | S754_infinity _ | S754_nan => None
  end.

(** The largest integer below or at a finite float. *)
Definition floor (x : float64) : option Z :=
  match x with
  | S754_zero _ => Some 0
  | S754_finite false m e => Some (Z.shiftl (Z.pos m) e)
  | S754_finite true m e => Some (Z.shiftl (Z.neg m) e)
  | S754_infinity _ | S754_nan => None
  end.

(** Converting a float that the integer type cannot represent succeeds
    with a value that depends on the implementation (language
    specification, Conversions); [unrepresentable] is that value. *)
Class Platform := { unrepresentable : float64 -> Z }.

(** What amd64 yields: the "integer indefinite" value. *)
Definition amd64 : Platform := {| unrepresentable := fun _ => - 2 ^ 63 |}.

(** [int64(x)] and [int(x)] for [x : float64]. *)
Definition int_of_float64 `{Platform} (x : float64) : Z :=
  match trunc x with
  | Some z => if bool_decide (- 2 ^ 63 <= z < 2 ^ 63) then z else unrepresentable x
  | None => unrepresentable x
  end.

(** ** sort.SliceStable

    The library function is not part of the repository; it is modelled
    from its contract ("sorts the slice using the provided less function,
    keeping equal elements in their original order") by a stable insertion
    sort. [less] compares elements rather than the indices at which the
    closure of the source reads them. *)

Fixpoint insert_stable {A} (less : A -> A -> bool) (x : A) (l : list A) : list A :=
  match l with
  | [] => [x]
  | y :: l' => if less y x then y :: insert_stable less x l' else x :: y :: l'
  end.

Definition SliceStable {A} (less : A -> A -> bool) (l : list A) : list A :=
  foldr (insert_stable less) [] l.

(** ** math/rand

    The package-level generator is a state [G] threaded through the
    calls. [rand_Intn n] panics for [n <= 0]. *)

Record rand_source (G : Type) := {
  rand_Intn : Z -> G -> option (Z * G);
  rand_Float64 : G -> float64 * G
}.
Arguments rand_Intn {G}.
Arguments rand_Float64 {G}.

(** The documented contract: [Intn] returns a number in [[0,n)] and
    panics if [n <= 0]; [Float64] returns a number in [[0.0,1.0)]. *)
Record rand_contract {G} (R : rand_source G) : Prop := {
  Intn_range : forall n g, 0 < n ->
    exists v g', rand_Intn R n g = Some (v, g') /\ 0 <= v < n;
  Intn_panics : forall n g, n <= 0 -> rand_Intn R n g = None;
  Float64_range : forall g,
    fle fzero (rand_Float64 R g).1 = true /\ flt (rand_Float64 R g).1 fone = true
}.

(** A linear congruential generator, to run the programs on. *)
Definition lcg_next (g : Z) : Z :=
  (g * 6364136223846793005 + 1442695040888963407) mod 2 ^ 64.

Definition lcg : rand_source Z := {|
  rand_Intn := fun n g =>
    if bool_decide (0 < n) then Some ((g / 2 ^ 16) mod n, lcg_next g) else None;
  rand_Float64 := fun g => (ldexp ((g / 2 ^ 11) mod 2 ^ 53) (-53), lcg_next g)
|}.

End Go.

Import Go.

(* ================================================================== *)
(** * src/monalisa/main.go: evolving a pixel buffer *)
(* ================================================================== *)

Module Monalisa.

(** [image.Rectangle] and [image.RGBA] of the standard library, as far
    as the program reads them. *)
Record Rectangle := { MinX : Z; MinY : Z; MaxX : Z; MaxY : Z }.

Record RGBA := { Pix : list byte; Stride : Z; Rect : Rectangle }.

Record Organism := { DNA : RGBA; Fitness : Z }.

(** The package variables with the values the source gives them. *)
Definition PopSize : Z := 250.
Definition PoolSize : Z := 30.
Definition FitnessLimit : Z := 7500.

Definition squareDifference (x y : byte) : Z :=
  let d := uint64 (uint64_of_uint8 x - uint64_of_uint8 y) in
  uint64 (d * d).

Definition diff `{Platform} (a b : RGBA) : option Z :=
  d ← for_range 0 (len (Pix a)) (fun i d =>
         x ← index (Pix a) i;
         y ← index (Pix b) i;
         Some (int64 (d + int64 (squareDifference x y)))) 0;
  Some (int_of_float64 (math_Sqrt (float64_of_int d))).

(** [createPool] sorts the caller's slice in place: the result is the
    population after the call, with the pool or a panic. *)
Definition createPool (PoolSize : Z) (population : list Organism) (target : RGBA)
  : list Organism * option (list Organism) :=
  let pool := [] in
  let population :=
    SliceStable (fun a b => Fitness a <? Fitness b) population in
  (population,
   top ← slice population 0 (int (PoolSize + 1));
   for_range 0 (int (len top - 1)) (fun i pool =>
     tp ← index top PoolSize;
     ti ← index top i;
     let num := int64 (int64 (Fitness tp - Fitness ti) * 10) in
     for_range 0 num (fun n pool =>
       ti ← index top i;
       Some (pool ++ [ti])) pool) pool).

Definition getBest (population : list Organism) : option Organism :=
  '(best, index_) ← for_range 0 (len population) (fun i '(best, index_) =>
     p ← index population i;
     if best <? Fitness p
     then p ← index population i; Some (Fitness p, i)
     else Some (best, index_)) (0, 0);
  index population index_.

Definition calcFitness `{Platform} (o : Organism) (target : RGBA) : option Organism :=
  difference ← diff (DNA o) target;
  let o := if difference =? 0 then {| DNA := DNA o; Fitness := 1 |} else o in
  Some {| DNA := DNA o; Fitness := difference |}.

(** [child.DNA.Pix[i] = x] *)
Definition set_Pix (o : Organism) (i : Z) (x : byte) : option Organism :=
  pix ← store (Pix (DNA o)) i x;
  Some {| DNA := {| Pix := pix; Stride := Stride (DNA o); Rect := Rect (DNA o) |};
          Fitness := Fitness o |}.

Definition crossover {G} (R : rand_source G) (d1 d2 : Organism) (g : G)
  : option (Organism * G) :=
  let pix := make x00 (len (Pix (DNA d1))) in
  let child :=
    {| DNA := {| Pix := pix; Stride := Stride (DNA d1); Rect := Rect (DNA d1) |};
       Fitness := 0 |} in
  '(mid, g) ← rand_Intn R (len (Pix (DNA d1))) g;
  child ← for_range 0 (len (Pix (DNA d1))) (fun i child =>
     if mid <? i
     then x ← index (Pix (DNA d1)) i; set_Pix child i x
     else x ← index (Pix (DNA d2)) i; set_Pix child i x) child;
  Some (child, g).

Definition mutate {G} (R : rand_source G) (MutationRate : float64)
    (o : Organism) (g : G) : option (Organism * G) :=
  for_range 0 (len (Pix (DNA o))) (fun i '(o, g) =>
    let '(r, g) := rand_Float64 R g in
    if flt r MutationRate
    then '(v, g) ← rand_Intn R 255 g;
         o ← set_Pix o i (uint8 v);
         Some (o, g)
    else Some (o, g)) (o, g).

(** One round of the loop of [naturalSelection]: two parents drawn from
    the pool, their child crossed over, mutated and evaluated. *)
Definition breed {G} `{Platform} (R : rand_source G) (MutationRate : float64)
    (pool : list Organism) (target : RGBA) (g : G) : option (Organism * G) :=
  '(r1, g) ← rand_Intn R (len pool) g;
  '(r2, g) ← rand_Intn R (len pool) g;
  a ← index pool r1;
  b ← index pool r2;
  '(child, g) ← crossover R a b g;
  '(child, g) ← mutate R MutationRate child g;
  child ← calcFitness child target;
  Some (child, g).

Definition naturalSelection {G} `{Platform} (R : rand_source G)
    (MutationRate : float64) (pool population : list Organism) (target : RGBA)
    (g : G) : option (list Organism * G) :=
  let next := make {| DNA := {| Pix := []; Stride := 0; Rect := Build_Rectangle 0 0 0 0 |};
                      Fitness := 0 |} (len population) in
  for_range 0 (len population) (fun i '(next, g) =>
    '(child, g) ← breed R MutationRate pool target g;
    next ← store next i child;
    Some (next, g)) (next, g).

End Monalisa.

(* ================================================================== *)
(** * The triangle-drawing program: its pool

    The two circle-drawing programs build their pool with the same
    function, for their own [PoolSize]. *)
(* ================================================================== *)

Module Triangles.

Record Point := { X : Z; Y : Z }.

(** [Color] is the [color.RGBA] the program stores in the interface. *)
Record Triangle := { P1 : Point; P2 : Point; P3 : Point; Color : list byte }.

Record Organism := {
  DNA : Monalisa.RGBA;
  Triangles : list Triangle;
  Fitness : Z
}.

Definition PopSize : Z := 100.
Definition PoolSize : Z := 20.

Definition createPool (PoolSize : Z) (population : list Organism)
    (target : Monalisa.RGBA) : list Organism * option (list Organism) :=
  let pool := [] in
  let population :=
    SliceStable (fun a b => Fitness a <? Fitness b) population in
  (population,
   top ← slice population 0 (int (PoolSize + 1));
   tl ← index top (int (len top - 1));
   t0 ← index top 0;
   if int64 (Fitness tl - Fitness t0) =? 0
   then Some population
   else
     for_range 0 (int (len top - 1)) (fun i pool =>
       tp ← index top PoolSize;
       ti ← index top i;
       let num := int64 (Fitness tp - Fitness ti) in
       for_range 0 num (fun n pool =>
         ti ← index top i;
         Some (pool ++ [ti])) pool) pool).

End Triangles.

(* ================================================================== *)
(** * The byte-string program *)
(* ================================================================== *)

Module Shakespeare.

Record DNA := { Gene : list byte; Fitness : float64 }.

Definition PopSize : Z := 500.

Definition calcFitness (d : DNA) (target : list byte) : option DNA :=
  score ← for_range 0 (len (Gene d)) (fun i score =>
     x ← index (Gene d) i;
     t ← index target i;
     if Byte.eqb x t then Some (int (score + 1)) else Some score) 0;
  Some {| Gene := Gene d;
          Fitness := fdiv (float64_of_int score) (float64_of_int (len (Gene d))) |}.

(** [population[i].calcFitness(target)] updates the caller's slice: the
    result is the population after the call and the pool. *)
Definition createPool `{Platform} (population : list DNA) (target : list byte)
    (maxFitness : float64) : option (list DNA * list DNA) :=
  let pool := [] in
  for_range 0 (len population) (fun i '(population, pool) =>
    p ← index population i;
    p ← calcFitness p target;
    population ← store population i p;
    p ← index population i;
    let num := int_of_float64 (fmul (fdiv (Fitness p) maxFitness) f100) in
    pool ← for_range 0 num (fun n pool =>
       p ← index population i;
       Some (pool ++ [p])) pool;
    Some (population, pool)) (population, pool).

Definition getBest (population : list DNA) : option DNA :=
  '(best, index_) ← for_range 0 (len population) (fun i '(best, index_) =>
     p ← index population i;
     if flt best (Fitness p)
     then p ← index population i; Some (Fitness p, i)
     else Some (best, index_)) (fzero, 0);
  index population index_.

(** [child.Gene[i] = x] *)
Definition set_Gene (d : DNA) (i : Z) (x : byte) : option DNA :=
  gene ← store (Gene d) i x;
  Some {| Gene := gene; Fitness := Fitness d |}.

Definition crossover {G} (R : rand_source G) (d1 d2 : DNA) (g : G)
  : option (DNA * G) :=
  let child := {| Gene := make x00 (len (Gene d1)); Fitness := fzero |} in
  '(mid, g) ← rand_Intn R (len (Gene d1)) g;
  child ← for_range 0 (len (Gene d1)) (fun i child =>
     if mid <? i
     then x ← index (Gene d1) i; set_Gene child i x
     else x ← index (Gene d2) i; set_Gene child i x) child;
  Some (child, g).

Definition mutate {G} (R : rand_source G) (MutationRate : float64)
    (d : DNA) (g : G) : option (DNA * G) :=
  for_range 0 (len (Gene d)) (fun i '(d, g) =>
    let '(r, g) := rand_Float64 R g in
    if flt r MutationRate
    then '(v, g) ← rand_Intn R 95 g;
         d ← set_Gene d i (uint8 (int (v + 32)));
         Some (d, g)
    else Some (d, g)) (d, g).

Definition breed {G} (R : rand_source G) (MutationRate : float64)
    (pool : list DNA) (target : list byte) (g : G) : option (DNA * G) :=
  '(r1, g) ← rand_Intn R (len pool) g;
  '(r2, g) ← rand_Intn R (len pool) g;
  a ← index pool r1;
  b ← index pool r2;
  '(child, g) ← crossover R a b g;
  '(child, g) ← mutate R MutationRate child g;
  child ← calcFitness child target;
  Some (child, g).

Definition naturalSelection {G} (R : rand_source G) (MutationRate : float64)
    (pool population : list DNA) (target : list byte) (g : G)
  : option (list DNA * G) :=
  let next := make {| Gene := []; Fitness := fzero |} (len population) in
  for_range 0 (len population) (fun i '(next, g) =>
    '(child, g) ← breed R MutationRate pool target g;
    next ← store next i child;
    Some (next, g)) (next, g).

End Shakespeare.

(* ================================================================== *)
(** * The first population and the loop of [main]

    What the programs do around the functions above: they create a
    random population and repeat [getBest], [createPool] and
    [naturalSelection] until the best organism is good enough. Loading
    the target, printing and saving have no part in the computation and
    are left out. *)
(* ================================================================== *)

Module Library.

(** [bytes.Compare(a, b)]: 0 if [a == b], -1 if [a < b] and +1 if
    [a > b], in lexicographic order. *)
Fixpoint bytes_Compare (a b : list byte) : Z :=
  match a, b with
  | [], [] => 0
  | [], _ :: _ => -1
  | _ :: _, [] => 1
  | x :: a', y :: b' =>
      if uint64_of_uint8 x <? uint64_of_uint8 y then -1
      else if uint64_of_uint8 y <? uint64_of_uint8 x then 1
      else bytes_Compare a' b'
  end.

(** [make([]T, n)] for a length held in a variable: a negative length
    panics. *)
Definition make_n {A} (zero : A) (n : Z) : option (list A) :=
  if bool_decide (0 <= n) then Some (make zero n) else None.

(** [rand.Read(p)] writes [len(p)] random bytes into [p], from the state
    of the package-level generator; it returns no error. *)
Record rand_reader (G : Type) := {
  rand_Read : list byte -> G -> list byte * G
}.
Arguments rand_Read {G}.

Definition Read_contract {G} (D : rand_reader G) : Prop :=
  forall p g, length (rand_Read D p g).1 = length p.

(** The bytes of the linear congruential generator. *)
Fixpoint lcg_bytes (n : nat) (g : Z) : list byte * Z :=
  match n with
  | O => ([], g)
  | S n' => let '(l, g') := lcg_bytes n' (lcg_next g) in (uint8 (g / 2 ^ 16) :: l, g')
  end.

Definition lcg_reader : rand_reader Z := {|
  rand_Read := fun p g => lcg_bytes (length p) g
|}.

End Library.

Import Library.

(* ------------------------------------------------------------------ *)
(** ** src/monalisa/main.go *)
(* ------------------------------------------------------------------ *)

Module MonalisaMain.
Import Monalisa.

(** [MutationRate = 0.0004], as the nearest [float64]. *)
Definition MutationRate : float64 :=
  Eval vm_compute in fdiv (float64_of_int 4) (float64_of_int 10000).

Definition createRandomImageFrom {G} (D : rand_reader G) (img : RGBA) (g : G)
  : RGBA * G :=
  let pix := make x00 (len (Pix img)) in
  let '(pix, g) := rand_Read D pix g in
  ({| Pix := pix; Stride := Stride img; Rect := Rect img |}, g).

Definition createOrganism {G} `{Platform} (D : rand_reader G) (target : RGBA)
    (g : G) : option (Organism * G) :=
  let '(created, g) := createRandomImageFrom D target g in
  let organism := {| DNA := created; Fitness := 0 |} in
  organism ← calcFitness organism target;
  Some (organism, g).

Definition createPopulation {G} `{Platform} (D : rand_reader G) (PopSize : Z)
    (target : RGBA) (g : G) : option (list Organism * G) :=
  population ← make_n {| DNA := {| Pix := []; Stride := 0;
                                   Rect := Build_Rectangle 0 0 0 0 |};
                         Fitness := 0 |} PopSize;
  for_range 0 PopSize (fun i '(population, g) =>
    '(organism, g) ← createOrganism D target g;
    population ← store population i organism;
    Some (population, g)) (population, g).

(** One round of [for !found { ... }]: the variables [found] and
    [population] after the round. *)
Definition generation {G} `{Platform} (R : rand_source G)
    (MutationRate : float64) (PoolSize FitnessLimit : Z) (target : RGBA)
    (population : list Organism) (g : G) : option (bool * list Organism * G) :=
  bestOrganism ← getBest population;
  if Fitness bestOrganism <? FitnessLimit
  then Some (true, population, g)
  else
    let '(population, pool) := createPool PoolSize population target in
    pool ← pool;
    '(population, g) ← naturalSelection R MutationRate pool population target g;
    Some (false, population, g).

(** The loop, stopped after [n] rounds if it has not ended by then. *)
Fixpoint evolve {G} `{Platform} (R : rand_source G) (MutationRate : float64)
    (PoolSize FitnessLimit : Z) (target : RGBA) (n : nat)
    (population : list Organism) (g : G) : option (bool * list Organism * G) :=
  match n with
  | O => Some (false, population, g)
  | S n' =>
      '(found, population, g) ←
        generation R MutationRate PoolSize FitnessLimit target population g;
      if found : bool then Some (true, population, g)
      else evolve R MutationRate PoolSize FitnessLimit target n' population g
  end.

(** [main], for the image that [load] returned. *)
Definition main {G} `{Platform} (R : rand_source G) (D : rand_reader G)
    (MutationRate : float64) (PopSize PoolSize FitnessLimit : Z)
    (target : RGBA) (n : nat) (g : G) : option (bool * list Organism * G) :=
  '(population, g) ← createPopulation D PopSize target g;
  evolve R MutationRate PoolSize FitnessLimit target n population g.

End MonalisaMain.

(* ------------------------------------------------------------------ *)
(** ** The byte-string program *)
(* ------------------------------------------------------------------ *)

Module ShakespeareMain.
Import Shakespeare.

(** [MutationRate = 0.005], as the nearest [float64]. *)
Definition MutationRate : float64 :=
  Eval vm_compute in fdiv (float64_of_int 5) (float64_of_int 1000).

(** ["To be or not to be, that is the question."] *)
Definition target : list byte :=
  [x54; x6f; x20; x62; x65; x20; x6f; x72; x20; x6e; x6f; x74; x20; x74; x6f;
   x20; x62; x65; x2c; x20; x74; x68; x61; x74; x20; x69; x73; x20; x74; x68;
   x65; x20; x71; x75; x65; x73; x74; x69; x6f; x6e; x2e].

Definition createDNA {G} (R : rand_source G) (target : list byte) (g : G)
  : option (DNA * G) :=
  let ba := make x00 (len target) in
  '(ba, g) ← for_range 0 (len target) (fun i '(ba, g) =>
     '(v, g) ← rand_Intn R 95 g;
     ba ← store ba i (uint8 (int (v + 32)));
     Some (ba, g)) (ba, g);
  let dna := {| Gene := ba; Fitness := fzero |} in
  dna ← calcFitness dna target;
  Some (dna, g).

Definition createPopulation {G} (R : rand_source G) (PopSize : Z)
    (target : list byte) (g : G) : option (list DNA * G) :=
  population ← make_n {| Gene := []; Fitness := fzero |} PopSize;
  for_range 0 PopSize (fun i '(population, g) =>
    '(dna, g) ← createDNA R target g;
    population ← store population i dna;
    Some (population, g)) (population, g).

(** One round of [for !found { ... }]: the variables [found] and
    [population] after the round. *)
Definition generation {G} `{Platform} (R : rand_source G)
    (MutationRate : float64) (target : list byte) (population : list DNA) (g : G)
  : option (bool * list DNA * G) :=
  bestDNA ← getBest population;
  if bytes_Compare (Gene bestDNA) target =? 0
  then Some (true, population, g)
  else
    let maxFitness := Fitness bestDNA in
    '(population, pool) ← createPool population target maxFitness;
    '(population, g) ← naturalSelection R MutationRate pool population target g;
    Some (false, population, g).

(** The loop, stopped after [n] rounds if it has not ended by then. *)
Fixpoint evolve {G} `{Platform} (R : rand_source G) (MutationRate : float64)
    (target : list byte) (n : nat) (population : list DNA) (g : G)
  : option (bool * list DNA * G) :=
  match n with
  | O => Some (false, population, g)
  | S n' =>
      '(found, population, g) ← generation R MutationRate target population g;
      if found : bool then Some (true, population, g)
      else evolve R MutationRate target n' population g
  end.

Definition main {G} `{Platform} (R : rand_source G) (MutationRate : float64)
    (PopSize : Z) (target : list byte) (n : nat) (g : G)
  : option (bool * list DNA * G) :=
  '(population, g) ← createPopulation R PopSize target g;
  evolve R MutationRate target n population g.

End ShakespeareMain.

(* ------------------------------------------------------------------ *)
(** ** The triangle-drawing program: a random triangle *)
(* ------------------------------------------------------------------ *)

Module TrianglesMain.
Import Triangles.

(** The composite literals evaluate their calls from left to right. *)
Definition createTriangle {G} (R : rand_source G) (w h : Z) (g : G)
  : option (Triangle * G) :=
  '(x, g) ← rand_Intn R w g;
  '(y, g) ← rand_Intn R h g;
  let p1 := {| X := x; Y := y |} in
  '(dx, g) ← rand_Intn R 30 g;
  '(dy, g) ← rand_Intn R 30 g;
  let p2 := {| X := int (X p1 + int (dx - 15)); Y := int (Y p1 + int (dy - 15)) |} in
  '(dx, g) ← rand_Intn R 30 g;
  '(dy, g) ← rand_Intn R 30 g;
  let p3 := {| X := int (X p1 + int (dx - 15)); Y := int (Y p1 + int (dy - 15)) |} in
  '(cr, g) ← rand_Intn R 255 g;
  '(cg, g) ← rand_Intn R 255 g;
  '(cb, g) ← rand_Intn R 255 g;
  '(ca, g) ← rand_Intn R 255 g;
  Some ({| P1 := p1; P2 := p2; P3 := p3;
           Color := [uint8 cr; uint8 cg; uint8 cb; uint8 ca] |}, g).

End TrianglesMain.

(* ================================================================== *)
(** * Runs of the programs on concrete populations *)
(* ================================================================== *)

Module Scenario.
Import Monalisa.

(** A 20 by 50 target, all white, and an all black candidate. *)
Definition frame : Rectangle := {| MinX := 0; MinY := 0; MaxX := 20; MaxY := 50 |}.

Definition white : RGBA := {| Pix := replicate 4000 xff; Stride := 80; Rect := frame |}.

Definition black : RGBA := {| Pix := replicate 4000 x00; Stride := 80; Rect := frame |}.

(** A population of [PopSize] organisms that all carry the same image. *)
Definition converged : list Organism :=
  replicate 250 {| DNA := black; Fitness := 16127 |}.

(** A one-pixel target with a near and a far candidate. *)
Definition dot : Rectangle := {| MinX := 0; MinY := 0; MaxX := 1; MaxY := 1 |}.

Definition target1 : RGBA := {| Pix := [xff; xff; xff; xff]; Stride := 4; Rect := dot |}.

Definition near : Organism :=
  {| DNA := {| Pix := [xff; xff; xff; xf0]; Stride := 4; Rect := dot |}; Fitness := 15 |}.

Definition far : Organism :=
  {| DNA := {| Pix := [x00; x00; x00; x00]; Stride := 4; Rect := dot |}; Fitness := 510 |}.

(** Two drawings of the triangle program, without triangles, at
    different distances from their target. *)
Definition sketch (distance : Z) : Triangles.Organism :=
  {| Triangles.DNA := DNA near; Triangles.Triangles := []; Triangles.Fitness := distance |}.

End Scenario.

Module Parents.

(** Two byte strings of one length, as genomes and as pixel buffers. *)
Definition abcd : list byte := [x61; x62; x63; x64].
Definition wxyz : list byte := [x77; x78; x79; x7a].

Definition mother : Shakespeare.DNA := {| Shakespeare.Gene := abcd; Shakespeare.Fitness := fzero |}.
Definition father : Shakespeare.DNA := {| Shakespeare.Gene := wxyz; Shakespeare.Fitness := fzero |}.

Definition mother' : Monalisa.Organism :=
  {| Monalisa.DNA := {| Monalisa.Pix := abcd; Monalisa.Stride := 4; Monalisa.Rect := Scenario.dot |};
     Monalisa.Fitness := 0 |}.
Definition father' : Monalisa.Organism :=
  {| Monalisa.DNA := {| Monalisa.Pix := wxyz; Monalisa.Stride := 4; Monalisa.Rect := Scenario.dot |};
     Monalisa.Fitness := 0 |}.

End Parents.

(* ================================================================== *)
(** * What the fitness functions are compared with *)
(* ================================================================== *)

Module Measures.

(** The sum, over the positions of two pixel buffers, of the squared
    difference of the two bytes. *)
Fixpoint sum_squares (a b : list byte) : Z :=
  match a, b with
  | x :: a', y :: b' =>
      (uint64_of_uint8 x - uint64_of_uint8 y) ^ 2 + sum_squares a' b'
  | _, _ => 0
  end.

(** The number of positions at which two byte strings agree. *)
Fixpoint matches (g t : list byte) : Z :=
  match g, t with
  | x :: g', y :: t' => (if Byte.eqb x y then 1 else 0) + matches g' t'
  | _, _ => 0
  end.

(** Two images of one row of 17 314 877 977 pixels (69 259 511 908
    bytes) whose squared distance is [2^52 + 2^27]: all bytes but the
    last four differ by 255, the next three by 172, 32 and 4. *)
Definition bright : list byte :=
  replicate (Z.to_nat 69259511904) xff ++ [xac; x20; x04; x00].

Definition dark : list byte :=
  replicate (Z.to_nat 69259511904) x00 ++ [x00; x00; x00; x00].

Definition image_of (pix : list byte) : Monalisa.RGBA :=
  {| Monalisa.Pix := pix; Monalisa.Stride := 4 * 17314877977;
     Monalisa.Rect := {| Monalisa.MinX := 0; Monalisa.MinY := 0;
                         Monalisa.MaxX := 17314877977; Monalisa.MaxY := 1 |} |}.

End Measures.

Module Proportional.
Import Shakespeare.

(** [num] of [createPool]: the copies of an organism of fitness [f]. *)
Definition copies `{Platform} (f maxFitness : float64) : Z :=
  int_of_float64 (fmul (fdiv f maxFitness) f100).

(** An organism with the fitness of its genome against [target]. *)
Definition evaluated (target : list byte) (d : DNA) : DNA :=
  {| Gene := Gene d;
     Fitness := fdiv (float64_of_int (Measures.matches (Gene d) target))
                     (float64_of_int (len (Gene d))) |}.

(** A target of three bytes and a population of three candidates. *)
Definition abc : list byte := [x61; x62; x63].

Definition azc : DNA := {| Gene := [x61; x7a; x63]; Fitness := fzero |}.

Definition candidates : list DNA :=
  [ {| Gene := [x61; x62; x63]; Fitness := fzero |};
    azc;
    {| Gene := [x7a; x7a; x7a]; Fitness := fzero |} ].

Definition nobody : DNA := {| Gene := []; Fitness := fzero |}.

End Proportional.

(* ================================================================== *)
(** * Notions the statements use *)
(* ================================================================== *)

Module Notions.

(** The values an [int] variable can hold. *)
Definition is_int (z : Z) : Prop := - 2 ^ 63 <= z < 2 ^ 63.

(** What [diff] can assign to [Fitness]: a square root, never negative. *)
Definition is_distance (z : Z) : Prop := 0 <= z < 2 ^ 63.

(** The child of a single-point crossover at [m]: as long as the first
    parent [a], with the elements up to [m] of the second parent [b] and
    the elements after [m] of the first. *)
Definition single_point (m : Z) (a b child : list byte) : Prop :=
  length child = length a /\
  forall i, 0 <= i < len a ->
    index child i = if i <=? m then index b i else index a i.

(** Not a number, or a float whose sign bit is clear. *)
Definition sign_plus (x : float64) : Prop :=
  match x with
  | S754_zero s | S754_infinity s | S754_finite s _ _ => s = false
  | S754_nan => True
  end.

(** A mantissa in [[2^52, 2^53]] with its exponent, as a float: rounding
    may have carried the mantissa to [2^53]. *)
Definition normalise (M E : Z) : float64 :=
  if M =? 2 ^ 53 then S754_finite false (2 ^ 52) (E + 1)
  else S754_finite false (Z.to_pos M) E.

(** Round to nearest, ties to even, of [n / 2^k]. *)
Definition rne (n k : Z) : Z :=
  let q := n / 2 ^ k in
  let r := n mod 2 ^ k in
  if 2 * r <? 2 ^ k then q
  else if 2 ^ k <? 2 * r then q + 1
  else if Z.even q then q else q + 1.

(** The mantissa of [float64(n)] for [n] of [d] bits, before the
    mantissa is renormalised when rounding carried it to [2^53]. *)
Definition int_mantissa (n d : Z) : Z :=
  if d <=? 53 then n * 2 ^ (53 - d) else rne n (d - 53).

(** What a match ratio can be: zero, or a positive finite float. *)
Definition zero_or_positive (x : float64) : Prop :=
  x = fzero \/ exists m e, x = S754_finite false m e.

(** The floats of the positive integers of an [int]. *)
Definition int_float (x : float64) : Prop :=
  exists m e, x = S754_finite false m e /\
    2 ^ 52 <= Z.pos m < 2 ^ 53 /\ -52 <= e <= 11.

End Notions.

Module TopPool.

(** The order [createPool] sorts by, and the copies of [ti] when [tp]
    closes the top, in src/monalisa/main.go ... *)
Definition less (a b : Monalisa.Organism) : bool :=
  Monalisa.Fitness a <? Monalisa.Fitness b.

Definition weight (tp ti : Monalisa.Organism) : Z :=
  int64 (int64 (Monalisa.Fitness tp - Monalisa.Fitness ti) * 10).

(** ... and in the triangle program. *)
Definition less' (a b : Triangles.Organism) : bool :=
  Triangles.Fitness a <? Triangles.Fitness b.

Definition weight' (tp ti : Triangles.Organism) : Z :=
  int64 (Triangles.Fitness tp - Triangles.Fitness ti).

End TopPool.

Module Invariants.

(** The bytes [createDNA] and [mutate] of the byte-string program
    write: [rand.Intn(95) + 32], the printable ASCII characters from the
    space to the tilde. *)
Definition printable (b : byte) : Prop := 32 <= uint64_of_uint8 b < 127.

(** The child of a crossover at [m] when the parents may differ in
    length: the first [m + 1] elements of [b], then [a] from there on. *)
Definition splice {A} (m : Z) (a b : list A) : list A :=
  take (Z.to_nat (m + 1)) b ++ drop (Z.to_nat (m + 1)) a.

(** [mutate] changed [old] into [new]: same length, and every position
    holds what it held or a value that satisfies [fresh]. *)
Definition mutation_of (fresh : byte -> Prop) (old new : list byte) : Prop :=
  length new = length old /\
  forall (i : nat) x, new !! i = Some x -> old !! i = Some x \/ fresh x.

(** An organism of src/monalisa/main.go as the program keeps it: an
    image with the frame of the target and as many bytes, with its
    distance to the target as Fitness. *)
Definition organism_of `{Platform} (target : Monalisa.RGBA) (o : Monalisa.Organism)
  : Prop :=
  length (Monalisa.Pix (Monalisa.DNA o)) = length (Monalisa.Pix target) /\
  Monalisa.Stride (Monalisa.DNA o) = Monalisa.Stride target /\
  Monalisa.Rect (Monalisa.DNA o) = Monalisa.Rect target /\
  Monalisa.diff (Monalisa.DNA o) target = Some (Monalisa.Fitness o).

(** The same without the Fitness: what a parent has to be. *)
Definition framed (target : Monalisa.RGBA) (o : Monalisa.Organism) : Prop :=
  length (Monalisa.Pix (Monalisa.DNA o)) = length (Monalisa.Pix target) /\
  Monalisa.Stride (Monalisa.DNA o) = Monalisa.Stride target /\
  Monalisa.Rect (Monalisa.DNA o) = Monalisa.Rect target.

(** The sum of the weights of the elements of a list. *)
Definition total {A} (w : A -> Z) (l : list A) : Z :=
  foldr (fun x acc => w x + acc) 0 l.

(** An organism of the byte-string program as the program keeps it: a
    genome as long as the target, of printable bytes, with the match
    ratio of that genome as Fitness. *)
Definition candidate (target : list byte) (d : Shakespeare.DNA) : Prop :=
  length (Shakespeare.Gene d) = length target /\
  Forall printable (Shakespeare.Gene d) /\
  d = Proportional.evaluated target d.

End Invariants.

(* ================================================================== *)
(** * The exact count the proportional pool is compared with *)
(* ================================================================== *)

Module ExactPool.
Import Shakespeare.

(** The number a finite float stands for. *)
Definition value (x : float64) : QArith_base.Q :=
  match x with
  | S754_finite s m e =>
      QArith_base.Qmult (QArith_base.inject_Z (cond_Zopp s (Z.pos m)))
        (QArith_base.Qpower (QArith_base.Qmake 2 1) e)
  | _ => QArith_base.Qmake 0 1
  end.

(** floor((fitness / maxFitness) * 100), without any rounding. *)
Definition floor_copies (fitness maxFitness : QArith_base.Q) : Z :=
  Qround.Qfloor
    (QArith_base.Qmult (QArith_base.Qdiv fitness maxFitness) (QArith_base.inject_Z 100)).

(** A target of 41 bytes, and the genome that has its first [k] bytes
    right and the others wrong. *)
Definition target41 : list byte := replicate 41 x61.

Definition first_right (k : nat) : DNA :=
  {| Gene := replicate k x61 ++ replicate (41 - k) x62; Fitness := fzero |}.

End ExactPool.

(* ================================================================== *)
(** * Facts about the Go fragment *)
(* ================================================================== *)

Module GoFacts.

(** ** Integers *)

Lemma int64_id z : - 2 ^ 63 <= z < 2 ^ 63 -> int64 z = z.
Proof.
  intros Hz. unfold int64.
  rewrite Z.mod_small by lia. lia.
Qed.

Lemma int64_range z : - 2 ^ 63 <= int64 z < 2 ^ 63.
Proof.
  unfold int64.
  pose proof (Z.mod_pos_bound (z + 2 ^ 63) (2 ^ 64) ltac:(lia)). lia.
Qed.

Lemma int64_zero_iff z : - 2 ^ 64 < z < 2 ^ 64 -> int64 z = 0 <-> z = 0.
Proof.
  intros Hz. unfold int64. split; [|intros ->; reflexivity].
  intros Hw.
  assert (Hm : (z + 2 ^ 63) mod 2 ^ 64 = 2 ^ 63) by lia.
  destruct (Z_lt_le_dec (z + 2 ^ 63) 0) as [Hneg|Hpos].
  - rewrite <- (Z.mod_add _ 1) in Hm by lia.
    rewrite Z.mod_small in Hm by lia. lia.
  - destruct (Z_lt_le_dec (z + 2 ^ 63) (2 ^ 64)) as [Hlt|Hge].
    + rewrite Z.mod_small in Hm by lia. lia.
    + rewrite <- (Z.mod_add _ (-1)) in Hm by lia.
      rewrite Z.mod_small in Hm by lia. lia.
Qed.

Lemma uint64_of_uint8_range b : 0 <= uint64_of_uint8 b < 256.
Proof.
  unfold uint64_of_uint8.
  pose proof (Byte.to_N_bounded b). lia.
Qed.

(** ** Slices *)

Lemma len_nonneg {A} (s : list A) : 0 <= len s.
Proof. unfold len. lia. Qed.

Lemma index_nat {A} (s : list A) (n : nat) : index s (Z.of_nat n) = s !! n.
Proof.
  unfold index. rewrite bool_decide_true by lia. by rewrite Nat2Z.id.
Qed.

Lemma index_Some {A} (s : list A) i x :
  index s i = Some x <-> 0 <= i /\ s !! Z.to_nat i = Some x.
Proof.
  unfold index. case_bool_decide as Hi; split.
  - by intros Hx.
  - by intros [_ Hx].
  - discriminate.
  - intros [Hi' _]. lia.
Qed.

Lemma index_is_Some {A} (s : list A) i : 0 <= i < len s -> is_Some (index s i).
Proof.
  intros Hi. unfold index, len in *. rewrite bool_decide_true by lia.
  apply lookup_lt_is_Some. lia.
Qed.

Lemma index_None {A} (s : list A) i : ~ (0 <= i < len s) -> index s i = None.
Proof.
  intros Hi. unfold index, len in *. case_bool_decide; [|done].
  apply lookup_ge_None. lia.
Qed.

Lemma index_Some_range {A} (s : list A) i x : index s i = Some x -> 0 <= i < len s.
Proof.
  intros [Hi Hx]%index_Some. apply lookup_lt_Some in Hx. unfold len. lia.
Qed.

Lemma slice_prefix {A} (s : list A) hi :
  0 <= hi <= len s -> slice s 0 hi = Some (take (Z.to_nat hi) s).
Proof.
  intros Hhi. unfold slice. rewrite bool_decide_true by lia.
  by rewrite Z.sub_0_r.
Qed.

Lemma slice_out_of_range {A} (s : list A) lo hi :
  hi < lo \/ len s < hi \/ lo < 0 -> slice s lo hi = None.
Proof.
  intros H. unfold slice. rewrite bool_decide_false by lia. done.
Qed.

Lemma len_take {A} (s : list A) n :
  0 <= n <= len s -> len (take (Z.to_nat n) s) = n.
Proof.
  unfold len. intros Hn. rewrite length_take_le by lia. lia.
Qed.

Lemma index_take {A} (s : list A) n i :
  i < n -> index (take (Z.to_nat n) s) i = index s i.
Proof.
  intros Hi. unfold index. case_bool_decide; [|done].
  apply lookup_take_lt. lia.
Qed.

(** ** Loops *)

Lemma for_steps_inv {St} (P : Z -> St -> Prop) body n i (s : St) :
  P i s ->
  (forall j t, i <= j < i + Z.of_nat n -> P j t ->
     exists t', body j t = Some t' /\ P (j + 1) t') ->
  exists s', for_steps n i body s = Some s' /\ P (i + Z.of_nat n) s'.
Proof.
  revert i s. induction n as [|n IH]; intros i s Hs Hbody.
  - exists s. rewrite Z.add_0_r. done.
  - destruct (Hbody i s ltac:(lia) Hs) as (t & Ht & HP).
    destruct (IH (i + 1) t HP) as (s' & Hs' & HP').
    { intros j u Hj. apply Hbody. lia. }
    exists s'. cbn. rewrite Ht. cbn. split; [done|].
    by replace (i + Z.of_nat (S n)) with (i + 1 + Z.of_nat n) by lia.
Qed.

Lemma for_range_inv {St} (P : Z -> St -> Prop) body lo hi (s : St) :
  lo <= hi ->
  P lo s ->
  (forall j t, lo <= j < hi -> P j t ->
     exists t', body j t = Some t' /\ P (j + 1) t') ->
  exists s', for_range lo hi body s = Some s' /\ P hi s'.
Proof.
  intros Hle Hs Hbody. unfold for_range.
  destruct (for_steps_inv P body (Z.to_nat (hi - lo)) lo s Hs) as (s' & E & HP).
  { intros j t Hj. apply Hbody. lia. }
  exists s'. split; [done|].
  by replace hi with (lo + Z.of_nat (Z.to_nat (hi - lo))) by lia.
Qed.

Lemma for_range_empty {St} body lo hi (s : St) :
  hi <= lo -> for_range lo hi body s = Some s.
Proof.
  intros Hle. unfold for_range.
  by replace (Z.to_nat (hi - lo)) with O by lia.
Qed.

(** The loop [for n := 0; n < num; n++ { pool = append(pool, x) }]. *)
Lemma for_steps_append {A} (x : A) n i pool :
  for_steps n i (fun _ pool => Some (pool ++ [x])) pool
  = Some (pool ++ replicate n x).
Proof.
  revert i pool. induction n as [|n IH]; intros i pool; cbn.
  - by rewrite app_nil_r.
  - rewrite IH. by rewrite <- app_assoc.
Qed.

Lemma for_range_append {A} (top : list A) i x num pool :
  index top i = Some x ->
  for_range 0 num (fun _ pool => ti ← index top i; Some (pool ++ [ti])) pool
  = Some (pool ++ replicate (Z.to_nat num) x).
Proof.
  intros Hx. unfold for_range. rewrite Hx. cbn.
  rewrite Z.sub_0_r. apply for_steps_append.
Qed.

(** ** sort.SliceStable *)

Section Sorting.
Context {A : Type} (key : A -> Z).

Let less (a b : A) : bool := key a <? key b.
Let le (a b : A) : Prop := key a <= key b.

Lemma insert_stable_Permutation x l :
  Permutation (insert_stable less x l) (x :: l).
Proof.
  induction l as [|y l IH]; cbn; [done|].
  destruct (less y x); [|done].
  rewrite IH. apply perm_swap.
Qed.

Lemma SliceStable_Permutation l : Permutation (SliceStable less l) l.
Proof.
  induction l as [|x l IH]; cbn; [done|].
  rewrite insert_stable_Permutation. by constructor.
Qed.

Lemma insert_stable_sorted x l :
  StronglySorted le l -> StronglySorted le (insert_stable less x l).
Proof.
  induction 1 as [|y l Hl IH Hy]; cbn.
  - repeat constructor.
  - unfold less at 1. destruct (Z.ltb_spec (key y) (key x)) as [Hlt|Hge].
    + constructor; [done|].
      rewrite insert_stable_Permutation.
      constructor; [unfold le; lia | done].
    + constructor; [by constructor|].
      constructor; [done|].
      rewrite Forall_forall in Hy |- *. intros a Ha.
      specialize (Hy a Ha). unfold le in *. lia.
Qed.

Lemma SliceStable_StronglySorted l : StronglySorted le (SliceStable less l).
Proof.
  induction l as [|x l IH]; cbn; [constructor|].
  by apply insert_stable_sorted.
Qed.

Lemma SliceStable_length l : length (SliceStable less l) = length l.
Proof. apply Permutation_length, SliceStable_Permutation. Qed.

(** Elements with equal keys keep their order. *)
Lemma insert_stable_filter k x l :
  filter (fun a => key a = k) (insert_stable less x l)
  = filter (fun a => key a = k) (x :: l).
Proof.
  induction l as [|y l IH]; [done|]. cbn [insert_stable].
  unfold less at 1. destruct (Z.ltb_spec (key y) (key x)) as [Hlt|Hge]; [|done].
  rewrite filter_cons, IH, !filter_cons.
  repeat case_decide; (done || lia).
Qed.

Lemma SliceStable_stable k l :
  filter (fun a => key a = k) (SliceStable less l)
  = filter (fun a => key a = k) l.
Proof.
  induction l as [|x l IH]; [done|]. cbn [SliceStable foldr].
  rewrite insert_stable_filter, !filter_cons.
  fold (SliceStable less l). by rewrite IH.
Qed.

Lemma StronglySorted_lookup_le (l : list A) (i j : nat) x y :
  StronglySorted le l -> l !! i = Some x -> l !! j = Some y ->
  (i <= j)%nat -> key x <= key y.
Proof.
  intros Hl. revert i j. induction Hl as [|a l Hl IH Ha]; intros i j Hx Hy Hij.
  - by rewrite lookup_nil in Hx.
  - destruct i as [|i], j as [|j]; cbn in *; simplify_eq; try lia.
    + rewrite Forall_forall in Ha. apply Ha.
      eapply list_elem_of_In, list_elem_of_lookup_2, Hy.
    + eapply IH; eauto. lia.
Qed.
End Sorting.

End GoFacts.

(* ================================================================== *)
(** * Facts about float64 *)
(* ================================================================== *)

Module FloatFacts.
Import Notions.

(** ** Binary digits *)

Lemma digits2_pos_bounds p :
  2 ^ (Z.pos (digits2_pos p) - 1) <= Z.pos p < 2 ^ Z.pos (digits2_pos p).
Proof.
  induction p as [p IH|p IH|]; cbn [digits2_pos].
  - rewrite Pos2Z.inj_succ.
    replace (Z.succ (Z.pos (digits2_pos p)) - 1) with (Z.succ (Z.pos (digits2_pos p) - 1)) by lia.
    rewrite !Z.pow_succ_r by lia. lia.
  - rewrite Pos2Z.inj_succ.
    replace (Z.succ (Z.pos (digits2_pos p)) - 1) with (Z.succ (Z.pos (digits2_pos p) - 1)) by lia.
    rewrite !Z.pow_succ_r by lia. lia.
  - cbn. lia.
Qed.

Lemma pow2_lt_inv a b : 0 <= b -> 2 ^ a < 2 ^ b -> a < b.
Proof.
  intros Hb H. destruct (Z_lt_le_dec a b) as [|Hle]; [done|].
  pose proof (Z.pow_le_mono_r 2 b a ltac:(lia) Hle). lia.
Qed.

(** The number of digits is determined by the two powers around. *)
Lemma digits2_pos_unique p k :
  2 ^ (k - 1) <= Z.pos p < 2 ^ k -> Z.pos (digits2_pos p) = k.
Proof.
  intros [Hlo Hhi]. pose proof (digits2_pos_bounds p) as [Dlo Dhi].
  assert (0 < k).
  { destruct (Z_lt_le_dec 0 k); [done|].
    rewrite Z.pow_neg_r in Hlo by lia.
    destruct (Z.eq_dec k 0) as [->|]; [cbn in Hhi; lia|].
    rewrite Z.pow_neg_r in Hhi by lia. lia. }
  assert (Z.pos (digits2_pos p) - 1 < k) by (apply pow2_lt_inv; lia).
  assert (k - 1 < Z.pos (digits2_pos p)) by (apply pow2_lt_inv; lia).
  lia.
Qed.

Lemma Zdigits2_unique z k :
  2 ^ (k - 1) <= z < 2 ^ k -> 0 < z -> Zdigits2 z = k.
Proof.
  intros Hz Hpos. destruct z as [|p|p]; try lia.
  by apply digits2_pos_unique.
Qed.

(** ** The exponent function of binary64 *)

Lemma fexp_normal e : -1021 <= e -> fexp prec emax e = e - 53.
Proof. intros He. unfold fexp, emin, prec, emax. lia. Qed.

(** ** Shifting right *)

Lemma shr_1_nonneg m r s :
  0 <= m -> shr_1 (Build_shr_record m r s) = Build_shr_record (m / 2) (Z.odd m) (r || s).
Proof.
  intros Hm. destruct m as [|[p|p|]|p]; try lia; cbn [shr_1].
  - reflexivity.
  - replace (Z.pos p~1 / 2) with (Z.pos p); [reflexivity|].
    apply Z.div_unique with 1; lia.
  - replace (Z.pos p~0 / 2) with (Z.pos p); [reflexivity|].
    apply Z.div_unique with 0; lia.
  - reflexivity.
Qed.

Lemma iter_pos_nat {A} (f : A -> A) p x :
  SpecFloat.iter_pos f p x = Nat.iter (Pos.to_nat p) f x.
Proof.
  revert x. induction p as [p IH|p IH|]; intros x; cbn [SpecFloat.iter_pos].
  - rewrite !IH, Pos2Nat.inj_xI.
    replace (S (2 * Pos.to_nat p)) with (Pos.to_nat p + (Pos.to_nat p + 1))%nat by lia.
    rewrite !Nat.iter_add. done.
  - rewrite !IH, Pos2Nat.inj_xO.
    replace (2 * Pos.to_nat p)%nat with (Pos.to_nat p + Pos.to_nat p)%nat by lia.
    rewrite Nat.iter_add. done.
  - done.
Qed.

(** After [n] shifts the mantissa has lost its [n] low bits; the round
    bit is the last bit that left, the sticky bit tells whether anything
    else has. *)
Lemma shr_iter m (n : nat) :
  0 <= m ->
  Nat.iter (S n) shr_1 (Build_shr_record m false false)
  = Build_shr_record (m / 2 ^ Z.of_nat (S n))
      (Z.testbit m (Z.of_nat n))
      (negb (m mod 2 ^ Z.of_nat n =? 0)).
Proof.
  intros Hm. induction n as [|n IH].
  - cbn [Nat.iter]. rewrite shr_1_nonneg by done.
    change (Z.of_nat 0) with 0. change (Z.of_nat 1) with 1.
    rewrite Z.pow_1_r, Z.pow_0_r, Z.mod_1_r, Z.bit0_odd. done.
  - rewrite Nat.iter_succ, IH.
    rewrite shr_1_nonneg by (apply Z.div_pos; lia).
    f_equal.
    + rewrite Z.div_div by lia. f_equal.
      rewrite (Nat2Z.inj_succ (S n)), Z.pow_succ_r by lia. lia.
    + rewrite Z.testbit_odd, Z.shiftr_div_pow2 by lia. done.
    + rewrite (Nat2Z.inj_succ n).
      rewrite Z.pow_succ_r by lia.
      pose proof (Z.testbit_spec' m (Z.of_nat n) ltac:(lia)) as Hbit.
      assert (Hsplit : m mod (2 * 2 ^ Z.of_nat n)
                = 2 ^ Z.of_nat n * ((m / 2 ^ Z.of_nat n) mod 2) + m mod 2 ^ Z.of_nat n).
      { rewrite Z.mul_comm. rewrite Z.rem_mul_r by lia. lia. }
      rewrite Hsplit, <- Hbit.
      pose proof (Z.mod_pos_bound m (2 ^ Z.of_nat n) ltac:(lia)).
      destruct (Z.testbit m (Z.of_nat n)); cbn [Z.b2z orb].
      * symmetry. apply negb_true_iff, Z.eqb_neq. lia.
      * rewrite Z.mul_0_r, Z.add_0_l. done.
Qed.

Lemma shr_iter_m rec (n : nat) :
  0 <= shr_m rec ->
  shr_m (Nat.iter n shr_1 rec) = shr_m rec / 2 ^ Z.of_nat n.
Proof.
  intros Hm. induction n as [|n IH].
  - cbn. by rewrite Z.div_1_r.
  - rewrite Nat.iter_succ.
    destruct (Nat.iter n shr_1 rec) as [m' r' s'] eqn:E. cbn [shr_m] in IH.
    rewrite shr_1_nonneg by (rewrite IH; apply Z.div_pos; lia).
    cbn [shr_m]. rewrite IH, Z.div_div by lia. f_equal.
    rewrite Nat2Z.inj_succ, Z.pow_succ_r by lia. lia.
Qed.

(** ** Rounding a mantissa of at least 53 bits to a normal number *)

Lemma round_nearest_even_range m l :
  round_nearest_even m l = m \/ round_nearest_even m l = m + 1.
Proof.
  destruct l as [|[]]; cbn; auto. destruct (Z.even m); auto.
Qed.

Lemma shr_record_of_loc_m m l : shr_m (shr_record_of_loc m l) = m.
Proof. by destruct l as [|[]]. Qed.

Lemma loc_of_shr_record_of_loc m l :
  loc_of_shr_record (shr_record_of_loc m l) = l.
Proof. by destruct l as [|[]]. Qed.

Lemma shr_fexp_normal m e l k :
  0 <= k -> 2 ^ (52 + k) <= m < 2 ^ (53 + k) -> -1074 <= e + k ->
  shr_fexp prec emax m e l
  = (Nat.iter (Z.to_nat k) shr_1 (shr_record_of_loc m l), e + k).
Proof.
  intros Hk Hm He. unfold shr_fexp.
  assert (0 < 2 ^ (52 + k)) by (apply Z.pow_pos_nonneg; lia).
  rewrite (Zdigits2_unique m (53 + k)) by (replace (53 + k - 1) with (52 + k) by lia; lia).
  rewrite fexp_normal by lia.
  replace (53 + k + e - 53 - e) with k by lia.
  unfold shr. destruct k as [|p|p]; try lia.
  - cbn. by rewrite Z.add_0_r.
  - by rewrite iter_pos_nat.
Qed.

Lemma binary_round_aux_normal m e l k :
  0 <= k -> 2 ^ (52 + k) <= m < 2 ^ (53 + k) -> -1074 <= e + k -> e + k < 971 ->
  exists R,
    R = (let mrs := Nat.iter (Z.to_nat k) shr_1 (shr_record_of_loc m l) in
         round_nearest_even (shr_m mrs) (loc_of_shr_record mrs)) /\
    (R = m / 2 ^ k \/ R = m / 2 ^ k + 1) /\
    2 ^ 52 <= R <= 2 ^ 53 /\
    binary_round_aux prec emax false m e l = normalise R (e + k).
Proof.
  intros Hk Hm He He'. eexists. split; [reflexivity|].
  set (mrs := Nat.iter (Z.to_nat k) shr_1 (shr_record_of_loc m l)).
  cbn zeta. set (R := round_nearest_even (shr_m mrs) (loc_of_shr_record mrs)).
  assert (0 < 2 ^ (52 + k)) by (apply Z.pow_pos_nonneg; lia).
  assert (Hq : shr_m mrs = m / 2 ^ k).
  { unfold mrs. rewrite shr_iter_m; rewrite shr_record_of_loc_m; [|lia].
    by rewrite Z2Nat.id. }
  assert (Hqr : 2 ^ 52 <= m / 2 ^ k < 2 ^ 53).
  { assert (0 < 2 ^ k) by (apply Z.pow_pos_nonneg; lia).
    rewrite !Z.pow_add_r in Hm by lia. split.
    - apply Z.div_le_lower_bound; lia.
    - apply Z.div_lt_upper_bound; lia. }
  assert (HR : R = m / 2 ^ k \/ R = m / 2 ^ k + 1).
  { unfold R. rewrite Hq. apply round_nearest_even_range. }
  split; [done|]. split; [lia|].
  unfold binary_round_aux, normalise.
  rewrite (shr_fexp_normal m e l k) by done. fold mrs. fold R.
  destruct (Z.eqb_spec R (2 ^ 53)) as [E|NE].
  - rewrite E. rewrite (shr_fexp_normal (2 ^ 53) (e + k) loc_Exact 1); [|lia| |lia].
    2:{ split; [apply Z.pow_le_mono_r; lia | apply Z.pow_lt_mono_r; lia]. }
    change (Nat.iter (Z.to_nat 1) shr_1 (shr_record_of_loc (2 ^ 53) loc_Exact))
      with (Build_shr_record (Z.pos (2 ^ 52)) false false).
    cbv beta iota. cbn [shr_m].
    replace (e + k + 1 <=? emax - prec) with true; [done|].
    symmetry. apply Z.leb_le. unfold emax, prec. lia.
  - rewrite (shr_fexp_normal R (e + k) loc_Exact 0); [|lia| |lia].
    2:{ rewrite Z.add_0_r. lia. }
    change (Nat.iter (Z.to_nat 0) shr_1 (shr_record_of_loc R loc_Exact))
      with (Build_shr_record R false false).
    cbv beta iota. cbn [shr_m]. rewrite Z.add_0_r.
    destruct R as [|p|p]; try lia.
    replace (e + k <=? emax - prec) with true; [done|].
    symmetry. apply Z.leb_le. unfold emax, prec. lia.
Qed.

(** ** Integers as floats *)

Lemma iter_xO p n : Z.pos (Pos.iter xO p n) = Z.pos p * 2 ^ Z.pos n.
Proof.
  induction n as [|n IH] using Pos.peano_ind.
  - cbn. lia.
  - rewrite Pos.iter_succ, Pos2Z.inj_xO, IH, Pos2Z.inj_succ, Z.pow_succ_r by lia. lia.
Qed.

(** An integer of at most 53 bits is a float: [ldexp] only aligns it. *)
Lemma ldexp_exact m e d :
  2 ^ (d - 1) <= m < 2 ^ d -> 0 < m -> d <= 53 ->
  -1021 <= d + e -> d + e - 53 < 971 ->
  ldexp m e = S754_finite false (Z.to_pos (m * 2 ^ (53 - d))) (d + e - 53).
Proof.
  intros Hm Hpos Hd Hlo Hhi. unfold ldexp, binary_normalize.
  destruct m as [|p|p]; try lia. unfold binary_round.
  assert (0 < d) by (pose proof (digits2_pos_unique p d Hm); lia).
  rewrite (digits2_pos_unique p d Hm), fexp_normal by lia.
  assert (Hal : exists mz, shl_align p e (d + e - 53) = (mz, d + e - 53) /\
                           Z.pos mz = Z.pos p * 2 ^ (53 - d)).
  { unfold shl_align. destruct (d + e - 53 - e) as [|q|q] eqn:E; try lia.
    - exists p. replace (d + e - 53) with e by lia. split; [done|].
      replace (53 - d) with 0 by lia. lia.
    - eexists. split; [reflexivity|]. rewrite iter_xO. do 2 f_equal. lia. }
  destruct Hal as (mz & -> & Hmz).
  assert (Hmz' : 2 ^ 52 <= Z.pos mz < 2 ^ 53).
  { rewrite Hmz.
    replace (2 ^ 52) with (2 ^ (d - 1) * 2 ^ (53 - d))
      by (rewrite <- Z.pow_add_r by lia; f_equal; lia).
    replace (2 ^ 53) with (2 ^ d * 2 ^ (53 - d))
      by (rewrite <- Z.pow_add_r by lia; f_equal; lia).
    assert (0 < 2 ^ (53 - d)) by (apply Z.pow_pos_nonneg; lia).
    split; [apply Z.mul_le_mono_nonneg_r | apply Z.mul_lt_mono_pos_r]; lia. }
  destruct (binary_round_aux_normal (Z.pos mz) (d + e - 53) loc_Exact 0)
    as (R & HR & _ & _ & ->); [lia|done|lia|lia|].
  change (R = Z.pos mz) in HR. subst R. rewrite Z.add_0_r. unfold normalise.
  destruct (Z.eqb_spec (Z.pos mz) (2 ^ 53)) as [E|_]; [lia|].
  by rewrite <- Hmz.
Qed.

Lemma rne_shr n k :
  0 <= n -> 0 < k ->
  (let mrs := Nat.iter (Z.to_nat k) shr_1 (shr_record_of_loc n loc_Exact) in
   round_nearest_even (shr_m mrs) (loc_of_shr_record mrs)) = rne n k.
Proof.
  intros Hn Hk. cbn zeta.
  replace (Z.to_nat k) with (S (Z.to_nat (k - 1))) by lia.
  cbn [shr_record_of_loc]. rewrite shr_iter by done.
  replace (Z.of_nat (S (Z.to_nat (k - 1)))) with k by lia.
  rewrite Z2Nat.id by lia.
  unfold rne. cbn zeta.
  assert (Hp : 0 < 2 ^ (k - 1)) by (apply Z.pow_pos_nonneg; lia).
  assert (Hk2 : 2 ^ k = 2 * 2 ^ (k - 1)).
  { rewrite <- Z.pow_succ_r by lia. f_equal. lia. }
  pose proof (Z.testbit_spec' n (k - 1) ltac:(lia)) as Hbit.
  assert (Hsplit : n mod 2 ^ k
            = 2 ^ (k - 1) * ((n / 2 ^ (k - 1)) mod 2) + n mod 2 ^ (k - 1)).
  { rewrite Hk2, Z.mul_comm. rewrite Z.rem_mul_r by lia. lia. }
  rewrite <- Hbit in Hsplit.
  pose proof (Z.mod_pos_bound n (2 ^ (k - 1)) Hp) as Hr.
  rewrite Hsplit, Hk2.
  destruct (Z.testbit n (k - 1)); cbn [Z.b2z];
    destruct (Z.eqb_spec (n mod 2 ^ (k - 1)) 0) as [E0|N0]; cbn [negb loc_of_shr_record shr_m round_nearest_even].
  - rewrite E0. replace (2 * (2 ^ (k - 1) * 1 + 0)) with (2 * 2 ^ (k - 1)) by lia.
    rewrite !Z.ltb_irrefl. done.
  - replace (2 * (2 ^ (k - 1) * 1 + n mod 2 ^ (k - 1)) <? 2 * 2 ^ (k - 1)) with false
      by (symmetry; apply Z.ltb_ge; lia).
    replace (2 * 2 ^ (k - 1) <? 2 * (2 ^ (k - 1) * 1 + n mod 2 ^ (k - 1))) with true
      by (symmetry; apply Z.ltb_lt; lia).
    done.
  - replace (2 * (2 ^ (k - 1) * 0 + n mod 2 ^ (k - 1)) <? 2 * 2 ^ (k - 1)) with true
      by (symmetry; apply Z.ltb_lt; lia).
    done.
  - replace (2 * (2 ^ (k - 1) * 0 + n mod 2 ^ (k - 1)) <? 2 * 2 ^ (k - 1)) with true
      by (symmetry; apply Z.ltb_lt; lia).
    done.
Qed.

Lemma rne_mono n1 n2 k : 0 <= k -> 0 <= n1 <= n2 -> rne n1 k <= rne n2 k.
Proof.
  intros Hk Hn. unfold rne. cbn zeta.
  assert (Hp : 0 < 2 ^ k) by (apply Z.pow_pos_nonneg; lia).
  pose proof (Z.div_mod n1 (2 ^ k) ltac:(lia)) as D1.
  pose proof (Z.div_mod n2 (2 ^ k) ltac:(lia)) as D2.
  pose proof (Z.mod_pos_bound n1 (2 ^ k) Hp) as R1.
  pose proof (Z.mod_pos_bound n2 (2 ^ k) Hp) as R2.
  pose proof (Z.div_le_mono n1 n2 (2 ^ k) Hp ltac:(lia)) as Q.
  set (q1 := n1 / 2 ^ k) in *. set (q2 := n2 / 2 ^ k) in *.
  set (r1 := n1 mod 2 ^ k) in *. set (r2 := n2 mod 2 ^ k) in *.
  set (P := 2 ^ k) in *.
  destruct (Z.eq_dec q1 q2) as [E|NE].
  - rewrite <- E in *. assert (r1 <= r2) by nia.
    destruct (Z.ltb_spec (2 * r1) P), (Z.ltb_spec (2 * r2) P),
      (Z.ltb_spec P (2 * r1)), (Z.ltb_spec P (2 * r2)), (Z.even q1); lia.
  - assert (q1 + 1 <= q2) by lia.
    destruct (Z.ltb_spec (2 * r1) P), (Z.ltb_spec (2 * r2) P),
      (Z.ltb_spec P (2 * r1)), (Z.ltb_spec P (2 * r2)), (Z.even q1), (Z.even q2); lia.
Qed.

Lemma rne_range n k : 0 <= k -> rne n k = n / 2 ^ k \/ rne n k = n / 2 ^ k + 1.
Proof.
  intros Hk. unfold rne. cbn zeta.
  destruct (_ <? _); [auto|]. destruct (_ <? _); [auto|]. destruct (Z.even _); auto.
Qed.

Lemma int_mantissa_range n d :
  2 ^ (d - 1) <= n < 2 ^ d -> 0 < d ->
  2 ^ 52 <= int_mantissa n d <= 2 ^ 53.
Proof.
  intros Hn Hd. unfold int_mantissa.
  destruct (Z.leb_spec d 53) as [Hle|Hgt].
  - replace (2 ^ 52) with (2 ^ (d - 1) * 2 ^ (53 - d))
      by (rewrite <- Z.pow_add_r by lia; f_equal; lia).
    replace (2 ^ 53) with (2 ^ d * 2 ^ (53 - d))
      by (rewrite <- Z.pow_add_r by lia; f_equal; lia).
    assert (0 < 2 ^ (53 - d)) by (apply Z.pow_pos_nonneg; lia).
    split; [apply Z.mul_le_mono_nonneg_r | apply Z.mul_le_mono_nonneg_r]; lia.
  - assert (0 < 2 ^ (d - 53)) by (apply Z.pow_pos_nonneg; lia).
    assert (2 ^ 52 <= n / 2 ^ (d - 53) < 2 ^ 53).
    { split.
      - apply Z.div_le_lower_bound; [lia|].
        rewrite <- Z.pow_add_r by lia. replace (d - 53 + 52) with (d - 1) by lia. lia.
      - apply Z.div_lt_upper_bound; [lia|].
        rewrite <- Z.pow_add_r by lia. replace (d - 53 + 53) with d by lia. lia. }
    destruct (rne_range n (d - 53)); lia.
Qed.

Lemma float64_of_int_pos n d :
  2 ^ (d - 1) <= n < 2 ^ d -> 0 < n -> d <= 1000 ->
  float64_of_int n = normalise (int_mantissa n d) (d - 53).
Proof.
  intros Hn Hpos Hd.
  assert (0 < d).
  { destruct (Z_lt_le_dec 0 d); [done|].
    assert (2 ^ d <= 2 ^ 0) by (apply Z.pow_le_mono_r; lia). cbn in *. lia. }
  pose proof (int_mantissa_range n d Hn ltac:(lia)) as HM.
  unfold float64_of_int, normalise, int_mantissa in *.
  destruct (Z.leb_spec d 53) as [Hle|Hgt].
  - rewrite (ldexp_exact n 0 d) by lia.
    destruct (Z.eqb_spec (n * 2 ^ (53 - d)) (2 ^ 53)) as [E|NE].
    + exfalso.
      assert (0 < 2 ^ (53 - d)) by (apply Z.pow_pos_nonneg; lia).
      assert (n * 2 ^ (53 - d) < 2 ^ d * 2 ^ (53 - d)) by nia.
      rewrite <- Z.pow_add_r in * by lia.
      replace (d + (53 - d)) with 53 in * by lia. lia.
    + f_equal. lia.
  - unfold ldexp, binary_normalize. destruct n as [|p|p]; try lia.
    unfold binary_round.
    rewrite (digits2_pos_unique p d Hn).
    assert (fexp prec emax (d + 0) = d - 53) as -> by (rewrite fexp_normal; lia).
    unfold shl_align. destruct (d - 53 - 0) as [|q|q] eqn:E; try lia.
    destruct (binary_round_aux_normal (Z.pos p) 0 loc_Exact (d - 53))
      as (R & HR & _ & _ & ->); [lia| |lia|lia|].
    { replace (52 + (d - 53)) with (d - 1) by lia.
      replace (53 + (d - 53)) with d by lia. done. }
    rewrite rne_shr in HR by lia. subst R.
    replace (0 + (d - 53)) with (d - 53) by lia. done.
Qed.

(** ** Order *)

Lemma fle_finite m1 e1 m2 e2 :
  fle (S754_finite false m1 e1) (S754_finite false m2 e2) = true
  <-> e1 < e2 \/ (e1 = e2 /\ (m1 <= m2)%positive).
Proof.
  unfold fle, SFleb, SFcompare.
  destruct (Z.compare_spec e1 e2) as [->|Hlt|Hgt].
  - change (Pos.compare_cont Eq m1 m2) with (Pos.compare m1 m2).
    destruct (Pos.compare_spec m1 m2); split; intros; try done; try lia.
  - split; [lia|done].
  - split; [done|lia].
Qed.

Lemma to_pos_le a b : 0 < a <= b -> (Z.to_pos a <= Z.to_pos b)%positive.
Proof. intros H. destruct a, b; try lia. Qed.

Lemma normalise_le M1 E1 M2 E2 :
  2 ^ 52 <= M1 <= 2 ^ 53 -> 2 ^ 52 <= M2 <= 2 ^ 53 ->
  E1 < E2 \/ (E1 = E2 /\ M1 <= M2) ->
  fle (normalise M1 E1) (normalise M2 E2) = true.
Proof.
  intros H1 H2 Hle. unfold normalise.
  destruct (Z.eqb_spec M1 (2 ^ 53)), (Z.eqb_spec M2 (2 ^ 53));
    apply fle_finite.
  - destruct Hle as [|[-> _]]; [left; lia|right]. split; [done|]. reflexivity.
  - destruct Hle as [Hlt|[-> ?]]; [|lia].
    destruct (Z.eq_dec (E1 + 1) E2) as [<-|]; [right|left; lia].
    split; [done|]. change (2 ^ 52)%positive with (Z.to_pos (2 ^ 52)).
    apply to_pos_le; lia.
  - left. lia.
  - destruct Hle as [|[-> ?]]; [left; lia|right]. split; [done|].
    apply to_pos_le; lia.
Qed.

Lemma digits_mono n1 n2 d1 d2 :
  2 ^ (d1 - 1) <= n1 < 2 ^ d1 -> 2 ^ (d2 - 1) <= n2 < 2 ^ d2 ->
  0 < n1 <= n2 -> d1 <= d2.
Proof.
  intros H1 H2 Hn.
  destruct (Z_lt_le_dec d2 d1) as [Hlt|]; [|done]. exfalso.
  assert (0 <= d2).
  { destruct (Z_lt_le_dec d2 0); [|done].
    rewrite (Z.pow_neg_r 2 d2) in H2 by lia. lia. }
  assert (2 ^ d2 <= 2 ^ (d1 - 1)) by (apply Z.pow_le_mono_r; lia). lia.
Qed.

Lemma digits_exist n : 0 < n -> exists d, 0 < d /\ 2 ^ (d - 1) <= n < 2 ^ d.
Proof.
  intros Hn. destruct n as [|p|p]; try lia.
  exists (Z.pos (digits2_pos p)). split; [lia|]. apply digits2_pos_bounds.
Qed.

Lemma float64_of_int_mono n1 n2 :
  0 < n1 <= n2 -> n2 < 2 ^ 1000 ->
  fle (float64_of_int n1) (float64_of_int n2) = true.
Proof.
  intros Hn Hbig.
  destruct (digits_exist n1) as (d1 & Hd1 & B1); [lia|].
  destruct (digits_exist n2) as (d2 & Hd2 & B2); [lia|].
  pose proof (digits_mono _ _ _ _ B1 B2 Hn) as Hd.
  assert (d2 <= 1000).
  { destruct (Z_lt_le_dec 1000 d2); [|done].
    assert (2 ^ 1000 <= 2 ^ (d2 - 1)) by (apply Z.pow_le_mono_r; lia). lia. }
  rewrite (float64_of_int_pos n1 d1), (float64_of_int_pos n2 d2) by lia.
  pose proof (int_mantissa_range n1 d1 B1 Hd1).
  pose proof (int_mantissa_range n2 d2 B2 Hd2).
  apply normalise_le; [done|done|].
  destruct (Z.eq_dec d1 d2) as [->|]; [right; split; [done|]|left; lia].
  unfold int_mantissa. destruct (Z.leb_spec d2 53).
  - assert (0 < 2 ^ (53 - d2)) by (apply Z.pow_pos_nonneg; lia). nia.
  - apply rne_mono; lia.
Qed.

(** ** Division *)

Lemma normalise_int_float M E :
  2 ^ 52 <= M <= 2 ^ 53 -> -52 <= E <= 10 -> int_float (normalise M E).
Proof.
  intros HM HE. unfold normalise.
  destruct (Z.eqb_spec M (2 ^ 53)) as [E53|NE].
  - eexists _, _. split; [reflexivity|]. split; [done|lia].
  - destruct M as [|p|p]; try lia.
    eexists _, _. split; [reflexivity|]. cbn [Z.to_pos]. split; lia.
Qed.

Lemma float64_of_int_int_float n :
  0 < n < 2 ^ 63 -> int_float (float64_of_int n).
Proof.
  intros Hn. destruct (digits_exist n) as (d & Hd & B); [lia|].
  assert (d <= 63).
  { destruct (Z_lt_le_dec 63 d); [|lia].
    assert (2 ^ 63 <= 2 ^ (d - 1)) by (apply Z.pow_le_mono_r; lia). lia. }
  rewrite (float64_of_int_pos n d) by lia.
  apply normalise_int_float; [|lia]. by apply int_mantissa_range.
Qed.

Lemma div_eucl_eq a b : Z.div_eucl a b = (a / b, a mod b).
Proof.
  unfold Z.div, Z.modulo. by destruct (Z.div_eucl a b).
Qed.

Lemma SFdiv_core_53 m1 e1 m2 e2 :
  2 ^ 52 <= Z.pos m1 < 2 ^ 53 -> 2 ^ 52 <= Z.pos m2 < 2 ^ 53 ->
  -1021 <= e1 - e2 ->
  SFdiv_core_binary prec emax (Z.pos m1) e1 (Z.pos m2) e2
  = (Z.pos m1 * 2 ^ 53 / Z.pos m2, e1 - e2 - 53,
     new_location (Z.pos m2) ((Z.pos m1 * 2 ^ 53) mod Z.pos m2)).
Proof.
  intros H1 H2 He. unfold SFdiv_core_binary. cbn [Zdigits2].
  rewrite (digits2_pos_unique m1 53), (digits2_pos_unique m2 53) by (cbn; lia).
  rewrite fexp_normal by lia.
  replace (Z.min (53 + e1 - (53 + e2) - 53) (e1 - e2)) with (e1 - e2 - 53) by lia.
  replace (e1 - e2 - (e1 - e2 - 53)) with 53 by lia.
  cbv iota. rewrite Z.shiftl_mul_pow2 by lia. by rewrite div_eucl_eq.
Qed.

Lemma new_location_0 n : new_location n 0 = loc_Exact.
Proof.
  unfold new_location, new_location_even, new_location_odd.
  by destruct (Z.even n).
Qed.

(** A float divided by itself is one. *)
Lemma fdiv_self x : int_float x -> fdiv x x = fone.
Proof.
  intros (m & e & -> & Hm & He). unfold fdiv, SFdiv.
  rewrite SFdiv_core_53 by lia.
  rewrite Z.mul_comm, Z.div_mul, Z.mod_mul, new_location_0 by lia.
  replace (e - e - 53) with (-53) by lia. reflexivity.
Qed.

Lemma fle_fzero_normalise M E : fle fzero (normalise M E) = true.
Proof. unfold normalise. by destruct (_ =? _). Qed.

(** A quotient of such floats, the smaller one above, is in [[0, 1]]. *)
Lemma fdiv_le_one x y :
  int_float x -> int_float y -> fle x y = true ->
  fle fzero (fdiv x y) = true /\ fle (fdiv x y) fone = true.
Proof.
  intros (m1 & e1 & -> & Hm1 & He1) (m2 & e2 & -> & Hm2 & He2) Hle.
  apply fle_finite in Hle.
  destruct (decide (e1 = e2 /\ m1 = m2)) as [[-> ->]|Hne].
  { rewrite fdiv_self by (eexists _, _; eauto). done. }
  unfold fdiv, SFdiv. rewrite SFdiv_core_53 by lia.
  cbv beta iota. cbn [xorb].
  set (q := Z.pos m1 * 2 ^ 53 / Z.pos m2).
  set (l := new_location _ _).
  assert (Hq : 2 ^ 52 <= q < 2 ^ 54).
  { unfold q. split.
    - apply Z.div_le_lower_bound; [lia|]. nia.
    - apply Z.div_lt_upper_bound; [lia|]. nia. }
  change fone with (normalise (2 ^ 52) (-52)).
  destruct (Z_lt_le_dec q (2 ^ 53)) as [Hlt|Hge].
  - destruct (binary_round_aux_normal q (e1 - e2 - 53) l 0)
      as (R & _ & _ & HR & ->); [lia|cbn; lia|lia|lia|].
    split; [apply fle_fzero_normalise|].
    apply normalise_le; [done|lia|]. left. lia.
  - assert (e1 < e2).
    { destruct Hle as [|[-> Hm]]; [done|]. exfalso.
      assert (m1 <> m2) by (intros ->; by apply Hne).
      assert (Z.pos m1 < Z.pos m2) by lia.
      assert (q < 2 ^ 53); [|lia].
      unfold q. apply Z.div_lt_upper_bound; [lia|]. nia. }
    destruct (binary_round_aux_normal q (e1 - e2 - 53) l 1)
      as (R & _ & _ & HR & ->); [lia|cbn; lia|lia|lia|].
    split; [apply fle_fzero_normalise|].
    apply normalise_le; [done|lia|]. left. lia.
Qed.

Lemma fdiv_zero x : int_float x -> fdiv fzero x = fzero.
Proof. by intros (m & e & -> & _). Qed.

(** The ratio of two lengths, the part over the whole. *)
Lemma ratio_range s n :
  0 <= s <= n -> 0 < n < 2 ^ 63 ->
  fle fzero (fdiv (float64_of_int s) (float64_of_int n)) = true /\
  fle (fdiv (float64_of_int s) (float64_of_int n)) fone = true.
Proof.
  intros Hs Hn. pose proof (float64_of_int_int_float n Hn) as Fn.
  destruct (Z.eq_dec s 0) as [->|Hs0].
  - change (float64_of_int 0) with fzero. by rewrite fdiv_zero.
  - apply fdiv_le_one; [apply float64_of_int_int_float; lia|done|].
    apply float64_of_int_mono; [lia|].
    assert (2 ^ 63 <= 2 ^ 1000) by (apply Z.pow_le_mono_r; lia). lia.
Qed.

Lemma ratio_one n :
  0 < n < 2 ^ 63 -> fdiv (float64_of_int n) (float64_of_int n) = fone.
Proof. intros Hn. by apply fdiv_self, float64_of_int_int_float. Qed.

(** ** Square roots *)

(** The arithmetic of the final rounding: [q] is the integer square root
    of [d * P^2], [r] what is left, and the float takes [q + 1] only when
    [r > q]; as long as [P] exceeds the root of [d], the integer part of
    the rounded root is the root of [d]. *)
Lemma sqrt_round_arith d P q r :
  0 <= d -> Z.sqrt d + 1 <= P ->
  d * (P * P) = q * q + r -> 0 <= r <= 2 * q -> 0 <= q ->
  let R := if r =? 0 then q else if r <=? q then q else q + 1 in
  Z.sqrt d * P <= R < (Z.sqrt d + 1) * P.
Proof.
  intros Hd HP Hm Hr Hq. cbn zeta.
  pose proof (Z.sqrt_spec d Hd) as Hk. cbn zeta in Hk.
  pose proof (Z.sqrt_nonneg d) as Hk0.
  set (k := Z.sqrt d) in *.
  assert (Hlo : k * P <= q).
  { destruct (Z_le_gt_dec (k * P) q) as [|Hgt]; [done|]. exfalso.
    assert (q + 1 <= k * P) by lia.
    assert ((q + 1) * (q + 1) <= (k * P) * (k * P)) by (apply Z.mul_le_mono_nonneg; lia).
    assert (k * k * (P * P) <= d * (P * P)) by (apply Z.mul_le_mono_nonneg_r; nia).
    nia. }
  assert (Hhi : q < (k + 1) * P).
  { destruct (Z_lt_le_dec q ((k + 1) * P)) as [|Hge]; [done|]. exfalso.
    assert ((k + 1) * P * ((k + 1) * P) <= q * q) by (apply Z.mul_le_mono_nonneg; nia).
    assert (d + 1 <= (k + 1) * (k + 1)) by lia.
    assert ((d + 1) * (P * P) <= (k + 1) * (k + 1) * (P * P))
      by (apply Z.mul_le_mono_nonneg_r; nia).
    nia. }
  destruct (Z.eqb_spec r 0); [lia|].
  destruct (Z.leb_spec r q); [lia|].
  split; [lia|].
  destruct (Z_lt_le_dec (q + 1) ((k + 1) * P)) as [|Hge]; [done|]. exfalso.
  assert (HK : q + 1 = (k + 1) * P) by lia.
  assert (d + 1 <= (k + 1) * (k + 1)) by lia.
  assert ((d + 1) * (P * P) <= (k + 1) * (k + 1) * (P * P))
    by (apply Z.mul_le_mono_nonneg_r; nia).
  assert ((k + 1) * P <= P * P) by (apply Z.mul_le_mono_nonneg_r; lia).
  nia.
Qed.

Lemma sqrtrem_eq n : 0 <= n ->
  exists q r, Z.sqrtrem n = (q, r) /\ n = q * q + r /\ 0 <= r <= 2 * q /\ q = Z.sqrt n.
Proof.
  intros Hn. pose proof (Z.sqrtrem_spec n Hn) as H.
  pose proof (Z.sqrtrem_sqrt n) as Hs.
  destruct (Z.sqrtrem n) as [q r]. cbn in Hs. exists q, r.
  destruct H as [H1 H2]. repeat split; (done || lia).
Qed.

Lemma sqrt_53_bits m : 2 ^ 104 <= m < 2 ^ 106 -> 2 ^ 52 <= Z.sqrt m < 2 ^ 53.
Proof.
  intros Hm. split.
  - change (2 ^ 52) with (Z.sqrt (2 ^ 52 * 2 ^ 52)).
    apply Z.sqrt_le_mono. change (2 ^ 52 * 2 ^ 52) with (2 ^ 104). lia.
  - apply Z.sqrt_lt_square; [lia|lia|]. change (2 ^ 53 * 2 ^ 53) with (2 ^ 106). lia.
Qed.

(** [int64(math.Sqrt(float64(d)))] is the integer square root of [d]
    for every [d] below [2^52]. *)
Lemma trunc_sqrt d :
  0 <= d < 2 ^ 52 ->
  trunc (math_Sqrt (float64_of_int d)) = Some (Z.sqrt d).
Proof.
  intros Hd. destruct (Z.eq_dec d 0) as [->|Hd0]; [reflexivity|].
  destruct (digits_exist d) as (n & Hn & B); [lia|].
  assert (Hn52 : n <= 52).
  { destruct (Z_lt_le_dec 52 n); [|lia].
    assert (2 ^ 52 <= 2 ^ (n - 1)) by (apply Z.pow_le_mono_r; lia). lia. }
  unfold float64_of_int. rewrite (ldexp_exact d 0 n) by lia.
  set (m := d * 2 ^ (53 - n)).
  assert (Hm : 2 ^ 52 <= m < 2 ^ 53).
  { pose proof (int_mantissa_range d n B Hn) as HM. unfold int_mantissa in HM.
    rewrite (proj2 (Z.leb_le n 53)) in HM by lia. fold m in HM.
    destruct (Z.eq_dec m (2 ^ 53)) as [E|]; [|lia]. exfalso.
    assert (0 < 2 ^ (53 - n)) by (apply Z.pow_pos_nonneg; lia).
    assert (m < 2 ^ n * 2 ^ (53 - n)) by (unfold m; nia).
    rewrite <- Z.pow_add_r in * by lia.
    replace (n + (53 - n)) with 53 in * by lia. lia. }
  destruct m as [|pm|pm] eqn:Em; try lia. cbn [Z.to_pos].
  replace (n + 0 - 53) with (n - 53) by lia.
  unfold math_Sqrt, SFsqrt, SFsqrt_core_binary. cbn [Zdigits2].
  rewrite (digits2_pos_unique pm 53) by (cbn; lia).
  rewrite !Z.div2_div.
  set (h := (53 + (n - 53) + 1) / 2).
  assert (Hh : 2 * h <= n + 1 < 2 * h + 2).
  { unfold h. replace (53 + (n - 53) + 1) with (n + 1) by lia.
    pose proof (Z.div_mod (n + 1) 2 ltac:(lia)).
    pose proof (Z.mod_pos_bound (n + 1) 2 ltac:(lia)). lia. }
  rewrite fexp_normal by lia.
  assert (Hdiv : -26 <= (n - 53) / 2).
  { apply Z.div_le_lower_bound; lia. }
  replace (Z.min (h - 53) ((n - 53) / 2)) with (h - 53) by lia.
  set (s := n - 53 - 2 * (h - 53)).
  assert (Hs : s = 52 \/ s = 53) by lia.
  set (P := 2 ^ (53 - h)).
  assert (HP : 0 < P) by (apply Z.pow_pos_nonneg; lia).
  assert (Hm' : Z.shiftl (Z.pos pm) s = d * (P * P)).
  { rewrite Z.shiftl_mul_pow2 by lia. rewrite <- Em. unfold m, P.
    rewrite <- Z.pow_add_r by lia. rewrite <- Z.mul_assoc, <- Z.pow_add_r by lia.
    do 2 f_equal. lia. }
  assert (Hm'r : 2 ^ 104 <= Z.shiftl (Z.pos pm) s < 2 ^ 106).
  { rewrite Z.shiftl_mul_pow2 by lia.
    destruct Hs as [-> | ->].
    - change (2 ^ 104) with (2 ^ 52 * 2 ^ 52). change (2 ^ 106) with (2 ^ 54 * 2 ^ 52). nia.
    - change (2 ^ 104) with (2 ^ 51 * 2 ^ 53). change (2 ^ 106) with (2 ^ 53 * 2 ^ 53). nia. }
  assert (Hmatch : match s with
                   | 0 => Z.pos pm
                   | Z.pos _ => Z.shiftl (Z.pos pm) s
                   | Z.neg _ => 0
                   end = Z.shiftl (Z.pos pm) s).
  { destruct Hs as [-> | ->]; reflexivity. }
  rewrite Hmatch. clear Hmatch.
  destruct (sqrtrem_eq (Z.shiftl (Z.pos pm) s)) as (q & r & -> & Hqr & Hr & Hq); [lia|].
  pose proof (sqrt_53_bits _ Hm'r) as Hq53. rewrite <- Hq in Hq53.
  set (l := if r =? 0 then loc_Exact else loc_Inexact (if r <=? q then Lt else Gt)).
  destruct (binary_round_aux_normal q (h - 53) l 0)
    as (R & HR & _ & HRb & ->); [lia|cbn; lia|lia|lia|].
  change (R = round_nearest_even (shr_m (shr_record_of_loc q l))
                (loc_of_shr_record (shr_record_of_loc q l))) in HR.
  rewrite shr_record_of_loc_m, loc_of_shr_record_of_loc in HR.
  (* the root of [d] is below [P] *)
  assert (Hk : Z.sqrt d + 1 <= 2 ^ h).
  { assert (Z.sqrt d < 2 ^ h); [|lia].
    apply Z.sqrt_lt_square; [lia|apply Z.pow_nonneg; lia|].
    rewrite <- Z.pow_add_r by lia.
    assert (2 ^ n <= 2 ^ (h + h)) by (apply Z.pow_le_mono_r; lia). lia. }
  assert (HhP : 2 ^ h <= P) by (apply Z.pow_le_mono_r; lia).
  pose proof (sqrt_round_arith d P q r ltac:(lia) ltac:(lia)
                ltac:(rewrite <- Hm'; exact Hqr) Hr ltac:(lia)) as Hround.
  cbn zeta in Hround.
  assert (HRR : R = if r =? 0 then q else if r <=? q then q else q + 1).
  { rewrite HR. unfold l.
    destruct (r =? 0); [done|]. by destruct (r <=? q). }
  rewrite <- HRR in Hround.
  assert (HR53 : R < 2 ^ 53).
  { assert ((Z.sqrt d + 1) * P <= 2 ^ h * P) by (apply Z.mul_le_mono_nonneg_r; lia).
    assert (2 ^ h * P = 2 ^ 53).
    { unfold P. rewrite <- Z.pow_add_r by lia. f_equal. lia. }
    lia. }
  unfold normalise. rewrite (proj2 (Z.eqb_neq R (2 ^ 53))) by lia.
  rewrite Z.add_0_r. unfold trunc. cbn [cond_Zopp].
  assert (0 < R) by lia. rewrite Z2Pos.id by lia.
  replace (h - 53) with (- (53 - h)) by lia.
  rewrite Z.shiftl_div_pow2 by lia. rewrite ?Z.opp_involutive. fold P.
  f_equal. symmetry. apply Z.div_unique with (R - Z.sqrt d * P); lia.
Qed.

End FloatFacts.

Module FloatSigns.
Import Notions FloatFacts.

(** ** Comparisons with zero *)

(** Nothing at or above zero is below a zero rate. *)
Lemma flt_zero_rate r rate :
  fle fzero r = true -> feq rate fzero = true -> flt r rate = false.
Proof.
  intros Hr Hrate.
  destruct rate as [s|[]| |[] m e]; try done.
  by destruct r as [[]|[]| |[] m e].
Qed.

(** ** Signs *)

Lemma binary_round_aux_sign m e l :
  sign_plus (binary_round_aux prec emax false m e l).
Proof.
  unfold binary_round_aux.
  destruct (shr_fexp prec emax m e l) as [mrs' e'].
  destruct (shr_fexp prec emax _ e' loc_Exact) as [mrs'' e''].
  destruct (shr_m mrs''); [done| |done].
  by destruct (_ <=? _).
Qed.

Lemma float64_of_int_sign z : 0 <= z -> sign_plus (float64_of_int z).
Proof.
  intros Hz. destruct z as [|p|p]; [done| |lia].
  unfold float64_of_int, ldexp, binary_normalize, binary_round.
  destruct (shl_align _ _ _). apply binary_round_aux_sign.
Qed.

Lemma fdiv_sign x y : sign_plus x -> sign_plus y -> sign_plus (fdiv x y).
Proof.
  destruct x as [sx|sx| |sx mx ex], y as [sy|sy| |sy my ey]; cbn;
    try done; try (by intros -> ->).
  intros -> ->. cbn [xorb].
  destruct (SFdiv_core_binary _ _ _ _ _ _) as [[mz ez] lz].
  apply binary_round_aux_sign.
Qed.

Lemma fmul_sign x y : sign_plus x -> sign_plus y -> sign_plus (fmul x y).
Proof.
  destruct x as [sx|sx| |sx mx ex], y as [sy|sy| |sy my ey]; cbn;
    try done; try (by intros -> ->).
  intros -> ->. cbn [xorb]. apply binary_round_aux_sign.
Qed.

Lemma flt_fzero_sign x : flt fzero x = true -> sign_plus x.
Proof. by destruct x as [[]|[]| |[] m e]. Qed.

(** On such floats the integer part is the floor. *)
Lemma floor_trunc x : sign_plus x -> floor x = trunc x.
Proof. destruct x as [s|s| |s m e]; try done. by intros ->. Qed.

Lemma floor_nonneg x z : sign_plus x -> floor x = Some z -> 0 <= z.
Proof.
  destruct x as [s|s| |s m e]; try done; cbn.
  - intros _ [= <-]. done.
  - intros -> [= <-]. apply Z.shiftl_nonneg. lia.
Qed.

(** ** Conversion to integers *)

Lemma int_of_float64_trunc `{Platform} x z :
  trunc x = Some z -> - 2 ^ 63 <= z < 2 ^ 63 -> int_of_float64 x = z.
Proof.
  intros Hx Hz. unfold int_of_float64. rewrite Hx.
  by rewrite bool_decide_true.
Qed.

(** ** The generator's floats *)

Lemma ldexp_unit_interval x :
  0 <= x < 2 ^ 53 ->
  fle fzero (ldexp x (-53)) = true /\ flt (ldexp x (-53)) fone = true.
Proof.
  intros Hx. destruct (Z.eq_dec x 0) as [->|Hx0]; [done|].
  destruct (digits_exist x) as (d & Hd & B); [lia|].
  assert (d <= 53).
  { destruct (Z_lt_le_dec 53 d); [|lia].
    assert (2 ^ 53 <= 2 ^ (d - 1)) by (apply Z.pow_le_mono_r; lia). lia. }
  rewrite (ldexp_exact x (-53) d) by lia. split; [done|].
  unfold flt, SFltb, fone, SFcompare.
  destruct (Z.compare_spec (d + -53 - 53) (-52)); (done || lia).
Qed.

Lemma lcg_contract : rand_contract lcg.
Proof.
  split.
  - intros n g Hn. cbn. rewrite bool_decide_true by done.
    eexists _, _. split; [done|]. apply Z.mod_pos_bound. done.
  - intros n g Hn. cbn. by rewrite bool_decide_false by lia.
  - intros g. cbn [lcg rand_Float64 fst].
    apply ldexp_unit_interval, Z.mod_pos_bound. done.
Qed.

End FloatSigns.

(* ================================================================== *)
(** * The top-of-the-population pools *)
(* ================================================================== *)

Module PoolFacts.
Import Notions TopPool GoFacts.

Lemma top_slice {A} (population : list A) PoolSize :
  0 <= PoolSize < len population -> len population < 2 ^ 63 ->
  slice population 0 (int (PoolSize + 1))
  = Some (take (Z.to_nat (PoolSize + 1)) population).
Proof.
  intros HP Hlen. unfold int. rewrite int64_id by lia.
  apply slice_prefix. lia.
Qed.

Lemma top_slice_panics {A} (population : list A) PoolSize :
  is_int PoolSize -> len population < PoolSize + 1 ->
  slice population 0 (int (PoolSize + 1)) = None.
Proof.
  intros HP Hlen. apply slice_out_of_range.
  pose proof (len_nonneg population).
  destruct (Z.eq_dec PoolSize (2 ^ 63 - 1)) as [->|Hne].
  - left. vm_compute. done.
  - right. left. unfold int. rewrite int64_id; unfold is_int in HP; lia.
Qed.

(** The loop that fills the pool, for either way of counting copies:
    organism [i] of the top enters [num top[PoolSize] top[i]] times. *)
Lemma pool_loop {A} (top : list A) (num : A -> A -> Z) PoolSize tp :
  0 <= PoolSize < len top ->
  index top PoolSize = Some tp ->
  for_range 0 PoolSize (fun i pool =>
    tp ← index top PoolSize;
    ti ← index top i;
    for_range 0 (num tp ti) (fun _ pool =>
      ti ← index top i; Some (pool ++ [ti])) pool) []
  = Some (flat_map (fun ti => replicate (Z.to_nat (num tp ti)) ti)
            (take (Z.to_nat PoolSize) top)).
Proof.
  intros HP Htp.
  edestruct (for_range_inv
    (fun j pool => pool = flat_map (fun ti => replicate (Z.to_nat (num tp ti)) ti)
                            (take (Z.to_nat j) top))) as (pool & E & ->);
    [| |  | exact E]; [lia|done|].
  intros j pool Hj ->. rewrite Htp. cbn.
  destruct (index_is_Some top j) as [ti Hti]; [lia|].
  rewrite Hti. cbn. unfold for_range. rewrite for_steps_append.
  eexists. split; [done|].
  apply index_Some in Hti as [_ Hti].
  replace (Z.to_nat (j + 1)) with (S (Z.to_nat j)) by lia.
  erewrite take_S_r by exact Hti.
  rewrite flat_map_app. cbn. by rewrite app_nil_r, Z.sub_0_r.
Qed.

Section Monalisa.
Import Monalisa.

Lemma createPool_population PoolSize population target :
  (createPool PoolSize population target).1 = SliceStable less population.
Proof. reflexivity. Qed.

Lemma createPool_panics PoolSize population target :
  is_int PoolSize -> len population < PoolSize + 1 ->
  (createPool PoolSize population target).2 = None.
Proof.
  intros HP Hlen. unfold createPool. cbn [snd].
  rewrite top_slice_panics; [done|done|].
  unfold len. rewrite (SliceStable_length Fitness). exact Hlen.
Qed.

(** The pool in closed form. *)
Lemma createPool_pool PoolSize population target :
  0 <= PoolSize < len population -> len population < 2 ^ 63 ->
  exists tp,
    index (SliceStable less population) PoolSize = Some tp /\
    (createPool PoolSize population target).2
    = Some (flat_map (fun ti => replicate (Z.to_nat (weight tp ti)) ti)
              (take (Z.to_nat PoolSize) (SliceStable less population))).
Proof.
  intros HP Hlen. unfold createPool. cbn [snd].
  change (fun a b : Organism => Fitness a <? Fitness b) with less.
  set (sorted := SliceStable less population).
  assert (Hs : len sorted = len population).
  { unfold len, sorted. by rewrite (SliceStable_length Fitness). }
  rewrite top_slice by lia. cbn.
  set (top := take _ sorted).
  assert (Htop : len top = PoolSize + 1) by (apply len_take; lia).
  rewrite Htop. unfold int. rewrite int64_id by lia.
  replace (PoolSize + 1 - 1) with PoolSize by lia.
  destruct (index_is_Some top PoolSize) as [tp Htp]; [lia|].
  exists tp. split.
  { unfold top in Htp. rewrite index_take in Htp by lia. exact Htp. }
  etransitivity; [exact (pool_loop top weight PoolSize tp ltac:(lia) Htp)|].
  unfold top. rewrite take_take. do 3 f_equal. lia.
Qed.
End Monalisa.

Section Triangles.
Import Triangles.

Lemma createPool_population' PoolSize population target :
  (createPool PoolSize population target).1 = SliceStable less' population.
Proof. reflexivity. Qed.

Lemma createPool_panics' PoolSize population target :
  is_int PoolSize -> len population < PoolSize + 1 ->
  (createPool PoolSize population target).2 = None.
Proof.
  intros HP Hlen. unfold createPool. cbn [snd].
  rewrite top_slice_panics; [done|done|].
  unfold len. rewrite (SliceStable_length Fitness). exact Hlen.
Qed.

(** The pool in closed form: the whole population when the ends of the
    top do not differ, the weighted top otherwise. *)
Lemma createPool_pool' PoolSize population target :
  0 <= PoolSize < len population -> len population < 2 ^ 63 ->
  exists t0 tp,
    index (SliceStable less' population) 0 = Some t0 /\
    index (SliceStable less' population) PoolSize = Some tp /\
    (createPool PoolSize population target).2
    = Some (if int64 (Fitness tp - Fitness t0) =? 0
            then SliceStable less' population
            else flat_map (fun ti => replicate (Z.to_nat (weight' tp ti)) ti)
                   (take (Z.to_nat PoolSize) (SliceStable less' population))).
Proof.
  intros HP Hlen. unfold createPool. cbn [snd].
  change (fun a b : Organism => Fitness a <? Fitness b) with less'.
  set (sorted := SliceStable less' population).
  assert (Hs : len sorted = len population).
  { unfold len, sorted. by rewrite (SliceStable_length Fitness). }
  rewrite top_slice by lia. cbn.
  set (top := take _ sorted).
  assert (Htop : len top = PoolSize + 1) by (apply len_take; lia).
  rewrite Htop. unfold int. rewrite int64_id by lia.
  replace (PoolSize + 1 - 1) with PoolSize by lia.
  destruct (index_is_Some top PoolSize) as [tp Htp]; [lia|].
  destruct (index_is_Some top 0) as [t0 Ht0]; [lia|].
  exists t0, tp.
  pose proof (pool_loop top weight' PoolSize tp ltac:(lia) Htp) as Hloop.
  unfold weight' in Hloop. rewrite Hloop. clear Hloop.
  rewrite Htp, Ht0. cbn.
  unfold top in Htp, Ht0. rewrite index_take in Htp, Ht0 by lia.
  split; [done|]. split; [done|].
  destruct (int64 (Fitness tp - Fitness t0) =? 0); [done|].
  unfold top. rewrite take_take. do 3 f_equal. lia.
Qed.
End Triangles.

End PoolFacts.

(* ================================================================== *)
(** * Pool construction: the statements *)
(* ================================================================== *)

Section PoolStatements.
Import Notions TopPool GoFacts PoolFacts.

(** C10. [createPool] of the image programs leaves the caller's slice
    sorted: the population after the call is a permutation of the one
    before it (the organisms themselves, with their DNA and Fitness, are
    only moved) and its Fitness values never decrease along the slice. *)
Theorem createPool_sorts_in_place
    (PoolSize : Z) (target : Monalisa.RGBA)
    (population : list Monalisa.Organism)
    (population' : list Triangles.Organism) :
  let after := (Monalisa.createPool PoolSize population target).1 in
  let after' := (Triangles.createPool PoolSize population' target).1 in
  (Permutation after population /\
   Sorted (fun a b => Monalisa.Fitness a <= Monalisa.Fitness b) after) /\
  (Permutation after' population' /\
   Sorted (fun a b => Triangles.Fitness a <= Triangles.Fitness b) after').
Proof.
  cbn zeta. rewrite createPool_population, createPool_population'.
  repeat split.
  - apply (SliceStable_Permutation Monalisa.Fitness).
  - apply StronglySorted_Sorted, (SliceStable_StronglySorted Monalisa.Fitness).
  - apply (SliceStable_Permutation Triangles.Fitness).
  - apply StronglySorted_Sorted, (SliceStable_StronglySorted Triangles.Fitness).
Qed.

(** C9. The top-of-the-population pools read the sorted population at
    the positions 0 to PoolSize: when PoolSize+1 exceeds the size of the
    population the call panics, and when 0 < PoolSize < size it returns
    a pool, so that no access is out of range. *)
Theorem createPool_bounds
    (PoolSize : Z) (target : Monalisa.RGBA)
    (population : list Monalisa.Organism)
    (population' : list Triangles.Organism) :
  is_int PoolSize ->
  is_int (len population) -> is_int (len population') ->
  (len population < PoolSize + 1 ->
     (Monalisa.createPool PoolSize population target).2 = None) /\
  (0 < PoolSize < len population ->
     is_Some (Monalisa.createPool PoolSize population target).2) /\
  (len population' < PoolSize + 1 ->
     (Triangles.createPool PoolSize population' target).2 = None) /\
  (0 < PoolSize < len population' ->
     is_Some (Triangles.createPool PoolSize population' target).2).
Proof.
  intros HP Hl Hl'. unfold is_int in Hl, Hl'. repeat split.
  - intros Hlen. by apply createPool_panics.
  - intros Hlen.
    destruct (createPool_pool PoolSize population target) as (tp & _ & ->);
      [lia|lia|done].
  - intros Hlen. by apply createPool_panics'.
  - intros Hlen.
    destruct (createPool_pool' PoolSize population' target) as (t0 & tp & _ & _ & ->);
      [lia|lia|done].
Qed.

Lemma createPool_bounds_witness :
  is_int 2 /\
  is_int (len [Scenario.near; Scenario.far; Scenario.near]) /\
  is_int (len [Scenario.sketch 15]) /\
  is_Some (Monalisa.createPool 2 [Scenario.near; Scenario.far; Scenario.near]
             Scenario.target1).2 /\
  (Triangles.createPool 2 [Scenario.sketch 15] Scenario.target1).2 = None.
Proof.
  assert (H2 : is_int 2) by (split; [discriminate | reflexivity]).
  assert (H3 : is_int (len [Scenario.near; Scenario.far; Scenario.near]))
    by (split; [discriminate | reflexivity]).
  assert (H1 : is_int (len [Scenario.sketch 15]))
    by (split; [discriminate | reflexivity]).
  split; [exact H2|]. split; [exact H3|]. split; [exact H1|].
  destruct (createPool_bounds 2 Scenario.target1
              [Scenario.near; Scenario.far; Scenario.near] [Scenario.sketch 15]
              H2 H3 H1) as (_ & Hsome & Hnone & _).
  split; [apply Hsome | apply Hnone]; [split|]; reflexivity.
Defined.

End PoolStatements.

Section BestAndConverged.
Import Notions TopPool GoFacts PoolFacts Monalisa Scenario.

(** C1 (src/monalisa/main.go). On a converged population the pool of
    src/monalisa/main.go is empty: all 250 organisms carry the evaluated
    fitness 16127 of the same image, above [FitnessLimit], so that [main]
    does call [createPool]; no organism of the top differs from the last
    one and nothing is appended. *)
Theorem Monalisa_createPool_converged_is_empty :
  (forall P : Platform,
     Forall (fun o => calcFitness o white = Some o) converged) /\
  FitnessLimit <= 16127 /\
  createPool PoolSize converged white = (converged, Some []).
Proof.
  split; [|split].
  - intros P. apply Forall_forall. intros o Ho.
    apply list_elem_of_In, elem_of_replicate in Ho as [-> _].
    vm_compute. reflexivity.
  - vm_compute. discriminate.
  - vm_compute. reflexivity.
Qed.

(** C2. [getBest] of src/monalisa/main.go picks the greatest distance:
    of an organism at distance 15 from the target and one at distance
    510, both evaluated, it returns the second. *)
Theorem Monalisa_getBest_returns_farthest :
  (forall P : Platform,
     calcFitness near target1 = Some near /\ calcFitness far target1 = Some far) /\
  Fitness near < Fitness far /\
  getBest [near; far] = Some far /\
  getBest [far; near] = Some far.
Proof.
  split; [|split; [|split]].
  - intros P. split; vm_compute; reflexivity.
  - vm_compute. reflexivity.
  - vm_compute. reflexivity.
  - vm_compute. reflexivity.
Qed.

End BestAndConverged.

Section PoolExtras.
Import Notions TopPool GoFacts PoolFacts.

(** The pool of the triangle program is never empty: for a population of
    evaluated organisms (their Fitness is a distance) of at least
    PoolSize+1 members, [createPool] returns a non-empty pool, and when the
    ends of the top have the same Fitness the pool is the whole
    (sorted) population. *)
Theorem Triangles_createPool_never_empty
    (PoolSize : Z) (target : Monalisa.RGBA) (population : list Triangles.Organism) :
  0 <= PoolSize < len population ->
  is_int (len population) ->
  Forall (fun o => is_distance (Triangles.Fitness o)) population ->
  exists t0 tp pool,
    index (Triangles.createPool PoolSize population target).1 0 = Some t0 /\
    index (Triangles.createPool PoolSize population target).1 PoolSize = Some tp /\
    (Triangles.createPool PoolSize population target).2 = Some pool /\
    pool <> [] /\
    (Triangles.Fitness t0 = Triangles.Fitness tp ->
       pool = (Triangles.createPool PoolSize population target).1).
Proof.
  intros HP Hlen Hfit. unfold is_int in Hlen.
  destruct (createPool_pool' PoolSize population target)
    as (t0 & tp & Ht0 & Htp & Hpool); [lia|lia|].
  rewrite createPool_population'.
  exists t0, tp. eexists. split; [done|]. split; [done|]. split; [exact Hpool|].
  set (sorted := SliceStable less' population) in *.
  assert (Hperm : Permutation sorted population)
    by apply (SliceStable_Permutation Triangles.Fitness).
  assert (Hsorted := SliceStable_StronglySorted Triangles.Fitness population).
  fold less' in Hsorted. fold sorted in Hsorted.
  assert (Hd : forall o, o ∈ sorted -> is_distance (Triangles.Fitness o)).
  { intros o Ho. rewrite Forall_forall in Hfit. apply Hfit.
    apply list_elem_of_In. by rewrite <- Hperm. }
  apply index_Some in Ht0 as [_ Ht0]. apply index_Some in Htp as [_ Htp].
  change (Z.to_nat 0) with O in Ht0.
  pose proof (Hd _ (list_elem_of_lookup_2 _ _ _ Ht0)) as D0.
  pose proof (Hd _ (list_elem_of_lookup_2 _ _ _ Htp)) as Dp.
  unfold is_distance in D0, Dp.
  pose proof (StronglySorted_lookup_le Triangles.Fitness sorted _ _ _ _
                Hsorted Ht0 Htp ltac:(lia)) as Hle.
  rewrite int64_id by lia.
  destruct (Z.eqb_spec (Triangles.Fitness tp - Triangles.Fitness t0) 0) as [E|NE].
  - split; [|done]. intros Hnil. by rewrite Hnil in Ht0.
  - split; [|lia].
    assert (0 < Z.to_nat PoolSize)%nat as Hpos.
    { destruct (Z.to_nat PoolSize) eqn:EP; [|lia].
      replace PoolSize with 0 in * by lia.
      change (Z.to_nat 0) with O in *. simplify_eq. lia. }
    destruct (Z.to_nat PoolSize) as [|n] eqn:EP; [lia|].
    destruct sorted as [|s0 rest]; [done|].
    cbn in Ht0. simplify_eq. cbn [take flat_map].
    unfold weight' at 1. rewrite int64_id by lia.
    destruct (Z.to_nat (Triangles.Fitness tp - Triangles.Fitness t0)) eqn:EN; [lia|].
    done.
Qed.

Lemma Triangles_createPool_never_empty_witness :
  exists t0 tp pool,
    index (Triangles.createPool 1 [Scenario.sketch 510; Scenario.sketch 15]
             Scenario.target1).1 0 = Some t0 /\
    index (Triangles.createPool 1 [Scenario.sketch 510; Scenario.sketch 15]
             Scenario.target1).1 1 = Some tp /\
    (Triangles.createPool 1 [Scenario.sketch 510; Scenario.sketch 15]
       Scenario.target1).2 = Some pool /\
    pool <> [] /\
    (Triangles.Fitness t0 = Triangles.Fitness tp ->
       pool = (Triangles.createPool 1 [Scenario.sketch 510; Scenario.sketch 15]
                 Scenario.target1).1).
Proof.
  apply (Triangles_createPool_never_empty 1 Scenario.target1
           [Scenario.sketch 510; Scenario.sketch 15]).
  - split; [discriminate | reflexivity].
  - split; [discriminate | reflexivity].
  - repeat constructor; discriminate.
Defined.

(** On a population whose organisms all have the same Fitness the pool
    of src/monalisa/main.go is empty, whatever the sizes. *)
Theorem Monalisa_pool_empty_without_differences
    (PoolSize f : Z) (target : Monalisa.RGBA) (population : list Monalisa.Organism) :
  0 <= PoolSize < len population ->
  is_int (len population) ->
  Forall (fun o => Monalisa.Fitness o = f) population ->
  (Monalisa.createPool PoolSize population target).2 = Some [].
Proof.
  intros HP Hlen Hfit. unfold is_int in Hlen.
  destruct (createPool_pool PoolSize population target)
    as (tp & Htp & ->); [lia|lia|]. f_equal.
  set (sorted := SliceStable less population) in *.
  assert (Hperm : Permutation sorted population)
    by apply (SliceStable_Permutation Monalisa.Fitness).
  assert (Hf : Forall (fun o => Monalisa.Fitness o = f) sorted).
  { by rewrite Hperm. }
  apply index_Some in Htp as [_ Htp].
  pose proof (Forall_lookup_1 _ _ _ _ Hf Htp) as Fp. cbn in Fp.
  clearbody sorted. clear Htp Hperm.
  generalize dependent (Z.to_nat PoolSize). intros n.
  revert n. induction Hf as [|o l Ho Hl IH]; intros [|n]; try done.
  cbn. rewrite IH. unfold weight. rewrite Ho, Fp, Z.sub_diag. done.
Qed.

Lemma Monalisa_pool_empty_without_differences_witness :
  (Monalisa.createPool 1 [Scenario.far; Scenario.far; Scenario.far]
     Scenario.target1).2 = Some [].
Proof.
  apply (Monalisa_pool_empty_without_differences 1 510).
  - split; [discriminate | reflexivity].
  - split; [discriminate | reflexivity].
  - repeat constructor.
Defined.

End PoolExtras.

Section GetBest.
Import Notions TopPool GoFacts PoolFacts Monalisa.

(** [getBest] of src/monalisa/main.go returns an organism of the
    greatest Fitness, that is, of the greatest distance to the target. *)
Theorem Monalisa_getBest_greatest_distance (population : list Organism) :
  population <> [] ->
  Forall (fun o => is_distance (Fitness o)) population ->
  exists o, getBest population = Some o /\ o ∈ population /\
    forall o', o' ∈ population -> Fitness o' <= Fitness o.
Proof.
  intros Hne Hfit. unfold getBest.
  match goal with |- context [for_range ?lo ?hi ?body ?s] =>
    destruct (for_range_inv (fun j '(best, idx) =>
      0 <= best /\
      (forall (k : nat) o, Z.of_nat k < j -> population !! k = Some o ->
         Fitness o <= best) /\
      ((best = 0 /\ idx = 0) \/
       exists o, index population idx = Some o /\ Fitness o = best))
      body lo hi s) as ([best idx] & -> & Hb & Hall & Hidx)
  end.
  - apply len_nonneg.
  - cbn. split; [lia|]. split; [intros; lia|]. by left.
  - intros j [best idx] Hj (Hb & Hall & Hidx).
    destruct (index_is_Some population j) as [p Hp]; [lia|].
    cbv beta iota. rewrite Hp. cbn.
    apply index_Some in Hp as Hp'. destruct Hp' as [_ Hp'].
    destruct (Z.ltb_spec best (Fitness p)) as [Hlt|Hge].
    + eexists. split; [done|]. cbn.
      split; [lia|]. split; [|right; eauto].
      intros k o Hk Ho.
      destruct (decide (k = Z.to_nat j)) as [->|Hkj].
      * simplify_eq. lia.
      * specialize (Hall k o ltac:(lia) Ho). lia.
    + eexists. split; [done|]. cbn.
      split; [lia|]. split; [|done].
      intros k o Hk Ho.
      destruct (decide (k = Z.to_nat j)) as [->|Hkj].
      * simplify_eq. lia.
      * apply (Hall k o); [lia|done].
  - cbn.
    assert (Hall' : forall o', o' ∈ population -> Fitness o' <= best).
    { intros o' [k Hk]%list_elem_of_lookup_1. apply (Hall k); [|done].
      apply lookup_lt_Some in Hk. unfold len. lia. }
    destruct Hidx as [[-> ->]|(o & Ho & <-)].
    + destruct population as [|o rest]; [done|].
      exists o. split; [done|]. split; [left|].
      intros o' Ho'. specialize (Hall' o' Ho').
      rewrite Forall_forall in Hfit.
      pose proof (Hfit o (or_introl eq_refl)) as Hd. unfold is_distance in Hd. lia.
    + exists o. split; [done|]. split; [|done].
      apply index_Some in Ho as [_ Ho]. by eapply list_elem_of_lookup_2.
Qed.

Lemma Monalisa_getBest_greatest_distance_witness :
  exists o, getBest [Scenario.near; Scenario.far] = Some o /\
    o ∈ [Scenario.near; Scenario.far] /\
    forall o', o' ∈ [Scenario.near; Scenario.far] -> Fitness o' <= Fitness o.
Proof.
  apply (Monalisa_getBest_greatest_distance [Scenario.near; Scenario.far]).
  - discriminate.
  - repeat constructor; discriminate.
Defined.

End GetBest.

(* ================================================================== *)
(** * Crossover and mutation *)
(* ================================================================== *)

Module ReproductionFacts.
Import Notions GoFacts FloatFacts FloatSigns.

Lemma single_point_splice m (a b : list byte) :
  length b = length a -> 0 <= m ->
  single_point m a b (take (Z.to_nat (m + 1)) b ++ drop (Z.to_nat (m + 1)) a).
Proof.
  intros Hlen Hm. split.
  - rewrite length_app, length_take, length_drop. lia.
  - intros i Hi. unfold index, len in *. rewrite !bool_decide_true by lia.
    destruct (Z.leb_spec i m) as [Hle|Hgt].
    + rewrite lookup_app_l by (rewrite length_take; lia).
      apply lookup_take_lt. lia.
    + rewrite lookup_app_r by (rewrite length_take; lia).
      rewrite length_take, lookup_drop. f_equal. lia.
Qed.

(** The loop of [crossover], for any record that holds the genome. *)
Lemma crossover_loop {C} (get : C -> list byte) (set : C -> Z -> byte -> option C)
    (g1 g2 : list byte) (mid : Z) (child : C) :
  (forall c i x, 0 <= i < len (get c) ->
     exists c', set c i x = Some c' /\ get c' = <[Z.to_nat i := x]> (get c)) ->
  length g2 = length g1 -> 0 <= mid < len g1 ->
  length (get child) = length g1 ->
  exists child',
    for_range 0 (len g1) (fun i child =>
      if mid <? i
      then x ← index g1 i; set child i x
      else x ← index g2 i; set child i x) child = Some child' /\
    get child' = take (Z.to_nat (mid + 1)) g2 ++ drop (Z.to_nat (mid + 1)) g1.
Proof.
  intros Hset Hlen Hmid Hchild.
  set (res := take (Z.to_nat (mid + 1)) g2 ++ drop (Z.to_nat (mid + 1)) g1).
  assert (Hres : length res = length g1).
  { unfold res. rewrite length_app, length_take, length_drop. unfold len in Hmid. lia. }
  match goal with |- context [for_range ?lo ?hi ?body ?s] =>
    destruct (for_range_inv (fun j c =>
      length (get c) = length g1 /\
      take (Z.to_nat j) (get c) = take (Z.to_nat j) res) body lo hi s)
      as (child' & E & Hl & Ht)
  end.
  - apply len_nonneg.
  - done.
  - intros j c Hj [Hl Ht]. unfold len in Hj.
    assert (Hx : exists x, res !! Z.to_nat j = Some x /\
              (if mid <? j then index g1 j else index g2 j) = Some x).
    { destruct (lookup_lt_is_Some_2 res (Z.to_nat j)) as [x Hx]; [lia|].
      exists x. split; [done|]. rewrite <- Hx. unfold res, index.
      rewrite bool_decide_true by lia.
      destruct (Z.ltb_spec mid j).
      - rewrite lookup_app_r by (rewrite length_take; lia).
        rewrite length_take, lookup_drop. f_equal. lia.
      - rewrite lookup_app_l by (rewrite length_take; lia).
        symmetry. apply lookup_take_lt. lia. }
    destruct Hx as (x & Hres_j & Hx).
    destruct (Hset c j x) as (c' & Hc' & Hget); [unfold len; lia|].
    exists c'. split.
    + destruct (mid <? j); rewrite Hx; cbn; exact Hc'.
    + rewrite Hget, length_insert. split; [done|].
      replace (Z.to_nat (j + 1)) with (S (Z.to_nat j)) by lia.
      rewrite (take_S_r res _ x) by done.
      rewrite (take_S_r (<[Z.to_nat j:=x]> (get c)) _ x)
        by (apply list_lookup_insert_eq; lia).
      by rewrite take_insert_ge, Ht by lia.
  - exists child'. split; [done|].
    rewrite <- (take_ge (get child') (Z.to_nat (len g1))) by (unfold len; lia).
    rewrite Ht. apply take_ge. unfold len. lia.
Qed.

Lemma set_Gene_spec (d : Shakespeare.DNA) i x :
  0 <= i < len (Shakespeare.Gene d) ->
  exists d', Shakespeare.set_Gene d i x = Some d' /\
    Shakespeare.Gene d' = <[Z.to_nat i := x]> (Shakespeare.Gene d).
Proof.
  intros Hi. unfold Shakespeare.set_Gene, store.
  rewrite bool_decide_true by done. cbn. eauto.
Qed.

Lemma set_Pix_spec (o : Monalisa.Organism) i x :
  0 <= i < len (Monalisa.Pix (Monalisa.DNA o)) ->
  exists o', Monalisa.set_Pix o i x = Some o' /\
    Monalisa.Pix (Monalisa.DNA o') = <[Z.to_nat i := x]> (Monalisa.Pix (Monalisa.DNA o)).
Proof.
  intros Hi. unfold Monalisa.set_Pix, store.
  rewrite bool_decide_true by done. cbn. eauto.
Qed.

Lemma Shakespeare_crossover_spec {G} (R : rand_source G) (g : G)
    (a b : Shakespeare.DNA) :
  rand_contract R ->
  0 < len (Shakespeare.Gene a) ->
  length (Shakespeare.Gene a) = length (Shakespeare.Gene b) ->
  exists m child g',
    rand_Intn R (len (Shakespeare.Gene a)) g = Some (m, g') /\
    0 <= m < len (Shakespeare.Gene a) /\
    Shakespeare.crossover R a b g = Some (child, g') /\
    single_point m (Shakespeare.Gene a) (Shakespeare.Gene b) (Shakespeare.Gene child).
Proof.
  intros HR Hpos Hlen.
  destruct (Intn_range R HR _ g Hpos) as (m & g' & Hm & Hrange).
  unfold Shakespeare.crossover. rewrite Hm. cbn.
  edestruct (crossover_loop Shakespeare.Gene Shakespeare.set_Gene
               (Shakespeare.Gene a) (Shakespeare.Gene b) m)
    as (child & -> & Hchild);
    [exact set_Gene_spec|done|done| |].
  { cbn. unfold make, len. rewrite length_replicate. lia. }
  exists m, child, g'. cbn. repeat split; try done; try lia.
  - rewrite Hchild. apply single_point_splice; [done|lia].
  - rewrite Hchild. apply single_point_splice; [done|lia].
Qed.

Lemma Monalisa_crossover_spec {G} (R : rand_source G) (g : G)
    (a b : Monalisa.Organism) :
  rand_contract R ->
  0 < len (Monalisa.Pix (Monalisa.DNA a)) ->
  length (Monalisa.Pix (Monalisa.DNA a)) = length (Monalisa.Pix (Monalisa.DNA b)) ->
  exists m child g',
    rand_Intn R (len (Monalisa.Pix (Monalisa.DNA a))) g = Some (m, g') /\
    0 <= m < len (Monalisa.Pix (Monalisa.DNA a)) /\
    Monalisa.crossover R a b g = Some (child, g') /\
    single_point m (Monalisa.Pix (Monalisa.DNA a)) (Monalisa.Pix (Monalisa.DNA b))
      (Monalisa.Pix (Monalisa.DNA child)).
Proof.
  intros HR Hpos Hlen.
  destruct (Intn_range R HR _ g Hpos) as (m & g' & Hm & Hrange).
  unfold Monalisa.crossover. rewrite Hm. cbn.
  edestruct (crossover_loop (fun o => Monalisa.Pix (Monalisa.DNA o)) Monalisa.set_Pix
               (Monalisa.Pix (Monalisa.DNA a)) (Monalisa.Pix (Monalisa.DNA b)) m)
    as (child & -> & Hchild);
    [exact set_Pix_spec|done|done| |].
  { cbn. unfold make, len. rewrite length_replicate. lia. }
  exists m, child, g'. cbn. repeat split; try done; try lia.
  - rewrite Hchild. apply single_point_splice; [done|lia].
  - rewrite Hchild. apply single_point_splice; [done|lia].
Qed.

(** At rate zero no draw is below the rate. *)
Lemma Shakespeare_mutate_zero {G} (R : rand_source G) (g : G) rate
    (d : Shakespeare.DNA) :
  rand_contract R -> feq rate fzero = true ->
  exists g', Shakespeare.mutate R rate d g = Some (d, g').
Proof.
  intros HR Hrate. unfold Shakespeare.mutate.
  match goal with |- context [for_range ?lo ?hi ?body ?s] =>
    destruct (for_range_inv (fun _ '(d', _) => d' = d) body lo hi s)
      as ([d' g'] & -> & ->)
  end; [apply len_nonneg|done| |by eexists].
  intros j [d' g1] _ ->. cbv beta iota.
  pose proof (Float64_range R HR g1) as [Hr _].
  destruct (rand_Float64 R g1) as [r g2]. cbn [fst] in Hr.
  rewrite (flt_zero_rate r rate Hr Hrate). by eexists.
Qed.

Lemma Monalisa_mutate_zero {G} (R : rand_source G) (g : G) rate
    (o : Monalisa.Organism) :
  rand_contract R -> feq rate fzero = true ->
  exists g', Monalisa.mutate R rate o g = Some (o, g').
Proof.
  intros HR Hrate. unfold Monalisa.mutate.
  match goal with |- context [for_range ?lo ?hi ?body ?s] =>
    destruct (for_range_inv (fun _ '(o', _) => o' = o) body lo hi s)
      as ([o' g'] & -> & ->)
  end; [apply len_nonneg|done| |by eexists].
  intros j [o' g1] _ ->. cbv beta iota.
  pose proof (Float64_range R HR g1) as [Hr _].
  destruct (rand_Float64 R g1) as [r g2]. cbn [fst] in Hr.
  rewrite (flt_zero_rate r rate Hr Hrate). by eexists.
Qed.

End ReproductionFacts.

Section ReproductionStatements.
Import Notions TopPool GoFacts FloatFacts FloatSigns ReproductionFacts Parents.

(** C6. For parents [a] and [b] with genomes of the same positive
    length, [crossover] draws one cut index [m] in [0, length) from the
    generator, and its child is as long as the parents, with the elements
    at the positions up to [m] from [b] and those after [m] from [a];
    this holds for the byte-string program and for src/monalisa/main.go. *)
Theorem crossover_single_point {G} (R : rand_source G) (g : G)
    (a b : Shakespeare.DNA) (a' b' : Monalisa.Organism) :
  rand_contract R ->
  0 < len (Shakespeare.Gene a) ->
  length (Shakespeare.Gene a) = length (Shakespeare.Gene b) ->
  0 < len (Monalisa.Pix (Monalisa.DNA a')) ->
  length (Monalisa.Pix (Monalisa.DNA a')) = length (Monalisa.Pix (Monalisa.DNA b')) ->
  (exists m child g',
     rand_Intn R (len (Shakespeare.Gene a)) g = Some (m, g') /\
     0 <= m < len (Shakespeare.Gene a) /\
     Shakespeare.crossover R a b g = Some (child, g') /\
     single_point m (Shakespeare.Gene a) (Shakespeare.Gene b) (Shakespeare.Gene child)) /\
  (exists m child g',
     rand_Intn R (len (Monalisa.Pix (Monalisa.DNA a'))) g = Some (m, g') /\
     0 <= m < len (Monalisa.Pix (Monalisa.DNA a')) /\
     Monalisa.crossover R a' b' g = Some (child, g') /\
     single_point m (Monalisa.Pix (Monalisa.DNA a')) (Monalisa.Pix (Monalisa.DNA b'))
       (Monalisa.Pix (Monalisa.DNA child))).
Proof.
  intros HR Hpos Hlen Hpos' Hlen'. split.
  - by apply Shakespeare_crossover_spec.
  - by apply Monalisa_crossover_spec.
Qed.

Lemma crossover_single_point_witness :
  rand_contract lcg /\
  (exists m child g',
     rand_Intn lcg (len (Shakespeare.Gene mother)) 2024 = Some (m, g') /\
     0 <= m < len (Shakespeare.Gene mother) /\
     Shakespeare.crossover lcg mother father 2024 = Some (child, g') /\
     single_point m (Shakespeare.Gene mother) (Shakespeare.Gene father)
       (Shakespeare.Gene child)) /\
  (exists m child g',
     rand_Intn lcg (len (Monalisa.Pix (Monalisa.DNA mother'))) 2024 = Some (m, g') /\
     0 <= m < len (Monalisa.Pix (Monalisa.DNA mother')) /\
     Monalisa.crossover lcg mother' father' 2024 = Some (child, g') /\
     single_point m (Monalisa.Pix (Monalisa.DNA mother'))
       (Monalisa.Pix (Monalisa.DNA father')) (Monalisa.Pix (Monalisa.DNA child))).
Proof.
  split; [exact lcg_contract|].
  apply (crossover_single_point lcg 2024 mother father mother' father');
    [exact lcg_contract | reflexivity | reflexivity | reflexivity | reflexivity].
Defined.

(** C8. With a mutation rate equal to zero [mutate] returns the genome
    it was given, in both programs; the child of a crossover followed by
    [mutate] is therefore the child of the crossover. *)
Theorem mutate_rate_zero {G} (R : rand_source G) (rate : float64) :
  rand_contract R ->
  feq rate fzero = true ->
  (forall (d : Shakespeare.DNA) g,
     exists g', Shakespeare.mutate R rate d g = Some (d, g')) /\
  (forall (o : Monalisa.Organism) g,
     exists g', Monalisa.mutate R rate o g = Some (o, g')) /\
  (forall a b g child g1,
     Shakespeare.crossover R a b g = Some (child, g1) ->
     exists g2,
       ('(c, g1) ← Shakespeare.crossover R a b g; Shakespeare.mutate R rate c g1)
       = Some (child, g2)) /\
  (forall a b g child g1,
     Monalisa.crossover R a b g = Some (child, g1) ->
     exists g2,
       ('(c, g1) ← Monalisa.crossover R a b g; Monalisa.mutate R rate c g1)
       = Some (child, g2)).
Proof.
  intros HR Hrate. repeat split.
  - intros d g. by apply Shakespeare_mutate_zero.
  - intros o g. by apply Monalisa_mutate_zero.
  - intros a b g child g1 ->. cbn. by apply Shakespeare_mutate_zero.
  - intros a b g child g1 ->. cbn. by apply Monalisa_mutate_zero.
Qed.

Lemma mutate_rate_zero_witness :
  rand_contract lcg /\ feq fzero fzero = true /\
  (exists g', Shakespeare.mutate lcg fzero mother 2024 = Some (mother, g')) /\
  (exists g', Monalisa.mutate lcg fzero mother' 2024 = Some (mother', g')).
Proof.
  split; [exact lcg_contract|]. split; [reflexivity|].
  destruct (mutate_rate_zero lcg fzero lcg_contract eq_refl) as (Hs & Hm & _).
  split; [apply Hs | apply Hm].
Defined.

End ReproductionStatements.

(* ================================================================== *)
(** * The pixel distance *)
(* ================================================================== *)

Module DistanceFacts.
Import Notions TopPool GoFacts FloatFacts FloatSigns Measures Monalisa.

Lemma squareDifference_square x y :
  squareDifference x y = (uint64_of_uint8 x - uint64_of_uint8 y) ^ 2.
Proof.
  unfold squareDifference, uint64.
  pose proof (uint64_of_uint8_range x) as Hx.
  pose proof (uint64_of_uint8_range y) as Hy.
  set (a := uint64_of_uint8 x) in *. set (b := uint64_of_uint8 y) in *.
  rewrite <- Z.mul_mod by lia.
  rewrite Z.pow_2_r. apply Z.mod_small.
  rewrite <- Z.abs_square.
  assert (0 <= Z.abs (a - b) <= 255) by lia.
  split; [apply Z.mul_nonneg_nonneg; lia|].
  apply Z.le_lt_trans with (255 * 255); [apply Z.mul_le_mono_nonneg; lia|done].
Qed.

Lemma squareDifference_range x y : 0 <= squareDifference x y <= 65025.
Proof.
  rewrite squareDifference_square, Z.pow_2_r, <- Z.abs_square.
  pose proof (uint64_of_uint8_range x) as Hx.
  pose proof (uint64_of_uint8_range y) as Hy.
  assert (0 <= Z.abs (uint64_of_uint8 x - uint64_of_uint8 y) <= 255) by lia.
  split; [apply Z.mul_nonneg_nonneg; lia|].
  change 65025 with (255 * 255). apply Z.mul_le_mono_nonneg; lia.
Qed.

Lemma sum_squares_nonneg a b : 0 <= sum_squares a b.
Proof.
  revert b. induction a as [|x a IH]; intros [|y b]; cbn [sum_squares]; try lia.
  specialize (IH b). nia.
Qed.

Lemma sum_squares_snoc a b x y :
  length a = length b ->
  sum_squares (a ++ [x]) (b ++ [y])
  = sum_squares a b + (uint64_of_uint8 x - uint64_of_uint8 y) ^ 2.
Proof.
  revert b. induction a as [|x' a IH]; intros [|y' b] Hlen; try done.
  - cbn. lia.
  - cbn [app sum_squares]. rewrite IH by (cbn in Hlen; lia). lia.
Qed.

Lemma sum_squares_take_le a b (n : nat) :
  sum_squares (take n a) (take n b) <= sum_squares a b.
Proof.
  revert a b. induction n as [|n IH]; intros [|x a] [|y b]; cbn [take sum_squares];
    try (pose proof (sum_squares_nonneg a b)); try lia.
  - assert (0 <= (uint64_of_uint8 x - uint64_of_uint8 y) ^ 2) by nia. lia.
  - specialize (IH a b). lia.
Qed.

Lemma sum_squares_diag a : sum_squares a a = 0.
Proof. induction a as [|x a IH]; cbn [sum_squares]; [done|]. rewrite IH. lia. Qed.

Lemma sum_squares_replicate (n : nat) x y a b :
  sum_squares (replicate n x ++ a) (replicate n y ++ b)
  = Z.of_nat n * (uint64_of_uint8 x - uint64_of_uint8 y) ^ 2 + sum_squares a b.
Proof.
  induction n as [|n IH]; [cbn; lia|].
  cbn [replicate app sum_squares]. rewrite IH. lia.
Qed.

(** The loop of [diff] adds up the squared differences; no addition
    wraps as long as the sum fits an [int64]. *)
Lemma diff_loop (a b : list byte) :
  length a = length b -> sum_squares a b < 2 ^ 63 ->
  for_range 0 (len a) (fun i d =>
    x ← index a i;
    y ← index b i;
    Some (int64 (d + int64 (squareDifference x y)))) 0
  = Some (sum_squares a b).
Proof.
  intros Hlen Hsum.
  match goal with |- for_range ?lo ?hi ?body ?s = _ =>
    destruct (for_range_inv (fun j d =>
      d = sum_squares (take (Z.to_nat j) a) (take (Z.to_nat j) b)) body lo hi s)
      as (d & -> & ->)
  end.
  - apply len_nonneg.
  - done.
  - intros j d Hj ->. unfold len in Hj.
    destruct (index_is_Some a j) as [x Hx]; [unfold len; lia|].
    destruct (index_is_Some b j) as [y Hy]; [unfold len; lia|].
    rewrite Hx, Hy. cbn. eexists. split; [reflexivity|].
    apply index_Some in Hx as [_ Hx]. apply index_Some in Hy as [_ Hy].
    replace (Z.to_nat (j + 1)) with (S (Z.to_nat j)) by lia.
    rewrite (take_S_r a _ x), (take_S_r b _ y) by done.
    rewrite sum_squares_snoc by (rewrite !length_take; lia).
    rewrite <- squareDifference_square.
    pose proof (squareDifference_range x y).
    pose proof (sum_squares_nonneg (take (Z.to_nat j) a) (take (Z.to_nat j) b)).
    pose proof (sum_squares_take_le a b (S (Z.to_nat j))) as Hle.
    rewrite (take_S_r a _ x), (take_S_r b _ y) in Hle by done.
    rewrite sum_squares_snoc in Hle by (rewrite !length_take; lia).
    rewrite <- squareDifference_square in Hle.
    rewrite (int64_id (squareDifference x y)) by lia.
    apply int64_id. lia.
  - f_equal. unfold len. rewrite Nat2Z.id.
    rewrite take_ge by lia. rewrite take_ge by lia. done.
Qed.

Lemma diff_sum `{Platform} (a b : RGBA) :
  length (Pix a) = length (Pix b) ->
  sum_squares (Pix a) (Pix b) < 2 ^ 63 ->
  diff a b
  = Some (int_of_float64 (math_Sqrt (float64_of_int (sum_squares (Pix a) (Pix b))))).
Proof.
  intros Hlen Hsum. unfold diff. by rewrite diff_loop.
Qed.

(** Whatever the sum does, [diff] of buffers of one length returns. *)
Lemma diff_returns `{Platform} (a b : RGBA) :
  length (Pix a) = length (Pix b) -> is_Some (diff a b).
Proof.
  intros Hlen. unfold diff.
  match goal with |- context [for_range ?lo ?hi ?body ?s] =>
    destruct (for_range_inv (fun _ _ => True) body lo hi s) as (d & -> & _)
  end; [apply len_nonneg|done| |done].
  intros j d Hj _.
  destruct (index_is_Some (Pix a) j) as [x ->]; [done|].
  destruct (index_is_Some (Pix b) j) as [y ->]; [unfold len in *; lia|].
  cbn. eauto.
Qed.

Lemma diff_sqrt `{Platform} (a b : RGBA) :
  length (Pix a) = length (Pix b) ->
  sum_squares (Pix a) (Pix b) < 2 ^ 52 ->
  diff a b = Some (Z.sqrt (sum_squares (Pix a) (Pix b))).
Proof.
  intros Hlen Hsum. rewrite diff_sum by lia. f_equal.
  pose proof (sum_squares_nonneg (Pix a) (Pix b)) as H0.
  apply int_of_float64_trunc; [apply trunc_sqrt; lia|].
  pose proof (Z.sqrt_nonneg (sum_squares (Pix a) (Pix b))).
  assert (Z.sqrt (sum_squares (Pix a) (Pix b)) < 2 ^ 26); [|lia].
  apply Z.sqrt_lt_square; [lia|lia|]. change (2 ^ 26 * 2 ^ 26) with (2 ^ 52). lia.
Qed.

Lemma diff_same `{Platform} (a b : RGBA) : Pix a = Pix b -> diff a b = Some 0.
Proof.
  intros E. rewrite diff_sqrt; rewrite E; rewrite ?sum_squares_diag; done.
Qed.

End DistanceFacts.

Section DistanceStatements.
Import Notions TopPool GoFacts FloatFacts FloatSigns Measures DistanceFacts Monalisa Scenario.

(** C3. For an organism and a target with pixel buffers of the same
    length, [calcFitness] of the image programs returns the organism
    with its Fitness set to [diff] of its DNA and the target, exactly;
    when the buffers are equal byte for byte that Fitness is 0. *)
Theorem calcFitness_is_diff `{Platform} (o : Organism) (target : RGBA) :
  length (Pix (DNA o)) = length (Pix target) ->
  exists d,
    diff (DNA o) target = Some d /\
    calcFitness o target = Some {| DNA := DNA o; Fitness := d |} /\
    (Pix (DNA o) = Pix target -> d = 0).
Proof.
  intros Hlen. destruct (diff_returns (DNA o) target Hlen) as [d Hd].
  exists d. split; [done|]. split.
  - unfold calcFitness. rewrite Hd. cbn. by destruct (d =? 0).
  - intros E. rewrite (diff_same _ _ E) in Hd. by simplify_eq.
Qed.

Lemma calcFitness_is_diff_witness :
  length (Pix (DNA far)) = length (Pix target1) /\
  exists d,
    @diff amd64 (DNA far) target1 = Some d /\
    @calcFitness amd64 far target1 = Some {| DNA := DNA far; Fitness := d |} /\
    (Pix (DNA far) = Pix target1 -> d = 0).
Proof.
  split; [reflexivity|].
  apply (@calcFitness_is_diff amd64 far target1). reflexivity.
Defined.

(** C4, as the code has it. [squareDifference] is the square of the
    absolute difference of its arguments, although it subtracts with
    wrap-around; [diff] of a buffer and itself is 0; and for buffers of
    one length whose squared differences add up to less than [2^52],
    [diff] is the integer square root of that sum. *)
Theorem diff_is_integer_sqrt `{Platform} :
  (forall x y : byte,
     squareDifference x y = Z.abs (uint64_of_uint8 x - uint64_of_uint8 y) ^ 2) /\
  (forall a : RGBA, diff a a = Some 0) /\
  (forall a b : RGBA,
     length (Pix a) = length (Pix b) ->
     sum_squares (Pix a) (Pix b) < 2 ^ 52 ->
     diff a b = Some (Z.sqrt (sum_squares (Pix a) (Pix b)))).
Proof.
  split; [|split].
  - intros x y. rewrite squareDifference_square, !Z.pow_2_r.
    symmetry. apply Z.abs_square.
  - intros a. by apply diff_same.
  - intros a b Hlen Hsum. by apply diff_sqrt.
Qed.

Lemma diff_is_integer_sqrt_witness :
  length (Pix (DNA far)) = length (Pix target1) /\
  sum_squares (Pix (DNA far)) (Pix target1) = 260100 /\
  @diff amd64 (DNA far) target1 = Some 510 /\
  @diff amd64 target1 target1 = Some 0 /\
  squareDifference x00 xff = 65025.
Proof.
  destruct (@diff_is_integer_sqrt amd64) as (Hsq & Hsame & Hsqrt).
  split; [reflexivity|]. split; [reflexivity|]. split; [|split].
  - exact (Hsqrt (DNA far) target1 eq_refl eq_refl).
  - exact (Hsame target1).
  - exact (Hsq x00 xff).
Defined.

(** C4, as it is written, fails on large buffers: the squared
    differences of [bright] and [dark] add up to [2^52 + 2^27], whose
    integer square root is 67108864, while the nearest float to its
    square root is 67108865, which is what [diff] returns. *)
Lemma diff_not_integer_sqrt :
  length bright = length dark /\
  len bright = 4 * 17314877977 /\
  sum_squares bright dark = 2 ^ 52 + 2 ^ 27 /\
  Z.sqrt (sum_squares bright dark) = 67108864 /\
  (forall P : Platform, diff (image_of bright) (image_of dark) = Some 67108865).
Proof.
  assert (Hlen : length bright = length dark).
  { unfold bright, dark. by rewrite !length_app, !length_replicate. }
  assert (Hsum : sum_squares bright dark = 2 ^ 52 + 2 ^ 27).
  { unfold bright, dark. rewrite sum_squares_replicate.
    rewrite Z2Nat.id by done. reflexivity. }
  split; [done|]. split.
  { unfold len, bright. rewrite length_app, length_replicate, Nat2Z.inj_add.
    rewrite Z2Nat.id by done. reflexivity. }
  split; [done|]. split.
  - rewrite Hsum. reflexivity.
  - intros P. rewrite diff_sum; [|done|].
    + cbn [image_of Pix]. rewrite Hsum. vm_compute. reflexivity.
    + cbn [image_of Pix]. rewrite Hsum. done.
Qed.

End DistanceStatements.

(* ================================================================== *)
(** * The match ratio and the proportional pool *)
(* ================================================================== *)

Module RatioFacts.
Import Notions TopPool GoFacts FloatFacts FloatSigns PoolFacts Measures Proportional Shakespeare.

Lemma matches_range g t : 0 <= matches g t <= len g.
Proof.
  unfold len. revert t. induction g as [|x g IH]; intros [|y t]; cbn [matches length];
    try lia.
  specialize (IH t). destruct (Byte.eqb x y); lia.
Qed.

Lemma matches_snoc g t x y :
  length g = length t ->
  matches (g ++ [x]) (t ++ [y]) = matches g t + (if Byte.eqb x y then 1 else 0).
Proof.
  revert t. induction g as [|x' g IH]; intros [|y' t] Hlen; try done.
  - cbn. lia.
  - cbn [app matches]. rewrite IH by (cbn in Hlen; lia). lia.
Qed.

Lemma matches_diag t : matches t t = len t.
Proof.
  unfold len. induction t as [|x t IH]; [done|].
  cbn [matches length]. rewrite IH.
  assert (Byte.eqb x x = true) as -> by (by apply Byte.byte_dec_lb). lia.
Qed.

Lemma matches_take g t (n : nat) :
  (length g <= length t)%nat ->
  matches (take n g) (take n t) <= matches g t.
Proof.
  revert g t. induction n as [|n IH]; intros [|x g] [|y t] Hlen;
    cbn [take matches]; cbn in Hlen; try lia.
  - pose proof (matches_range g t). destruct (Byte.eqb x y); lia.
  - specialize (IH g t). lia.
Qed.

(** The loop of [calcFitness] counts the agreeing positions. *)
Lemma score_loop (g t : list byte) :
  (length g <= length t)%nat -> is_int (len g) ->
  for_range 0 (len g) (fun i score =>
    x ← index g i;
    y ← index t i;
    if Byte.eqb x y then Some (int (score + 1)) else Some score) 0
  = Some (matches g t).
Proof.
  intros Hlen Hint. unfold is_int in Hint.
  match goal with |- for_range ?lo ?hi ?body ?s = _ =>
    destruct (for_range_inv (fun j score =>
      score = matches (take (Z.to_nat j) g) (take (Z.to_nat j) t)) body lo hi s)
      as (d & -> & ->)
  end.
  - apply len_nonneg.
  - done.
  - intros j score Hj ->. unfold len in Hj.
    destruct (index_is_Some g j) as [x Hx]; [unfold len; lia|].
    destruct (index_is_Some t j) as [y Hy]; [unfold len; lia|].
    rewrite Hx, Hy. cbn.
    apply index_Some in Hx as [_ Hx]. apply index_Some in Hy as [_ Hy].
    replace (Z.to_nat (j + 1)) with (S (Z.to_nat j)) by lia.
    rewrite (take_S_r g _ x), (take_S_r t _ y) by done.
    rewrite matches_snoc by (rewrite !length_take; lia).
    pose proof (matches_range (take (Z.to_nat j) g) (take (Z.to_nat j) t)) as Hr.
    unfold len in Hr. rewrite length_take in Hr.
    destruct (Byte.eqb x y); eexists; (split; [reflexivity|]).
    + unfold int. apply int64_id. unfold len in Hint. lia.
    + lia.
  - f_equal. unfold len. rewrite Nat2Z.id.
    rewrite take_ge by lia.
    destruct (decide (length t <= length g)%nat).
    + by rewrite take_ge by lia.
    + clear Hint. revert t Hlen n. induction g as [|x g IH]; intros [|y t] Hlen Hn;
        cbn in *; try done; try lia.
      rewrite IH by lia. done.
Qed.

Lemma calcFitness_evaluated (d : DNA) (target : list byte) :
  (length (Gene d) <= length target)%nat -> is_int (len (Gene d)) ->
  calcFitness d target = Some (evaluated target d).
Proof.
  intros Hlen Hint. unfold calcFitness. by rewrite score_loop.
Qed.

Lemma evaluated_sign target d : sign_plus (Fitness (evaluated target d)).
Proof.
  cbn. apply fdiv_sign; apply float64_of_int_sign.
  - apply matches_range.
  - apply len_nonneg.
Qed.

Lemma copies_floor `{Platform} f maxFitness z :
  sign_plus f -> flt fzero maxFitness = true ->
  floor (fmul (fdiv f maxFitness) f100) = Some z -> z < 2 ^ 63 ->
  copies f maxFitness = z.
Proof.
  intros Hf Hmax Hz Hlt.
  assert (Hs : sign_plus (fmul (fdiv f maxFitness) f100)).
  { apply fmul_sign; [|done]. apply fdiv_sign; [done|]. by apply flt_fzero_sign. }
  pose proof (floor_nonneg _ _ Hs Hz).
  rewrite floor_trunc in Hz by done.
  apply int_of_float64_trunc; [done|lia].
Qed.

Lemma copies_zero `{Platform} f maxFitness :
  feq f fzero = true -> flt fzero maxFitness = true -> copies f maxFitness = 0.
Proof.
  intros Hf Hmax. unfold copies.
  destruct f as [s|[]| |[] m e]; try done.
  by destruct maxFitness as [[]|[]| |[] m e]; try done; destruct s.
Qed.

(** The count is taken in floats: an organism with 3 of 41 bytes right
    enters 74 times when the best has 4 of 41 right, 60 times when the
    best has 5 of 41. *)
Example copies_of_three_matches `{Platform} :
  copies (Fitness (evaluated (replicate 41 x61)
                     {| Gene := replicate 3 x61 ++ replicate 38 x62; Fitness := fzero |}))
         (fdiv (float64_of_int 4) (float64_of_int 41)) = 74 /\
  copies (fdiv (float64_of_int 3) (float64_of_int 41))
         (fdiv (float64_of_int 5) (float64_of_int 41)) = 60.
Proof. split; vm_compute; reflexivity. Qed.

(** [createPool] re-evaluates every organism and appends its copies. *)
Lemma createPool_spec `{Platform} (population : list DNA) target maxFitness :
  Forall (fun d => length (Gene d) = length target) population ->
  is_int (len target) ->
  createPool population target maxFitness
  = Some (evaluated target <$> population,
          flat_map (fun p => replicate (Z.to_nat (copies (Fitness p) maxFitness)) p)
            (evaluated target <$> population)).
Proof.
  intros Hgenes Hint. unfold createPool.
  set (rep := fun p : DNA => replicate (Z.to_nat (copies (Fitness p) maxFitness)) p).
  match goal with |- for_range ?lo ?hi ?body ?s = _ =>
    destruct (for_range_inv (fun j '(pop, pool) =>
      pop = (evaluated target <$> take (Z.to_nat j) population)
              ++ drop (Z.to_nat j) population /\
      pool = flat_map rep (evaluated target <$> take (Z.to_nat j) population))
      body lo hi s) as ([pop pool] & -> & -> & ->)
  end.
  - apply len_nonneg.
  - done.
  - intros j [pop pool] Hj [-> ->]. unfold len in Hj. cbv beta iota.
    destruct (lookup_lt_is_Some_2 population (Z.to_nat j)) as [p Hp]; [lia|].
    set (done_ := evaluated target <$> take (Z.to_nat j) population).
    assert (Hdone : length done_ = Z.to_nat j).
    { unfold done_. rewrite length_fmap, length_take. lia. }
    assert (Hdrop : drop (Z.to_nat j) population = p :: drop (S (Z.to_nat j)) population).
    { by apply drop_S. }
    assert (Hidx : index (done_ ++ drop (Z.to_nat j) population) j = Some p).
    { unfold index. rewrite bool_decide_true by lia.
      rewrite lookup_app_r by lia. rewrite Hdone, Nat.sub_diag, Hdrop. done. }
    rewrite Hidx. cbn [mbind option_bind].
    rewrite Forall_forall in Hgenes.
    pose proof (Hgenes p (proj1 (list_elem_of_In _ _) (list_elem_of_lookup_2 _ _ _ Hp))) as Hlen.
    rewrite calcFitness_evaluated by (unfold is_int, len in *; lia).
    cbn [mbind option_bind]. unfold store.
    rewrite bool_decide_true
      by (unfold len; rewrite length_app, Hdone, length_drop; lia).
    cbn [mbind option_bind].
    assert (Hins : <[Z.to_nat j:=evaluated target p]> (done_ ++ drop (Z.to_nat j) population)
                   = (evaluated target <$> take (Z.to_nat (j + 1)) population)
                       ++ drop (Z.to_nat (j + 1)) population).
    { replace (Z.to_nat (j + 1)) with (S (Z.to_nat j)) by lia.
      rewrite (take_S_r population _ p) by done.
      rewrite fmap_app. cbn [fmap list_fmap]. fold done_.
      rewrite <- app_assoc. cbn [app].
      rewrite insert_app_r_alt by lia.
      rewrite Hdone, Nat.sub_diag, Hdrop. done. }
    rewrite Hins.
    assert (Hidx' : index ((evaluated target <$> take (Z.to_nat (j + 1)) population)
                             ++ drop (Z.to_nat (j + 1)) population) j
                    = Some (evaluated target p)).
    { rewrite <- Hins. unfold index. rewrite bool_decide_true by lia.
      apply list_lookup_insert_eq. rewrite length_app, Hdone, length_drop. lia. }
    rewrite Hidx'. cbn [mbind option_bind].
    unfold for_range. rewrite for_steps_append. cbn [mbind option_bind].
    eexists. split; [reflexivity|]. cbv beta iota. split; [done|].
    replace (Z.to_nat (j + 1)) with (S (Z.to_nat j)) by lia.
    rewrite (take_S_r population _ p) by done.
    rewrite fmap_app, flat_map_app. cbn [fmap list_fmap flat_map].
    rewrite app_nil_r, Z.sub_0_r. done.
  - unfold len. rewrite Nat2Z.id, take_ge, drop_ge, app_nil_r by lia. done.
Qed.

End RatioFacts.

Section RatioStatements.
Import Notions TopPool GoFacts FloatFacts FloatSigns PoolFacts Measures Proportional RatioFacts.
Import Shakespeare.

(** C5, as the code has it. For a genome that is not empty and a target
    of the same length, [calcFitness] sets Fitness to the number of
    positions at which the genome agrees with the target, divided by the
    length; the result lies between 0.0 and 1.0, and it is 1.0 when the
    genome is the target. *)
Theorem calcFitness_match_ratio (d : DNA) (target : list byte) :
  length (Gene d) = length target ->
  0 < len (Gene d) ->
  is_int (len (Gene d)) ->
  exists f,
    calcFitness d target = Some {| Gene := Gene d; Fitness := f |} /\
    f = fdiv (float64_of_int (matches (Gene d) target))
             (float64_of_int (len (Gene d))) /\
    0 <= matches (Gene d) target <= len (Gene d) /\
    fle fzero f = true /\ fle f fone = true /\
    (Gene d = target -> f = fone).
Proof.
  intros Hlen Hpos Hint. eexists. split; [|split; [reflexivity|]].
  - rewrite calcFitness_evaluated by (done || lia). reflexivity.
  - pose proof (matches_range (Gene d) target) as Hr. unfold is_int in Hint.
    split; [done|].
    destruct (ratio_range (matches (Gene d) target) (len (Gene d))) as [H0 H1];
      [done|lia|].
    split; [done|]. split; [done|].
    intros <-. rewrite matches_diag. apply ratio_one. lia.
Qed.

Lemma calcFitness_match_ratio_witness :
  length (Gene azc) = length abc /\
  0 < len (Gene azc) /\
  exists f,
    calcFitness azc abc
    = Some {| Gene := Gene azc; Fitness := f |} /\
    fle fzero f = true /\ fle f fone = true.
Proof.
  split; [reflexivity|]. split; [reflexivity|].
  destruct (calcFitness_match_ratio azc abc)
    as (f & Hf & _ & _ & H0 & H1 & _);
    [reflexivity | reflexivity | split; [discriminate | reflexivity] |].
  exists f. by repeat split.
Defined.

(** C5, as it is written, fails for the empty genome: the ratio is 0/0,
    which is not a number, neither in [0.0, 1.0] nor equal to 1.0. *)
Lemma calcFitness_empty_genome :
  length (Gene nobody) = length (@nil byte) /\
  calcFitness nobody [] = Some {| Gene := []; Fitness := S754_nan |} /\
  fle fzero S754_nan = false /\ fle S754_nan fone = false /\
  feq S754_nan fone = false.
Proof. repeat split. Qed.

(** C7, as the code has it. Under the proportional pool, with a
    positive [maxFitness], every organism is re-evaluated and enters the
    pool as many times as the integer conversion of
    (fitness / maxFitness) * 100 says, in the order of the population,
    where the quotient and the product are the [float64] operations,
    each rounded; that number is the floor of the rounded product
    whenever the floor fits an [int], and it is zero for a fitness of
    zero. *)
Theorem createPool_proportional `{Platform}
    (population : list DNA) (target : list byte) (maxFitness : float64) :
  Forall (fun d => length (Gene d) = length target) population ->
  is_int (len target) ->
  flt fzero maxFitness = true ->
  let population' := evaluated target <$> population in
  createPool population target maxFitness
  = Some (population',
          flat_map (fun p => replicate (Z.to_nat (copies (Fitness p) maxFitness)) p)
            population') /\
  (forall p z, p ∈ population' ->
     floor (fmul (fdiv (Fitness p) maxFitness) f100) = Some z -> z < 2 ^ 63 ->
     copies (Fitness p) maxFitness = z) /\
  (forall p, p ∈ population' ->
     feq (Fitness p) fzero = true -> copies (Fitness p) maxFitness = 0).
Proof.
  intros Hgenes Hint Hmax. cbn zeta. split; [by apply createPool_spec|]. split.
  - intros p z [d [-> _]]%list_elem_of_fmap Hz Hlt.
    apply copies_floor; [apply evaluated_sign|done|done|done].
  - intros p _ Hp. by apply copies_zero.
Qed.

Lemma createPool_proportional_witness :
  Forall (fun d => length (Gene d) = length abc) candidates /\
  is_int (len abc) /\
  flt fzero fone = true /\
  @createPool amd64 candidates abc fone
  = Some (evaluated abc <$> candidates,
          flat_map (fun p => replicate (Z.to_nat (@copies amd64 (Fitness p) fone)) p)
            (evaluated abc <$> candidates)).
Proof.
  assert (Hc : Forall (fun d => length (Gene d) = length abc) candidates)
    by (repeat constructor).
  assert (Hi : is_int (len abc)) by (split; [discriminate | reflexivity]).
  split; [exact Hc|]. split; [exact Hi|]. split; [reflexivity|].
  exact (proj1 (@createPool_proportional amd64 candidates abc fone Hc Hi eq_refl)).
Defined.

(** C7, as it is written, fails on ordinary populations. Against a
    target of 41 bytes and a best organism with 4 bytes right, an
    organism with 3 bytes right enters the pool 74 times, since the
    [float64] quotient of the two ratios is just below 0.75, while
    floor((3/41) / (4/41) * 100) is 75. Taking the two ratios as the
    [float64] numbers the program stores does not save the claim: against
    a best organism with 5 bytes right the organism enters 60 times,
    while the quotient of the stored numbers, times 100, has floor 59. *)
Lemma createPool_not_exact_floor :
  flt fzero (Fitness (evaluated ExactPool.target41 (ExactPool.first_right 4))) = true /\
  (forall P : Platform,
     createPool [ExactPool.first_right 4; ExactPool.first_right 3] ExactPool.target41
       (Fitness (evaluated ExactPool.target41 (ExactPool.first_right 4)))
     = Some ([evaluated ExactPool.target41 (ExactPool.first_right 4);
              evaluated ExactPool.target41 (ExactPool.first_right 3)],
             replicate 100 (evaluated ExactPool.target41 (ExactPool.first_right 4))
               ++ replicate 74 (evaluated ExactPool.target41 (ExactPool.first_right 3)))) /\
  ExactPool.floor_copies (QArith_base.Qmake 3 41) (QArith_base.Qmake 4 41) = 75 /\
  (forall P : Platform,
     copies (Fitness (evaluated ExactPool.target41 (ExactPool.first_right 3)))
            (Fitness (evaluated ExactPool.target41 (ExactPool.first_right 5))) = 60) /\
  ExactPool.floor_copies
    (ExactPool.value (Fitness (evaluated ExactPool.target41 (ExactPool.first_right 3))))
    (ExactPool.value (Fitness (evaluated ExactPool.target41 (ExactPool.first_right 5))))
  = 59 /\
  ExactPool.floor_copies (QArith_base.Qmake 3 41) (QArith_base.Qmake 5 41) = 60.
Proof.
  split; [reflexivity|]. split; [intros P; vm_compute; reflexivity|].
  split; [reflexivity|]. split; [intros P; vm_compute; reflexivity|].
  split; vm_compute; reflexivity.
Qed.

End RatioStatements.

Module BestRatioFacts.
Import Notions GoFacts FloatFacts FloatSigns Measures Proportional RatioFacts.
Import Shakespeare.

(** ** The order of the match ratios *)

Lemma flt_finite m1 e1 m2 e2 :
  flt (S754_finite false m1 e1) (S754_finite false m2 e2) = true
  <-> e1 < e2 \/ (e1 = e2 /\ (m1 < m2)%positive).
Proof.
  unfold flt, SFltb, SFcompare.
  destruct (Z.compare_spec e1 e2) as [->|Hlt|Hgt].
  - change (Pos.compare_cont Eq m1 m2) with (Pos.compare m1 m2).
    destruct (Pos.compare_spec m1 m2); split; intros; try done; try lia.
  - split; [lia|done].
  - split; [done|lia].
Qed.

Lemma fle_refl x : zero_or_positive x -> fle x x = true.
Proof.
  intros [->|(m & e & ->)]; [done|]. apply fle_finite. right. split; [done|lia].
Qed.

Lemma fle_flt_trans x y z :
  zero_or_positive x -> zero_or_positive y -> zero_or_positive z ->
  fle x y = true -> flt y z = true -> fle x z = true.
Proof.
  intros [->|(m1 & e1 & ->)] [->|(m2 & e2 & ->)] [->|(m3 & e3 & ->)]; try done.
  intros H1%fle_finite H2%flt_finite. apply fle_finite. lia.
Qed.

Lemma fle_trans x y z :
  zero_or_positive x -> zero_or_positive y -> zero_or_positive z ->
  fle x y = true -> fle y z = true -> fle x z = true.
Proof.
  intros [->|(m1 & e1 & ->)] [->|(m2 & e2 & ->)] [->|(m3 & e3 & ->)]; try done.
  intros H1%fle_finite H2%fle_finite. apply fle_finite. lia.
Qed.

Lemma not_flt_fle x y :
  zero_or_positive x -> zero_or_positive y -> flt x y = false -> fle y x = true.
Proof.
  intros [->|(m1 & e1 & ->)] [->|(m2 & e2 & ->)]; try done.
  intros H. apply fle_finite.
  destruct (Z.compare_spec e2 e1) as [->|Hlt|Hgt]; [|lia|].
  - destruct (Pos.compare_spec m2 m1); [lia|lia|].
    assert (flt (S754_finite false m1 e1) (S754_finite false m2 e1) = true)
      by (apply flt_finite; lia). congruence.
  - assert (flt (S754_finite false m1 e1) (S754_finite false m2 e2) = true)
      by (apply flt_finite; lia). congruence.
Qed.

(** A quotient of the floats of two positive integers is positive. *)
Lemma fdiv_int_float x y :
  int_float x -> int_float y -> zero_or_positive (fdiv x y).
Proof.
  intros (m1 & e1 & -> & Hm1 & He1) (m2 & e2 & -> & Hm2 & He2). right.
  unfold fdiv, SFdiv. rewrite SFdiv_core_53 by lia.
  cbv beta iota. cbn [xorb].
  set (q := Z.pos m1 * 2 ^ 53 / Z.pos m2).
  set (l := new_location _ _).
  assert (Hq : 2 ^ 52 <= q < 2 ^ 54).
  { unfold q. split.
    - apply Z.div_le_lower_bound; [lia|]. nia.
    - apply Z.div_lt_upper_bound; [lia|]. nia. }
  assert (Hn : forall R E, exists m e, normalise R E = S754_finite false m e).
  { intros R E. unfold normalise. destruct (_ =? _); eauto. }
  destruct (Z_lt_le_dec q (2 ^ 53)) as [Hlt|Hge].
  - destruct (binary_round_aux_normal q (e1 - e2 - 53) l 0)
      as (R & _ & _ & HR & ->); [lia|cbn; lia|lia|lia|]. apply Hn.
  - destruct (binary_round_aux_normal q (e1 - e2 - 53) l 1)
      as (R & _ & _ & HR & ->); [lia|cbn; lia|lia|lia|]. apply Hn.
Qed.

Lemma evaluated_zero_or_positive target d :
  0 < len (Gene d) -> is_int (len (Gene d)) ->
  zero_or_positive (Fitness (evaluated target d)).
Proof.
  intros Hpos Hint. unfold is_int in Hint. cbn.
  pose proof (matches_range (Gene d) target) as Hr.
  destruct (Z.eq_dec (matches (Gene d) target) 0) as [->|Hne].
  - left. change (float64_of_int 0) with fzero.
    apply fdiv_zero, float64_of_int_int_float. lia.
  - apply fdiv_int_float; apply float64_of_int_int_float; lia.
Qed.

End BestRatioFacts.

Section BestRatio.
Import Notions GoFacts FloatFacts FloatSigns Measures Proportional RatioFacts.
Import BestRatioFacts Shakespeare.

(** In the byte-string program, where a greater fitness is better,
    [getBest] returns an organism of the greatest fitness: for every
    non-empty population of evaluated organisms (each fitness is zero or
    a positive finite float) the result is a member that no member
    exceeds. *)
Theorem Shakespeare_getBest_greatest_ratio (population : list DNA) :
  population <> [] ->
  Forall (fun d => zero_or_positive (Fitness d)) population ->
  exists d, getBest population = Some d /\ d ∈ population /\
    forall d', d' ∈ population -> fle (Fitness d') (Fitness d) = true.
Proof.
  intros Hne Hfit. rewrite Forall_forall in Hfit.
  assert (Hzp : forall d, d ∈ population -> zero_or_positive (Fitness d)).
  { intros d Hd. apply Hfit. by apply list_elem_of_In. }
  unfold getBest.
  match goal with |- context [for_range ?lo ?hi ?body ?s] =>
    destruct (for_range_inv (fun j '(best, idx) =>
      zero_or_positive best /\
      (forall (k : nat) d, Z.of_nat k < j -> population !! k = Some d ->
         fle (Fitness d) best = true) /\
      ((best = fzero /\ idx = 0) \/
       exists d, index population idx = Some d /\ Fitness d = best))
      body lo hi s) as ([best idx] & -> & Hb & Hall & Hidx)
  end.
  - apply len_nonneg.
  - cbn. split; [by left|]. split; [intros; lia|]. by left.
  - intros j [best idx] Hj (Hb & Hall & Hidx).
    destruct (index_is_Some population j) as [p Hp]; [lia|].
    cbv beta iota. rewrite Hp. cbn.
    apply index_Some in Hp as Hp'. destruct Hp' as [_ Hp'].
    pose proof (Hzp p (list_elem_of_lookup_2 _ _ _ Hp')) as Hpz.
    destruct (flt best (Fitness p)) eqn:Hcmp.
    + eexists. split; [done|]. cbn.
      split; [done|]. split; [|right; eauto].
      intros k d Hk Hd.
      destruct (decide (k = Z.to_nat j)) as [->|Hkj].
      * simplify_eq. by apply fle_refl.
      * apply (fle_flt_trans _ best); try done.
        -- apply Hzp. by eapply list_elem_of_lookup_2.
        -- apply (Hall k d); [lia|done].
    + eexists. split; [done|]. cbn.
      split; [done|]. split; [|done].
      intros k d Hk Hd.
      destruct (decide (k = Z.to_nat j)) as [->|Hkj].
      * simplify_eq. by apply not_flt_fle.
      * apply (Hall k d); [lia|done].
  - cbn.
    assert (Hall' : forall d', d' ∈ population -> fle (Fitness d') best = true).
    { intros d' [k Hk]%list_elem_of_lookup_1. apply (Hall k); [|done].
      apply lookup_lt_Some in Hk. unfold len. lia. }
    destruct Hidx as [[-> ->]|(d & Hd & <-)].
    + destruct population as [|d rest]; [done|].
      exists d. split; [done|]. split; [left|].
      intros d' Hd'.
      apply (fle_trans _ fzero); try (by apply Hzp); try (by left).
      * apply Hzp. left.
      * by apply Hall'.
      * destruct (Hzp d ltac:(left)) as [->|(m & e & ->)]; done.
    + exists d. split; [done|]. split; [|done].
      apply index_Some in Hd as [_ Hd]. by eapply list_elem_of_lookup_2.
Qed.

Lemma Shakespeare_getBest_greatest_ratio_witness :
  exists d, getBest (evaluated abc <$> candidates) = Some d /\
    d ∈ evaluated abc <$> candidates /\
    forall d', d' ∈ evaluated abc <$> candidates ->
      fle (Fitness d') (Fitness d) = true.
Proof.
  apply (Shakespeare_getBest_greatest_ratio (evaluated abc <$> candidates)).
  - discriminate.
  - apply Forall_fmap. unfold candidates.
    repeat (apply Forall_cons_2 || apply Forall_nil_2);
      apply evaluated_zero_or_positive;
      (reflexivity || (split; [discriminate | reflexivity])).
Defined.

End BestRatio.

(* ================================================================== *)
(** * More facts about the Go fragment *)
(* ================================================================== *)

Module LibraryFacts.
Import Notions GoFacts Invariants.

(** A loop whose first round panics, panics. *)
Lemma for_range_fails {St} body lo hi (s : St) :
  lo < hi -> body lo s = None -> for_range lo hi body s = None.
Proof.
  intros Hlt Hb. unfold for_range.
  destruct (Z.to_nat (hi - lo)) as [|n] eqn:E; [lia|].
  cbn. by rewrite Hb.
Qed.

(** A loop that reaches a round that panics in every state, panics. *)
Lemma for_steps_panics {St} body n i k (s : St) :
  i <= k < i + Z.of_nat n -> (forall t, body k t = None) ->
  for_steps n i body s = None.
Proof.
  revert i s. induction n as [|n IH]; intros i s Hk Hb; [lia|].
  cbn [for_steps]. destruct (Z.eq_dec i k) as [->|Hne].
  - by rewrite Hb.
  - destruct (body i s) as [s'|]; [|done]. cbn. apply IH; [lia|done].
Qed.

Lemma for_range_panics {St} body lo hi k (s : St) :
  lo <= k < hi -> (forall t, body k t = None) -> for_range lo hi body s = None.
Proof.
  intros Hk Hb. unfold for_range. apply (for_steps_panics body _ lo k); [lia|done].
Qed.

(** Two bodies that agree on the rounds of the loop give one result. *)
Lemma for_steps_ext {St} body1 body2 n i (s : St) :
  (forall j t, i <= j < i + Z.of_nat n -> body1 j t = body2 j t) ->
  for_steps n i body1 s = for_steps n i body2 s.
Proof.
  revert i s. induction n as [|n IH]; intros i s Hb; [done|].
  cbn [for_steps]. rewrite Hb by lia.
  destruct (body2 i s) as [s'|]; [|done]. cbn. apply IH.
  intros j t Hj. apply Hb. lia.
Qed.

Lemma for_range_ext {St} body1 body2 lo hi (s : St) :
  (forall j t, lo <= j < hi -> body1 j t = body2 j t) ->
  for_range lo hi body1 s = for_range lo hi body2 s.
Proof.
  intros Hb. unfold for_range. apply for_steps_ext.
  intros j t Hj. apply Hb. lia.
Qed.

(** ** Bytes *)

Lemma uint8_value z : uint64_of_uint8 (uint8 z) = z mod 256.
Proof.
  unfold uint8, uint64_of_uint8.
  pose proof (Z.mod_pos_bound z 256 ltac:(lia)) as Hm.
  destruct (Byte.of_N (Z.to_N (z mod 256))) as [b|] eqn:E.
  - apply Byte.to_of_N in E. rewrite E. lia.
  - apply Byte.of_N_None_iff in E. lia.
Qed.

Lemma uint8_small z : 0 <= z < 256 -> uint64_of_uint8 (uint8 z) = z.
Proof. intros Hz. rewrite uint8_value. by apply Z.mod_small. Qed.

Lemma uint64_of_uint8_inj x y : uint64_of_uint8 x = uint64_of_uint8 y -> x = y.
Proof.
  unfold uint64_of_uint8. intros E%(inj Z.of_N).
  pose proof (Byte.of_to_N x) as Hx. rewrite E, Byte.of_to_N in Hx. congruence.
Qed.

Lemma bytes_Compare_eq a b : bytes_Compare a b = 0 <-> a = b.
Proof.
  revert b. induction a as [|x a IH]; intros [|y b]; cbn [bytes_Compare]; try done.
  destruct (Z.ltb_spec (uint64_of_uint8 x) (uint64_of_uint8 y)) as [Hlt|Hge].
  { split; [done|]. intros [= -> _]. lia. }
  destruct (Z.ltb_spec (uint64_of_uint8 y) (uint64_of_uint8 x)) as [Hlt|Hle].
  { split; [done|]. intros [= -> _]. lia. }
  rewrite IH. split.
  - intros ->. f_equal. apply uint64_of_uint8_inj. lia.
  - by intros [= _ ->].
Qed.

(** What [rand.Intn(95) + 32] is, as a byte. *)
Lemma printable_draw v : 0 <= v < 95 -> printable (uint8 (int (v + 32))).
Proof.
  intros Hv. unfold printable, int. rewrite int64_id by lia.
  rewrite uint8_small by lia. lia.
Qed.

(** What [rand.Intn(255)] is, as a byte: never 255. *)
Lemma below_255_draw v : 0 <= v < 255 -> uint8 v <> xff.
Proof.
  intros Hv E. apply (f_equal uint64_of_uint8) in E.
  rewrite uint8_small in E by lia. cbn in E. lia.
Qed.

(** ** Slices *)

Lemma make_n_Some {A} (zero : A) n :
  0 <= n -> make_n zero n = Some (replicate (Z.to_nat n) zero).
Proof. intros Hn. unfold make_n. by rewrite bool_decide_true. Qed.

Lemma make_n_None {A} (zero : A) n : n < 0 -> make_n zero n = None.
Proof. intros Hn. unfold make_n. by rewrite bool_decide_false by lia. Qed.

Lemma store_Some {A} (s : list A) i x :
  0 <= i < len s -> store s i x = Some (<[Z.to_nat i := x]> s).
Proof. intros Hi. unfold store. by rewrite bool_decide_true. Qed.

(** A loop that stores a computed element at every index of a slice:
    the elements all satisfy what the computation guarantees. *)
Lemma fill_loop {A G} (P : A -> Prop) (f : G -> option (A * G)) (s : list A) (g : G) n :
  n = len s ->
  (forall g, exists x g', f g = Some (x, g') /\ P x) ->
  exists s' g',
    for_range 0 n (fun i '(s, g) =>
      '(x, g) ← f g;
      s ← store s i x;
      Some (s, g)) (s, g) = Some (s', g') /\
    length s' = length s /\ Forall P s'.
Proof.
  intros -> Hf.
  match goal with |- context [for_range ?lo ?hi ?body ?s0] =>
    destruct (for_range_inv (fun j '(t, _) =>
      length t = length s /\ Forall P (take (Z.to_nat j) t)) body lo hi s0)
      as ([s' g'] & E & Hl & HP)
  end.
  - apply len_nonneg.
  - split; [done|]. constructor.
  - intros j [t g1] Hj [Hl HP]. cbv beta iota.
    destruct (Hf g1) as (x & g2 & -> & Hx). cbn.
    rewrite store_Some by (unfold len in *; lia). cbn.
    eexists. split; [reflexivity|]. cbv beta iota.
    rewrite length_insert. split; [done|].
    replace (Z.to_nat (j + 1)) with (S (Z.to_nat j)) by lia.
    rewrite (take_S_r _ _ x) by (apply list_lookup_insert_eq; unfold len in *; lia).
    rewrite take_insert_ge by lia.
    apply Forall_app. split; [done|]. by repeat constructor.
  - exists s', g'. split; [done|]. split; [done|].
    rewrite take_ge in HP by (unfold len; lia). done.
Qed.

(** ** Pools: every element repeated a number of times *)

Lemma pool_members {A} (num : A -> nat) (Q : A -> Prop) (l : list A) :
  Forall Q l -> Forall Q (flat_map (fun p => replicate (num p) p) l).
Proof.
  induction 1 as [|x l Hx Hl IH]; [constructor|].
  cbn [flat_map]. apply Forall_app. split; [|done].
  by apply Forall_replicate.
Qed.

Lemma pool_nonempty {A} (num : A -> nat) (l : list A) x :
  x ∈ l -> (0 < num x)%nat -> flat_map (fun p => replicate (num p) p) l <> [].
Proof.
  intros Hx Hn. induction Hx as [x l|x y l Hx IH]; cbn [flat_map].
  - destruct (num x); [lia|done].
  - intros [_ E]%app_eq_nil. by apply IH.
Qed.

Lemma pool_empty {A} (num : A -> nat) (l : list A) :
  Forall (fun p => num p = O) l -> flat_map (fun p => replicate (num p) p) l = [].
Proof.
  induction 1 as [|x l Hx Hl IH]; [done|]. cbn [flat_map]. by rewrite Hx, IH.
Qed.

Lemma pool_length {A} (w : A -> Z) (l : list A) :
  Forall (fun x => 0 <= w x) l ->
  len (flat_map (fun x => replicate (Z.to_nat (w x)) x) l) = total w l.
Proof.
  unfold len. induction 1 as [|x l Hx Hl IH]; [done|].
  cbn [flat_map total foldr]. rewrite length_app, length_replicate.
  fold (total w l). lia.
Qed.

Lemma pool_member {A} (w : A -> Z) (l : list A) x :
  x ∈ flat_map (fun x => replicate (Z.to_nat (w x)) x) l <-> x ∈ l /\ 0 < w x.
Proof.
  induction l as [|y l IH]; cbn [flat_map].
  - split; [by intros ?%elem_of_nil|by intros [?%elem_of_nil _]].
  - rewrite elem_of_app, IH, elem_of_cons, elem_of_replicate. split.
    + intros [[-> Hn]|[Hx Hw]]; [split; [by left|lia]|split; [by right|done]].
    + intros [[->|Hx] Hw]; [left; split; [done|lia]|right; done].
Qed.

(** ** The generator the programs are run on *)

Lemma lcg_bytes_length n g : length (lcg_bytes n g).1 = n.
Proof.
  revert g. induction n as [|n IH]; intros g; [done|]. cbn [lcg_bytes].
  specialize (IH (lcg_next g)). destruct (lcg_bytes n (lcg_next g)). cbn in *. lia.
Qed.

Lemma lcg_reader_contract : Read_contract lcg_reader.
Proof. intros p g. apply lcg_bytes_length. Qed.

End LibraryFacts.

(* ================================================================== *)
(** * Crossover and mutation on any parents, at any rate *)
(* ================================================================== *)

Module GenomeFacts.
Import Notions GoFacts FloatFacts FloatSigns Invariants LibraryFacts.

Lemma splice_length {A} m (a b : list A) :
  0 <= m -> m < len b -> length (splice m a b) = Nat.max (Z.to_nat (m + 1)) (length a).
Proof.
  intros Hm Hb. unfold splice, len in *.
  rewrite length_app, length_take, length_drop. lia.
Qed.

Lemma splice_self {A} m (a : list A) : splice m a a = a.
Proof. apply take_drop. Qed.

Lemma splice_Forall {A} (Q : A -> Prop) m (a b : list A) :
  Forall Q a -> Forall Q b -> Forall Q (splice m a b).
Proof.
  intros Ha Hb. apply Forall_app. split.
  - by apply Forall_take.
  - by apply Forall_drop.
Qed.

Lemma splice_single_point m (a b : list byte) :
  length b = length a -> 0 <= m -> single_point m a b (splice m a b).
Proof. apply ReproductionFacts.single_point_splice. Qed.

Section Loops.
Context {A C F : Type}.
Context (get : C -> list A) (set : C -> Z -> A -> option C) (rest : C -> F).
Hypothesis set_spec : forall c i x, 0 <= i < len (get c) ->
  exists c', set c i x = Some c' /\
    get c' = <[Z.to_nat i := x]> (get c) /\ rest c' = rest c.

(** The loop of [crossover] when the second parent reaches the cut. *)
Lemma crossover_splice_loop (g1 g2 : list A) (mid : Z) (child : C) :
  0 <= mid < len g1 -> mid < len g2 ->
  length (get child) = length g1 ->
  exists child',
    for_range 0 (len g1) (fun i child =>
      if mid <? i
      then x ← index g1 i; set child i x
      else x ← index g2 i; set child i x) child = Some child' /\
    get child' = splice mid g1 g2 /\ rest child' = rest child.
Proof.
  intros Hmid Hmid2 Hchild.
  set (res := splice mid g1 g2).
  assert (Hres : length res = length g1).
  { unfold res. rewrite splice_length by lia. unfold len in Hmid. lia. }
  match goal with |- context [for_range ?lo ?hi ?body ?s] =>
    destruct (for_range_inv (fun j c =>
      length (get c) = length g1 /\ rest c = rest child /\
      take (Z.to_nat j) (get c) = take (Z.to_nat j) res) body lo hi s)
      as (child' & E & Hl & Hr & Ht)
  end.
  - apply len_nonneg.
  - done.
  - intros j c Hj (Hl & Hr & Ht). unfold len in Hj.
    assert (Hx : exists x, res !! Z.to_nat j = Some x /\
              (if mid <? j then index g1 j else index g2 j) = Some x).
    { destruct (lookup_lt_is_Some_2 res (Z.to_nat j)) as [x Hx]; [lia|].
      exists x. split; [done|]. rewrite <- Hx. unfold res, splice, index.
      rewrite bool_decide_true by lia. unfold len in *.
      destruct (Z.ltb_spec mid j).
      - rewrite lookup_app_r by (rewrite length_take; lia).
        rewrite length_take, lookup_drop. f_equal. lia.
      - rewrite lookup_app_l by (rewrite length_take; lia).
        symmetry. apply lookup_take_lt. lia. }
    destruct Hx as (x & Hres_j & Hx).
    destruct (set_spec c j x) as (c' & Hc' & Hget & Hrest); [unfold len; lia|].
    exists c'. split.
    + destruct (mid <? j); rewrite Hx; cbn; exact Hc'.
    + rewrite Hget, length_insert, Hrest. split; [done|]. split; [done|].
      replace (Z.to_nat (j + 1)) with (S (Z.to_nat j)) by lia.
      rewrite (take_S_r res _ x) by done.
      rewrite (take_S_r (<[Z.to_nat j:=x]> (get c)) _ x)
        by (apply list_lookup_insert_eq; lia).
      by rewrite take_insert_ge, Ht by lia.
  - exists child'. split; [done|]. split; [|done].
    rewrite <- (take_ge (get child') (Z.to_nat (len g1))) by (unfold len; lia).
    rewrite Ht. apply take_ge. unfold len. lia.
Qed.

(** The loop of [crossover] when the second parent ends at or before
    the cut: the read of [d2] at its length is out of range. *)
Lemma crossover_short_loop (g1 g2 : list A) (mid : Z) (child : C) :
  0 <= mid < len g1 -> len g2 <= mid ->
  for_range 0 (len g1) (fun i child =>
    if mid <? i
    then x ← index g1 i; set child i x
    else x ← index g2 i; set child i x) child = None.
Proof.
  intros Hmid Hshort. apply (for_range_panics _ _ _ (len g2)).
  - pose proof (len_nonneg g2). lia.
  - intros t. destruct (Z.ltb_spec mid (len g2)); [lia|].
    rewrite index_None by lia. done.
Qed.

End Loops.

(** The loop of [mutate]: a byte is kept, or replaced by [conv v] for a
    draw [v] of [rand.Intn(n)]. *)
Lemma mutate_loop {C F G} (get : C -> list byte) (set : C -> Z -> byte -> option C)
    (rest : C -> F) (R : rand_source G) (n : Z) (conv : Z -> byte)
    (fresh : byte -> Prop) (rate : float64) (c : C) (g : G) :
  (forall c i x, 0 <= i < len (get c) ->
     exists c', set c i x = Some c' /\
       get c' = <[Z.to_nat i := x]> (get c) /\ rest c' = rest c) ->
  rand_contract R -> 0 < n ->
  (forall v, 0 <= v < n -> fresh (conv v)) ->
  exists c' g',
    for_range 0 (len (get c)) (fun i '(c, g) =>
      let '(r, g) := rand_Float64 R g in
      if flt r rate
      then '(v, g) ← rand_Intn R n g;
           c ← set c i (conv v);
           Some (c, g)
      else Some (c, g)) (c, g) = Some (c', g') /\
    rest c' = rest c /\ mutation_of fresh (get c) (get c').
Proof.
  intros Hset HR Hn Hfresh.
  match goal with |- context [for_range ?lo ?hi ?body ?s] =>
    destruct (for_range_inv (fun _ '(c', _) =>
      rest c' = rest c /\ mutation_of fresh (get c) (get c')) body lo hi s)
      as ([c' g'] & E & Hr & Hm)
  end.
  - apply len_nonneg.
  - split; [done|]. split; [done|]. intros i x Hx. by left.
  - intros j [c1 g1] Hj (Hr & Hlen & Hm). cbv beta iota.
    destruct (rand_Float64 R g1) as [r g2].
    destruct (flt r rate); [|by eexists].
    destruct (Intn_range R HR n g2 Hn) as (v & g3 & -> & Hv). cbn.
    destruct (Hset c1 j (conv v)) as (c2 & -> & Hget & Hrest);
      [unfold len in *; lia|].
    cbn. eexists. split; [reflexivity|]. cbv beta iota.
    rewrite Hrest, Hget. split; [done|]. split; [by rewrite length_insert|].
    intros i x Hx.
    destruct (decide (i = Z.to_nat j)) as [->|Hne].
    + rewrite list_lookup_insert_eq in Hx by (unfold len in *; lia).
      simplify_eq. right. by apply Hfresh.
    + rewrite list_lookup_insert_ne in Hx by done. by apply Hm.
  - by exists c', g'.
Qed.

(** At a rate of one or more every draw of [rand.Float64] is below the
    rate. *)
Lemma flt_below_rate r rate :
  fle fzero r = true -> flt r fone = true -> fle fone rate = true ->
  flt r rate = true.
Proof.
  intros H0 H1 Hrate.
  destruct rate as [[]|[]| |[] m e]; try done;
    destruct r as [[]|[]| |[] mr er]; try done.
  change fone with (S754_finite false (2 ^ 52) (-52)) in *.
  apply BestRatioFacts.flt_finite in H1. apply fle_finite in Hrate.
  apply BestRatioFacts.flt_finite. lia.
Qed.

(** The loop of [mutate] at such a rate: every byte is replaced. *)
Lemma mutate_all_loop {C F G} (get : C -> list byte) (set : C -> Z -> byte -> option C)
    (rest : C -> F) (R : rand_source G) (n : Z) (conv : Z -> byte)
    (fresh : byte -> Prop) (rate : float64) (c : C) (g : G) :
  (forall c i x, 0 <= i < len (get c) ->
     exists c', set c i x = Some c' /\
       get c' = <[Z.to_nat i := x]> (get c) /\ rest c' = rest c) ->
  rand_contract R -> 0 < n ->
  (forall v, 0 <= v < n -> fresh (conv v)) ->
  fle fone rate = true ->
  exists c' g',
    for_range 0 (len (get c)) (fun i '(c, g) =>
      let '(r, g) := rand_Float64 R g in
      if flt r rate
      then '(v, g) ← rand_Intn R n g;
           c ← set c i (conv v);
           Some (c, g)
      else Some (c, g)) (c, g) = Some (c', g') /\
    rest c' = rest c /\ length (get c') = length (get c) /\ Forall fresh (get c').
Proof.
  intros Hset HR Hn Hfresh Hrate.
  match goal with |- context [for_range ?lo ?hi ?body ?s] =>
    destruct (for_range_inv (fun j '(c', _) =>
      rest c' = rest c /\ length (get c') = length (get c) /\
      Forall fresh (take (Z.to_nat j) (get c'))) body lo hi s)
      as ([c' g'] & E & Hr & Hl & Hf)
  end.
  - apply len_nonneg.
  - split; [done|]. split; [done|]. constructor.
  - intros j [c1 g1] Hj (Hr & Hl & Hf). cbv beta iota.
    pose proof (Float64_range R HR g1) as [H0 H1].
    destruct (rand_Float64 R g1) as [r g2]. cbn [fst] in H0, H1.
    rewrite (flt_below_rate r rate H0 H1 Hrate).
    destruct (Intn_range R HR n g2 Hn) as (v & g3 & -> & Hv). cbn.
    destruct (Hset c1 j (conv v)) as (c2 & -> & Hget & Hrest);
      [unfold len in *; lia|].
    cbn. eexists. split; [reflexivity|]. cbv beta iota.
    rewrite Hrest, Hget, length_insert. split; [done|]. split; [done|].
    replace (Z.to_nat (j + 1)) with (S (Z.to_nat j)) by lia.
    rewrite (take_S_r _ _ (conv v)) by (apply list_lookup_insert_eq; unfold len in *; lia).
    rewrite take_insert_ge by lia.
    apply Forall_app. split; [done|]. repeat constructor. by apply Hfresh.
  - exists c', g'. split; [done|]. split; [done|]. split; [done|].
    rewrite take_ge in Hf by (unfold len; lia). done.
Qed.

Lemma mutation_of_Forall (fresh Q : byte -> Prop) old new :
  mutation_of fresh old new -> (forall b, fresh b -> Q b) ->
  Forall Q old -> Forall Q new.
Proof.
  intros [_ Hm] Hq Hold. apply Forall_lookup_2. intros i x Hx.
  destruct (Hm i x Hx) as [Ho|Hf]; [|by apply Hq].
  by eapply Forall_lookup_1.
Qed.

(** ** The byte-string program *)

Lemma set_Gene_frame (d : Shakespeare.DNA) i x :
  0 <= i < len (Shakespeare.Gene d) ->
  exists d', Shakespeare.set_Gene d i x = Some d' /\
    Shakespeare.Gene d' = <[Z.to_nat i := x]> (Shakespeare.Gene d) /\
    Shakespeare.Fitness d' = Shakespeare.Fitness d.
Proof.
  intros Hi. unfold Shakespeare.set_Gene. rewrite store_Some by done.
  cbn. eauto.
Qed.

Lemma Shakespeare_crossover_reach {G} (R : rand_source G) (g : G)
    (d1 d2 : Shakespeare.DNA) m g' :
  rand_Intn R (len (Shakespeare.Gene d1)) g = Some (m, g') ->
  0 <= m < len (Shakespeare.Gene d1) ->
  (m < len (Shakespeare.Gene d2) ->
     Shakespeare.crossover R d1 d2 g
     = Some ({| Shakespeare.Gene := splice m (Shakespeare.Gene d1) (Shakespeare.Gene d2);
                Shakespeare.Fitness := fzero |}, g')) /\
  (len (Shakespeare.Gene d2) <= m -> Shakespeare.crossover R d1 d2 g = None).
Proof.
  intros Hm Hrange. unfold Shakespeare.crossover. rewrite Hm. cbn. split.
  - intros Hreach.
    edestruct (crossover_splice_loop Shakespeare.Gene Shakespeare.set_Gene
                 Shakespeare.Fitness set_Gene_frame
                 (Shakespeare.Gene d1) (Shakespeare.Gene d2) m)
      as (child & -> & Hgene & Hfit); [done|done| |].
    { cbn. unfold make, len. rewrite length_replicate. lia. }
    cbn. destruct child as [gene fit]. cbn in *. by subst.
  - intros Hshort.
    by rewrite (crossover_short_loop Shakespeare.set_Gene).
Qed.

Lemma Shakespeare_mutate_shape {G} (R : rand_source G) (g : G) rate
    (d : Shakespeare.DNA) :
  rand_contract R ->
  exists d' g', Shakespeare.mutate R rate d g = Some (d', g') /\
    Shakespeare.Fitness d' = Shakespeare.Fitness d /\
    mutation_of printable (Shakespeare.Gene d) (Shakespeare.Gene d').
Proof.
  intros HR. unfold Shakespeare.mutate.
  apply (mutate_loop Shakespeare.Gene Shakespeare.set_Gene Shakespeare.Fitness
           R 95 (fun v => uint8 (int (v + 32))) printable rate d g);
    [exact set_Gene_frame|done|done|exact printable_draw].
Qed.

(** ** src/monalisa/main.go *)

Lemma set_Pix_frame (o : Monalisa.Organism) i x :
  0 <= i < len (Monalisa.Pix (Monalisa.DNA o)) ->
  exists o', Monalisa.set_Pix o i x = Some o' /\
    Monalisa.Pix (Monalisa.DNA o') = <[Z.to_nat i := x]> (Monalisa.Pix (Monalisa.DNA o)) /\
    (Monalisa.Stride (Monalisa.DNA o'), Monalisa.Rect (Monalisa.DNA o'), Monalisa.Fitness o')
    = (Monalisa.Stride (Monalisa.DNA o), Monalisa.Rect (Monalisa.DNA o), Monalisa.Fitness o).
Proof.
  intros Hi. unfold Monalisa.set_Pix. rewrite store_Some by done.
  cbn. eauto.
Qed.

Lemma Monalisa_crossover_reach {G} (R : rand_source G) (g : G)
    (d1 d2 : Monalisa.Organism) m g' :
  rand_Intn R (len (Monalisa.Pix (Monalisa.DNA d1))) g = Some (m, g') ->
  0 <= m < len (Monalisa.Pix (Monalisa.DNA d1)) ->
  (m < len (Monalisa.Pix (Monalisa.DNA d2)) ->
     Monalisa.crossover R d1 d2 g
     = Some ({| Monalisa.DNA :=
                  {| Monalisa.Pix := splice m (Monalisa.Pix (Monalisa.DNA d1))
                                              (Monalisa.Pix (Monalisa.DNA d2));
                     Monalisa.Stride := Monalisa.Stride (Monalisa.DNA d1);
                     Monalisa.Rect := Monalisa.Rect (Monalisa.DNA d1) |};
                Monalisa.Fitness := 0 |}, g')) /\
  (len (Monalisa.Pix (Monalisa.DNA d2)) <= m -> Monalisa.crossover R d1 d2 g = None).
Proof.
  intros Hm Hrange. unfold Monalisa.crossover. rewrite Hm. cbn. split.
  - intros Hreach.
    edestruct (crossover_splice_loop (fun o => Monalisa.Pix (Monalisa.DNA o))
                 Monalisa.set_Pix
                 (fun o => (Monalisa.Stride (Monalisa.DNA o), Monalisa.Rect (Monalisa.DNA o),
                            Monalisa.Fitness o))
                 set_Pix_frame
                 (Monalisa.Pix (Monalisa.DNA d1)) (Monalisa.Pix (Monalisa.DNA d2)) m)
      as (child & -> & Hpix & Hrest); [done|done| |].
    { cbn. unfold make, len. rewrite length_replicate. lia. }
    cbn. destruct child as [[pix stride rect] fit]. cbn in *. by simplify_eq.
  - intros Hshort.
    by rewrite (crossover_short_loop Monalisa.set_Pix).
Qed.

Lemma Monalisa_mutate_shape {G} (R : rand_source G) (g : G) rate
    (o : Monalisa.Organism) :
  rand_contract R ->
  exists o' g', Monalisa.mutate R rate o g = Some (o', g') /\
    (Monalisa.Stride (Monalisa.DNA o'), Monalisa.Rect (Monalisa.DNA o'), Monalisa.Fitness o')
    = (Monalisa.Stride (Monalisa.DNA o), Monalisa.Rect (Monalisa.DNA o), Monalisa.Fitness o) /\
    mutation_of (fun b => b <> xff) (Monalisa.Pix (Monalisa.DNA o))
      (Monalisa.Pix (Monalisa.DNA o')).
Proof.
  intros HR. unfold Monalisa.mutate.
  apply (mutate_loop (fun o => Monalisa.Pix (Monalisa.DNA o)) Monalisa.set_Pix
           (fun o => (Monalisa.Stride (Monalisa.DNA o), Monalisa.Rect (Monalisa.DNA o),
                      Monalisa.Fitness o))
           R 255 uint8 (fun b => b <> xff) rate o g);
    [exact set_Pix_frame|done|done|exact below_255_draw].
Qed.

End GenomeFacts.

(* ================================================================== *)
(** * The byte-string program: populations *)
(* ================================================================== *)

Module StringFacts.
Import Notions GoFacts FloatFacts FloatSigns Measures Proportional RatioFacts.
Import BestRatioFacts Invariants LibraryFacts GenomeFacts.
Import Shakespeare ShakespeareMain.

Lemma calcFitness_candidate (d : DNA) target :
  length (Gene d) = length target -> is_int (len target) ->
  Forall printable (Gene d) ->
  exists d', calcFitness d target = Some d' /\ Gene d' = Gene d /\
    candidate target d'.
Proof.
  intros Hlen Hint Hp. exists (evaluated target d).
  rewrite calcFitness_evaluated by (unfold is_int, len in *; lia).
  by repeat split.
Qed.

Lemma createDNA_candidate {G} (R : rand_source G) target (g : G) :
  rand_contract R -> is_int (len target) ->
  exists dna g', createDNA R target g = Some (dna, g') /\ candidate target dna.
Proof.
  intros HR Hint. unfold createDNA.
  set (ba := make x00 (len target)).
  assert (Hba : len ba = len target).
  { unfold ba, make, len. rewrite length_replicate. lia. }
  erewrite for_range_ext; last first.
  { intros j [t g1] _. instantiate (1 := fun i '(s, g) =>
      '(x, g) ← (fun g => '(v, g) ← rand_Intn R 95 g;
                          Some (uint8 (int (v + 32)), g)) g;
      s ← store s i x; Some (s, g)).
    cbv beta iota. by destruct (rand_Intn R 95 g1) as [[v g2]|]. }
  edestruct (fill_loop printable
               (fun g => '(v, g) ← rand_Intn R 95 g; Some (uint8 (int (v + 32)), g))
               ba g (len target)) as (s' & g' & -> & Hl & Hp); [done| |].
  { intros g1. destruct (Intn_range R HR 95 g1 ltac:(lia)) as (v & g2 & -> & Hv).
    cbn. eexists _, _. split; [done|]. by apply printable_draw. }
  cbn.
  destruct (calcFitness_candidate {| Gene := s'; Fitness := fzero |} target)
    as (d' & -> & _ & Hd'); [cbn; unfold len in Hba; lia|done|done|].
  cbn. by eexists _, _.
Qed.

Lemma createPopulation_candidates {G} (R : rand_source G) PopSize target (g : G) :
  rand_contract R -> is_int (len target) -> 0 <= PopSize ->
  exists population g',
    createPopulation R PopSize target g = Some (population, g') /\
    len population = PopSize /\ Forall (candidate target) population.
Proof.
  intros HR Hint Hn. unfold createPopulation. rewrite make_n_Some by done. cbn.
  set (s := replicate _ _).
  assert (Hs : len s = PopSize) by (unfold s, len; rewrite length_replicate; lia).
  destruct (fill_loop (candidate target) (createDNA R target) s g PopSize)
    as (s' & g' & -> & Hl & Hc); [done| |].
  { intros g1. by apply createDNA_candidate. }
  exists s', g'. split; [done|]. split; [unfold len in *; lia|done].
Qed.

Lemma createPopulation_negative {G} (R : rand_source G) PopSize target (g : G) :
  PopSize < 0 -> createPopulation R PopSize target g = None.
Proof. intros Hn. unfold createPopulation. by rewrite make_n_None. Qed.

(** One child: two parents of the pool, crossed over, mutated and
    evaluated. *)
Lemma breed_candidate {G} (R : rand_source G) rate pool target (g : G) :
  rand_contract R -> 0 < len target -> is_int (len target) ->
  pool <> [] ->
  Forall (fun p => length (Gene p) = length target /\ Forall printable (Gene p)) pool ->
  exists child g', breed R rate pool target g = Some (child, g') /\
    candidate target child.
Proof.
  intros HR Hpos Hint Hne Hpool. unfold breed.
  assert (Hlen : 0 < len pool) by (destruct pool; [done|unfold len; cbn; lia]).
  destruct (Intn_range R HR _ g Hlen) as (r1 & g1 & -> & Hr1). cbn.
  destruct (Intn_range R HR _ g1 Hlen) as (r2 & g2 & -> & Hr2). cbn.
  destruct (index_is_Some pool r1 Hr1) as [a Ha].
  destruct (index_is_Some pool r2 Hr2) as [b Hb].
  rewrite Ha, Hb. cbn.
  apply index_Some in Ha as [_ Ha]. apply index_Some in Hb as [_ Hb].
  destruct (Forall_lookup_1 _ _ _ _ Hpool Ha) as [Hla Hpa].
  destruct (Forall_lookup_1 _ _ _ _ Hpool Hb) as [Hlb Hpb].
  assert (Hposa : 0 < len (Gene a)) by (unfold len in *; lia).
  destruct (Intn_range R HR _ g2 Hposa) as (m & g3 & Hm & Hrange).
  destruct (Shakespeare_crossover_reach R g2 a b m g3 Hm Hrange) as [Hcross _].
  rewrite Hcross by (unfold len in *; lia). cbn.
  set (c := {| Gene := splice m (Gene a) (Gene b); Fitness := fzero |}).
  destruct (Shakespeare_mutate_shape R g3 rate c HR) as (d' & g4 & -> & _ & Hmut).
  cbn.
  assert (Hc : length (Gene c) = length target).
  { cbn. rewrite splice_length by (unfold len in *; lia). unfold len in *. lia. }
  destruct (calcFitness_candidate d' target) as (d'' & -> & _ & Hd'').
  - destruct Hmut as [-> _]. done.
  - done.
  - eapply mutation_of_Forall; [exact Hmut|done|]. by apply splice_Forall.
  - cbn. by eexists _, _.
Qed.

Lemma breed_empty_pool {G} (R : rand_source G) rate target (g : G) :
  rand_contract R -> breed R rate [] target g = None.
Proof.
  intros HR. unfold breed. by rewrite (Intn_panics R HR) by done.
Qed.

Lemma naturalSelection_candidates {G} (R : rand_source G) rate pool population
    target (g : G) :
  rand_contract R -> 0 < len target -> is_int (len target) ->
  pool <> [] ->
  Forall (fun p => length (Gene p) = length target /\ Forall printable (Gene p)) pool ->
  exists next g',
    naturalSelection R rate pool population target g = Some (next, g') /\
    length next = length population /\ Forall (candidate target) next.
Proof.
  intros HR Hpos Hint Hne Hpool. unfold naturalSelection.
  set (s := make _ _).
  assert (Hs : len s = len population).
  { unfold s, make, len. rewrite length_replicate. lia. }
  destruct (fill_loop (candidate target) (breed R rate pool target) s g
              (len population)) as (s' & g' & -> & Hl & Hc); [done| |].
  { intros g1. by apply breed_candidate. }
  exists s', g'. split; [done|]. split; [unfold len in *; lia|done].
Qed.

Lemma naturalSelection_empty_pool {G} (R : rand_source G) rate population
    target (g : G) :
  rand_contract R -> population <> [] ->
  naturalSelection R rate [] population target g = None.
Proof.
  intros HR Hne. unfold naturalSelection. apply for_range_fails.
  - destruct population; [done|unfold len; cbn; lia].
  - cbv beta iota. by rewrite breed_empty_pool.
Qed.

Lemma naturalSelection_nobody {G} (R : rand_source G) rate pool target (g : G) :
  naturalSelection R rate pool [] target g = Some ([], g).
Proof. reflexivity. Qed.

End StringFacts.

(* ================================================================== *)
(** * The byte-string program: a round of the loop *)
(* ================================================================== *)

Module StringLoopFacts.
Import Notions GoFacts FloatFacts FloatSigns Measures Proportional RatioFacts.
Import BestRatioFacts Invariants LibraryFacts GenomeFacts StringFacts.
Import Shakespeare ShakespeareMain.

Lemma flt_pos_trans x y :
  flt fzero x = true -> flt x y = true -> flt fzero y = true.
Proof.
  destruct x as [[]|[]| |[] mx ex], y as [[]|[]| |[] my ey]; try done.
Qed.

(** [getBest] returns a member of the population: one of positive
    fitness, or the first when no fitness is positive. *)
Lemma getBest_member (population : list DNA) :
  population <> [] ->
  exists d, getBest population = Some d /\ d ∈ population /\
    (flt fzero (Fitness d) = true \/
     (population !! 0%nat = Some d /\
      forall d', d' ∈ population -> flt fzero (Fitness d') = false)).
Proof.
  intros Hne. unfold getBest.
  match goal with |- context [for_range ?lo ?hi ?body ?s] =>
    destruct (for_range_inv (fun j '(best, idx) =>
      (best = fzero /\ idx = 0 /\
       forall (k : nat) d, Z.of_nat k < j -> population !! k = Some d ->
         flt fzero (Fitness d) = false) \/
      (exists d, index population idx = Some d /\ Fitness d = best /\
         flt fzero best = true))
      body lo hi s) as ([best idx] & -> & Hinv)
  end.
  - apply len_nonneg.
  - left. split; [done|]. split; [done|]. intros; lia.
  - intros j [best idx] Hj Hinv.
    destruct (index_is_Some population j) as [p Hp]; [lia|].
    cbv beta iota. rewrite Hp. cbn.
    apply index_Some in Hp as Hp'. destruct Hp' as [_ Hp'].
    destruct (flt best (Fitness p)) eqn:Hcmp.
    + eexists. split; [done|]. cbv beta iota. right.
      exists p. split; [done|]. split; [done|].
      destruct Hinv as [(-> & _ & _)|(d & _ & _ & Hpos)]; [done|].
      by eapply flt_pos_trans.
    + eexists. split; [done|]. cbv beta iota.
      destruct Hinv as [(-> & -> & Hall)|Hd]; [left|by right].
      split; [done|]. split; [done|]. intros k d Hk Hd.
      destruct (decide (k = Z.to_nat j)) as [->|Hkj].
      * by simplify_eq.
      * apply (Hall k); [lia|done].
  - cbn. destruct Hinv as [(-> & -> & Hall)|(d & Hd & <- & Hpos)].
    + destruct population as [|d rest]; [done|].
      exists d. split; [done|]. split; [left|]. right. split; [done|].
      intros d' [k Hk]%list_elem_of_lookup_1. apply (Hall k); [|done].
      apply lookup_lt_Some in Hk. unfold len. lia.
    + exists d. split; [done|]. split; [|by left].
      apply index_Some in Hd as [_ Hd]. by eapply list_elem_of_lookup_2.
Qed.

(** ** An organism as fit as [maxFitness] enters the pool 100 times *)

Lemma fdiv_self_normal m e :
  2 ^ 52 <= Z.pos m < 2 ^ 53 ->
  fdiv (S754_finite false m e) (S754_finite false m e) = fone.
Proof.
  intros Hm. unfold fdiv, SFdiv. rewrite SFdiv_core_53 by lia.
  rewrite Z.mul_comm, Z.div_mul, Z.mod_mul, new_location_0 by lia.
  replace (e - e - 53) with (-53) by lia. reflexivity.
Qed.

Lemma normalise_normal R E :
  2 ^ 52 <= R <= 2 ^ 53 ->
  exists m e, normalise R E = S754_finite false m e /\ 2 ^ 52 <= Z.pos m < 2 ^ 53.
Proof.
  intros HR. unfold normalise. destruct (Z.eqb_spec R (2 ^ 53)) as [->|Hne].
  - eexists _, _. split; [done|]. lia.
  - eexists _, _. split; [done|]. rewrite Z2Pos.id by lia. lia.
Qed.

Lemma fdiv_int_float_normal x y :
  int_float x -> int_float y ->
  exists m e, fdiv x y = S754_finite false m e /\ 2 ^ 52 <= Z.pos m < 2 ^ 53.
Proof.
  intros (m1 & e1 & -> & Hm1 & He1) (m2 & e2 & -> & Hm2 & He2).
  unfold fdiv, SFdiv. rewrite SFdiv_core_53 by lia.
  cbv beta iota. cbn [xorb].
  set (q := Z.pos m1 * 2 ^ 53 / Z.pos m2).
  set (l := new_location _ _).
  assert (Hq : 2 ^ 52 <= q < 2 ^ 54).
  { unfold q. split.
    - apply Z.div_le_lower_bound; [lia|]. nia.
    - apply Z.div_lt_upper_bound; [lia|]. nia. }
  destruct (Z_lt_le_dec q (2 ^ 53)) as [Hlt|Hge].
  - destruct (binary_round_aux_normal q (e1 - e2 - 53) l 0)
      as (R & _ & _ & HR & ->); [lia|cbn; lia|lia|lia|]. by apply normalise_normal.
  - destruct (binary_round_aux_normal q (e1 - e2 - 53) l 1)
      as (R & _ & _ & HR & ->); [lia|cbn; lia|lia|lia|]. by apply normalise_normal.
Qed.

Lemma copies_self `{Platform} m e :
  2 ^ 52 <= Z.pos m < 2 ^ 53 ->
  copies (S754_finite false m e) (S754_finite false m e) = 100.
Proof. intros Hm. unfold copies. by rewrite fdiv_self_normal. Qed.

(** The fitness of an evaluated organism is positive exactly when a
    byte of its genome is right, and then it is a normal float. *)
Lemma evaluated_positive target d :
  0 < len (Gene d) -> is_int (len (Gene d)) ->
  flt fzero (Fitness (evaluated target d)) = true ->
  exists m e, Fitness (evaluated target d) = S754_finite false m e /\
    2 ^ 52 <= Z.pos m < 2 ^ 53.
Proof.
  intros Hpos Hint. unfold is_int in Hint. cbn.
  pose proof (matches_range (Gene d) target) as Hr.
  destruct (Z.eq_dec (matches (Gene d) target) 0) as [->|Hne].
  - change (float64_of_int 0) with fzero.
    rewrite fdiv_zero by (apply float64_of_int_int_float; lia). done.
  - intros _. apply fdiv_int_float_normal; apply float64_of_int_int_float; lia.
Qed.

Lemma evaluated_no_match target d :
  0 < len (Gene d) -> is_int (len (Gene d)) ->
  matches (Gene d) target = 0 -> Fitness (evaluated target d) = fzero.
Proof.
  intros Hpos Hint Hm. unfold is_int in Hint. cbn. rewrite Hm.
  change (float64_of_int 0) with fzero.
  apply fdiv_zero, float64_of_int_int_float. lia.
Qed.

(** Not a number converts to what the platform yields. *)
Lemma copies_nan `{Platform} : copies fzero fzero = unrepresentable S754_nan.
Proof. reflexivity. Qed.

(** ** The pool of a population of candidates *)

Lemma evaluated_candidate target d : candidate target d -> evaluated target d = d.
Proof. by intros (_ & _ & <-). Qed.

Lemma evaluated_candidates target population :
  Forall (candidate target) population -> evaluated target <$> population = population.
Proof.
  induction 1 as [|d l Hd Hl IH]; [done|].
  cbn [fmap list_fmap]. fold (fmap (evaluated target) l).
  by rewrite IH, evaluated_candidate.
Qed.

Lemma createPool_candidates `{Platform} population target maxFitness :
  Forall (candidate target) population -> is_int (len target) ->
  createPool population target maxFitness
  = Some (population,
          flat_map (fun p => replicate (Z.to_nat (copies (Fitness p) maxFitness)) p)
            population).
Proof.
  intros Hc Hint. rewrite createPool_spec; [|
    eapply Forall_impl; [|exact Hc]; by intros d (? & _) | done].
  by rewrite evaluated_candidates.
Qed.

(** ** A round of the loop *)

Lemma generation_round {G} `{Platform} (R : rand_source G) rate target
    population (g : G) :
  rand_contract R -> 0 < len target -> is_int (len target) ->
  population <> [] -> Forall (candidate target) population ->
  exists best,
    getBest population = Some best /\ best ∈ population /\
    (Gene best = target ->
       generation R rate target population g = Some (true, population, g)) /\
    (Gene best <> target ->
       (flt fzero (Fitness best) = true ->
          exists next g',
            generation R rate target population g = Some (false, next, g') /\
            length next = length population /\ Forall (candidate target) next) /\
       (flt fzero (Fitness best) = false ->
          (unrepresentable S754_nan <= 0 ->
             generation R rate target population g = None) /\
          forall found next g',
            generation R rate target population g = Some (found, next, g') ->
            found = false /\ length next = length population /\
            Forall (candidate target) next)).
Proof.
  intros HR Hpos Hint Hne Hc.
  destruct (getBest_member population Hne) as (best & Hbest & Hin & Hcase).
  exists best. split; [done|]. split; [done|].
  unfold generation. rewrite Hbest. cbn [mbind option_bind].
  assert (Hshape : Forall (fun p => length (Gene p) = length target /\
                                    Forall printable (Gene p)) population).
  { eapply Forall_impl; [|exact Hc]. by intros d (? & ? & _). }
  split.
  - intros E. apply bytes_Compare_eq in E. by rewrite E.
  - intros NE.
    destruct (Z.eqb_spec (bytes_Compare (Gene best) target) 0) as [E|_];
      [by apply bytes_Compare_eq in E|].
    cbv zeta. rewrite createPool_candidates by done. cbn [mbind option_bind].
    set (pool := flat_map _ population).
    assert (Hpool : Forall (fun p => length (Gene p) = length target /\
                                     Forall printable (Gene p)) pool).
    { by apply pool_members. }
    rewrite Forall_forall in Hc.
    pose proof (Hc best (proj1 (list_elem_of_In _ _) Hin)) as (Hlb & _ & Hev).
    split.
    + intros Hfit.
      assert (Hpne : pool <> []).
      { apply (pool_nonempty _ _ best); [done|].
        rewrite Hev in Hfit.
        destruct (evaluated_positive target best) as (m & e & Hm & Hrange);
          [unfold len in *; lia|unfold is_int, len in *; lia|done|].
        rewrite <- Hev in Hm. rewrite Hm, copies_self by done. lia. }
      destruct (naturalSelection_candidates R rate pool population target g)
        as (next & g' & -> & Hl & Hn); try done.
      cbn. by exists next, g'.
    + intros Hfit. destruct Hcase as [Hp|[_ Hall]]; [congruence|].
      assert (Hzero : forall d, d ∈ population -> Fitness d = fzero).
      { intros d Hd. pose proof (Hall d Hd) as Hd0.
        pose proof (Hc d (proj1 (list_elem_of_In _ _) Hd)) as (Hld & _ & Hevd).
        destruct (evaluated_zero_or_positive target d) as [Hz|(m & e & Hm)];
          [unfold len in *; lia|unfold is_int, len in *; lia| |].
        - by rewrite Hevd.
        - rewrite Hevd, Hm in Hd0. done. }
      split.
      * intros Hnan.
        assert (Hpe : pool = []).
        { apply pool_empty. apply Forall_forall. intros d Hd%list_elem_of_In.
          rewrite (Hzero d Hd), (Hzero best Hin), copies_nan. lia. }
        rewrite Hpe, naturalSelection_empty_pool by done. done.
      * intros found next g' Hgen.
        destruct (decide (pool = [])) as [Hpe|Hpne].
        { rewrite Hpe, naturalSelection_empty_pool in Hgen by done. done. }
        destruct (naturalSelection_candidates R rate pool population target g)
          as (next' & g'' & Hnat & Hl & Hn); try done.
        rewrite Hnat in Hgen. cbn in Hgen. by simplify_eq.
Qed.

End StringLoopFacts.

(* ================================================================== *)
(** * The byte-string program: how large the pool gets *)
(* ================================================================== *)

Module PoolSizeFacts.
Import Notions GoFacts FloatFacts FloatSigns Measures Proportional RatioFacts.
Import BestRatioFacts Invariants LibraryFacts StringLoopFacts.
Import Shakespeare.

(** The quotient of two normal floats: normal again, and at most one
    when the divisor is the greater. *)
Lemma fdiv_normal m1 e1 m2 e2 :
  2 ^ 52 <= Z.pos m1 < 2 ^ 53 -> 2 ^ 52 <= Z.pos m2 < 2 ^ 53 ->
  -900 <= e1 - e2 <= 900 ->
  exists mq eq,
    fdiv (S754_finite false m1 e1) (S754_finite false m2 e2) = S754_finite false mq eq /\
    2 ^ 52 <= Z.pos mq < 2 ^ 53 /\
    e1 - e2 - 53 <= eq <= e1 - e2 - 51 /\
    (fle (S754_finite false m1 e1) (S754_finite false m2 e2) = true ->
     eq < -52 \/ (eq = -52 /\ Z.pos mq = 2 ^ 52)).
Proof.
  intros Hm1 Hm2 He.
  assert (Hnorm : forall R E, 2 ^ 52 <= R <= 2 ^ 53 ->
    exists mq eq, normalise R E = S754_finite false mq eq /\
      2 ^ 52 <= Z.pos mq < 2 ^ 53 /\ E <= eq <= E + 1 /\
      (E <= -53 -> eq < -52 \/ (eq = -52 /\ Z.pos mq = 2 ^ 52))).
  { intros R E HR. unfold normalise. destruct (Z.eqb_spec R (2 ^ 53)) as [->|Hne].
    - eexists _, _. split; [done|]. split; [lia|]. split; [lia|].
      intros HE. destruct (Z.eq_dec E (-53)) as [->|]; [right|left; lia]. done.
    - eexists _, _. split; [done|]. rewrite Z2Pos.id by lia.
      split; [lia|]. split; [lia|]. intros HE. left. lia. }
  destruct (decide (e1 = e2 /\ m1 = m2)) as [[-> ->]|Hne].
  { rewrite fdiv_self_normal by done. eexists _, _. split; [done|].
    split; [done|]. split; [lia|]. intros _. by right. }
  unfold fdiv, SFdiv. rewrite SFdiv_core_53 by lia.
  cbv beta iota. cbn [xorb].
  set (q := Z.pos m1 * 2 ^ 53 / Z.pos m2).
  set (l := new_location _ _).
  assert (Hq : 2 ^ 52 <= q < 2 ^ 54).
  { unfold q. split.
    - apply Z.div_le_lower_bound; [lia|]. nia.
    - apply Z.div_lt_upper_bound; [lia|]. nia. }
  destruct (Z_lt_le_dec q (2 ^ 53)) as [Hlt|Hge].
  - destruct (binary_round_aux_normal q (e1 - e2 - 53) l 0)
      as (R & _ & _ & HR & ->); [lia|cbn; lia|lia|lia|].
    destruct (Hnorm R (e1 - e2 - 53 + 0) HR) as (mq & eq & -> & Hmq & Heq & Hone).
    exists mq, eq. split; [done|]. split; [done|]. split; [lia|].
    intros Hle%fle_finite. apply Hone. lia.
  - destruct (binary_round_aux_normal q (e1 - e2 - 53) l 1)
      as (R & _ & _ & HR & ->); [lia|cbn; lia|lia|lia|].
    destruct (Hnorm R (e1 - e2 - 53 + 1) HR) as (mq & eq & -> & Hmq & Heq & Hone).
    exists mq, eq. split; [done|]. split; [done|]. split; [lia|].
    intros Hle%fle_finite. apply Hone.
    assert (e1 < e2); [|lia].
    destruct Hle as [|[-> Hm]]; [done|]. exfalso.
    assert (m1 <> m2) by (intros ->; by apply Hne).
    assert (Z.pos m1 < Z.pos m2) by lia.
    assert (q < 2 ^ 53); [|lia].
    unfold q. apply Z.div_lt_upper_bound; [lia|]. nia.
Qed.

(** The integer part of a normalised float below [2^63]. *)
Lemma trunc_normalise R E :
  2 ^ 52 <= R <= 2 ^ 53 -> E <= -1 ->
  trunc (normalise R E) = Some (R / 2 ^ (- E)).
Proof.
  intros HR HE. unfold normalise. destruct (Z.eqb_spec R (2 ^ 53)) as [->|Hne].
  - cbn [trunc cond_Zopp]. f_equal.
    destruct (Z.eq_dec E (-1)) as [->|HE1]; [done|].
    rewrite Z.shiftl_div_pow2 by lia.
    replace (- E) with (1 + - (E + 1)) by lia.
    rewrite Z.pow_add_r by lia.
    rewrite <- Z.div_div by lia. done.
  - cbn [trunc cond_Zopp]. rewrite Z2Pos.id by lia. f_equal.
    apply Z.shiftl_div_pow2. lia.
Qed.

(** A float that is at most one, times 100, has an integer part of at
    most 100. *)
Lemma trunc_percent mq eq :
  2 ^ 52 <= Z.pos mq < 2 ^ 53 -> -1000 <= eq ->
  eq < -52 \/ (eq = -52 /\ Z.pos mq = 2 ^ 52) ->
  exists z, trunc (fmul (S754_finite false mq eq) f100) = Some z /\ 0 <= z <= 100.
Proof.
  intros Hmq Hlo Hone.
  change f100 with (S754_finite false 7036874417766400 (-46)).
  unfold fmul, SFmul. cbn [xorb].
  set (m100 := 7036874417766400).
  change (Z.pos (mq * 7036874417766400)) with (Z.pos mq * m100).
  set (p := Z.pos mq * m100).
  assert (Hp : 2 ^ 104 <= p < 2 ^ 106) by (unfold p, m100; lia).
  assert (Hres : forall k, (k = 52 \/ k = 53) -> 2 ^ (52 + k) <= p < 2 ^ (53 + k) ->
    p / 2 ^ k + 1 < 101 * 2 ^ (46 - eq - k) ->
    exists z, trunc (binary_round_aux prec emax false p (eq + -46) loc_Exact) = Some z /\
      0 <= z <= 100).
  { intros k Hk Hpk Hbound.
    destruct (binary_round_aux_normal p (eq + -46) loc_Exact k)
      as (R & _ & HRv & HR & ->); [lia|done|lia|lia|].
    rewrite trunc_normalise by (done || lia).
    replace (- (eq + -46 + k)) with (46 - eq - k) by lia.
    assert (0 < 2 ^ (46 - eq - k)) by (apply Z.pow_pos_nonneg; lia).
    eexists. split; [reflexivity|]. split.
    - apply Z.div_pos; lia.
    - assert (R / 2 ^ (46 - eq - k) < 101); [|lia].
      apply Z.div_lt_upper_bound; lia. }
  destruct Hone as [Hlt|[-> Hm]].
  - destruct (Z_lt_le_dec p (2 ^ 105)) as [Hp105|Hp105].
    + apply (Hres 52); [by left|cbn; lia|].
      assert (p / 2 ^ 52 < 2 ^ 53) by (apply Z.div_lt_upper_bound; lia).
      assert (2 ^ 47 <= 2 ^ (46 - eq - 52)) by (apply Z.pow_le_mono_r; lia).
      lia.
    + apply (Hres 53); [by right|cbn; lia|].
      assert (p / 2 ^ 53 < m100).
      { apply Z.div_lt_upper_bound; [lia|]. unfold p. nia. }
      assert (2 ^ 46 <= 2 ^ (46 - eq - 53)) by (apply Z.pow_le_mono_r; lia).
      unfold m100 in *. lia.
  - apply (Hres 52); [by left|unfold p, m100; rewrite Hm; cbn; lia|].
    unfold p. rewrite Hm. vm_compute. done.
Qed.

(** A match ratio is zero or a normal float with an exponent from -116
    to -52. *)
Lemma evaluated_normal target d :
  0 < len (Gene d) -> is_int (len (Gene d)) ->
  Fitness (evaluated target d) = fzero \/
  exists m e, Fitness (evaluated target d) = S754_finite false m e /\
    2 ^ 52 <= Z.pos m < 2 ^ 53 /\ -116 <= e <= -52.
Proof.
  intros Hpos Hint. unfold is_int in Hint. cbn.
  pose proof (matches_range (Gene d) target) as Hr.
  destruct (Z.eq_dec (matches (Gene d) target) 0) as [->|Hne].
  - left. change (float64_of_int 0) with fzero.
    apply fdiv_zero, float64_of_int_int_float. lia.
  - right.
    assert (Hle : fle (float64_of_int (matches (Gene d) target))
                      (float64_of_int (len (Gene d))) = true).
    { apply float64_of_int_mono; [lia|].
      assert (2 ^ 63 <= 2 ^ 1000) by (apply Z.pow_le_mono_r; lia). lia. }
    destruct (float64_of_int_int_float (matches (Gene d) target))
      as (m1 & e1 & E1 & Hm1 & He1); [lia|].
    destruct (float64_of_int_int_float (len (Gene d)))
      as (m2 & e2 & E2 & Hm2 & He2); [lia|].
    rewrite E1, E2 in *.
    destruct (fdiv_normal m1 e1 m2 e2) as (mq & eq & -> & Hmq & Heq & Hone);
      [done|done|lia|].
    exists mq, eq. split; [done|]. split; [done|].
    specialize (Hone Hle). lia.
Qed.

(** The copies of an organism that is not fitter than [maxFitness]. *)
Lemma copies_percent `{Platform} target d mx ex :
  0 < len (Gene d) -> is_int (len (Gene d)) ->
  2 ^ 52 <= Z.pos mx < 2 ^ 53 -> -116 <= ex <= -52 ->
  fle (Fitness (evaluated target d)) (S754_finite false mx ex) = true ->
  0 <= copies (Fitness (evaluated target d)) (S754_finite false mx ex) <= 100.
Proof.
  intros Hpos Hint Hmx Hex Hle.
  destruct (evaluated_normal target d Hpos Hint) as [->|(m & e & Hf & Hm & He)].
  { by rewrite copies_zero. }
  rewrite Hf in *. unfold copies.
  destruct (fdiv_normal m e mx ex) as (mq & eq & -> & Hmq & Heq & Hone);
    [done|done|lia|].
  destruct (trunc_percent mq eq) as (z & Hz & Hrange); [done|lia|by apply Hone|].
  rewrite (int_of_float64_trunc _ z) by (done || lia). done.
Qed.

Lemma total_bounds {A} (w : A -> Z) (l : list A) lo hi :
  Forall (fun x => lo <= w x <= hi) l ->
  lo * len l <= total w l <= hi * len l.
Proof.
  unfold len. induction 1 as [|x l Hx Hl IH]; cbn [total foldr length]; [lia|].
  fold (total w l). lia.
Qed.

Lemma total_member {A} (w : A -> Z) (l : list A) x :
  Forall (fun x => 0 <= w x) l -> x ∈ l -> w x <= total w l.
Proof.
  induction 1 as [|y l Hy Hl IH]; [by intros ?%elem_of_nil|].
  pose proof (total_bounds w l 0 (total w l)) as Hb.
  assert (0 <= total w l).
  { clear -Hl. induction Hl as [|z l Hz Hl IH]; cbn [total foldr]; [lia|].
    fold (total w l). lia. }
  cbn [total foldr]. fold (total w l).
  intros [->|Hx]%elem_of_cons; [lia|]. specialize (IH Hx). lia.
Qed.

End PoolSizeFacts.

(* ================================================================== *)
(** * The byte-string program: when the target is found *)
(* ================================================================== *)

Module FoundFacts.
Import Notions GoFacts FloatFacts FloatSigns Measures Proportional RatioFacts.
Import BestRatioFacts Invariants LibraryFacts StringLoopFacts.
Import Shakespeare.

(** An integer of at most 53 bits as a float: its mantissa. *)
Lemma float64_of_int_exact s d :
  2 ^ (d - 1) <= s < 2 ^ d -> 0 < d <= 53 ->
  exists m, float64_of_int s = S754_finite false m (d - 53) /\
    Z.pos m = s * 2 ^ (53 - d) /\ 2 ^ 52 <= Z.pos m < 2 ^ 53.
Proof.
  intros Hs Hd.
  assert (0 < 2 ^ (d - 1)) by (apply Z.pow_pos_nonneg; lia).
  assert (0 < 2 ^ (53 - d)) by (apply Z.pow_pos_nonneg; lia).
  assert (Hlo : 2 ^ (d - 1) * 2 ^ (53 - d) = 2 ^ 52).
  { rewrite <- Z.pow_add_r by lia. f_equal. lia. }
  assert (Hhi : 2 ^ d * 2 ^ (53 - d) = 2 ^ 53).
  { rewrite <- Z.pow_add_r by lia. f_equal. lia. }
  assert (HM : 2 ^ 52 <= s * 2 ^ (53 - d) < 2 ^ 53) by nia.
  exists (Z.to_pos (s * 2 ^ (53 - d))).
  unfold float64_of_int. rewrite (ldexp_exact s 0 d) by lia.
  split; [f_equal; lia|]. rewrite Z2Pos.id by lia. done.
Qed.

(** The ratio of a part to a larger whole of less than [2^53] is a
    float below one. *)
Lemma ratio_below_one s n :
  0 < s < n -> n < 2 ^ 53 ->
  exists mq eq,
    fdiv (float64_of_int s) (float64_of_int n) = S754_finite false mq eq /\
    eq < -52.
Proof.
  intros Hs Hn.
  destruct (digits_exist s) as (d1 & Hd1 & B1); [lia|].
  destruct (digits_exist n) as (d2 & Hd2 & B2); [lia|].
  pose proof (digits_mono _ _ _ _ B1 B2 ltac:(lia)) as Hd.
  assert (d2 <= 53).
  { destruct (Z_lt_le_dec 53 d2); [|lia].
    assert (2 ^ 53 <= 2 ^ (d2 - 1)) by (apply Z.pow_le_mono_r; lia). lia. }
  destruct (float64_of_int_exact s d1) as (m1 & -> & E1 & Hm1); [done|lia|].
  destruct (float64_of_int_exact n d2) as (m2 & -> & E2 & Hm2); [done|lia|].
  unfold fdiv, SFdiv. rewrite SFdiv_core_53 by lia.
  cbv beta iota. cbn [xorb].
  set (q := Z.pos m1 * 2 ^ 53 / Z.pos m2).
  set (l := new_location _ _).
  assert (Hq : 2 ^ 52 <= q < 2 ^ 54).
  { unfold q. split.
    - apply Z.div_le_lower_bound; [lia|]. nia.
    - apply Z.div_lt_upper_bound; [lia|]. nia. }
  assert (Hnorm : forall R E, 2 ^ 52 <= R <= 2 ^ 53 ->
    (E < -53 \/ (E = -53 /\ R < 2 ^ 53)) ->
    exists mq eq, normalise R E = S754_finite false mq eq /\ eq < -52).
  { intros R E HR HE. unfold normalise.
    destruct (Z.eqb_spec R (2 ^ 53)) as [->|Hne]; eexists _, _; (split; [done|]); lia. }
  replace (d1 - 53 - (d2 - 53) - 53) with (d1 - d2 - 53) by lia.
  destruct (Z_lt_le_dec q (2 ^ 53)) as [Hlt|Hge].
  - destruct (binary_round_aux_normal q (d1 - d2 - 53) l 0)
      as (R & _ & HRv & HR & ->); [lia|cbn; lia|lia|lia|].
    apply Hnorm; [done|].
    destruct (Z.eq_dec d1 d2) as [->|Hne]; [right|left; lia].
    split; [lia|].
    assert (Z.pos m1 + 1 <= Z.pos m2).
    { rewrite E1, E2.
      assert (0 < 2 ^ (53 - d2)) by (apply Z.pow_pos_nonneg; lia). nia. }
    assert (q < 2 ^ 53 - 1).
    { unfold q. apply Z.div_lt_upper_bound; [lia|]. nia. }
    rewrite Z.pow_0_r, Z.div_1_r in HRv. lia.
  - assert (Hlt : d1 < d2).
    { destruct (Z.eq_dec d1 d2) as [->|]; [|lia]. exfalso.
      assert (Z.pos m1 < Z.pos m2).
      { rewrite E1, E2.
        assert (0 < 2 ^ (53 - d2)) by (apply Z.pow_pos_nonneg; lia). nia. }
      assert (q < 2 ^ 53); [|lia].
      unfold q. apply Z.div_lt_upper_bound; [lia|]. nia. }
    destruct (binary_round_aux_normal q (d1 - d2 - 53) l 1)
      as (R & _ & HRv & HR & ->); [lia|cbn; lia|lia|lia|].
    apply Hnorm; [done|].
    destruct (Z.eq_dec (d1 + 1) d2) as [<-|Hne]; [right|left; lia].
    split; [lia|].
    assert (Heven : Z.pos m1 = 2 * (s * 2 ^ (53 - (d1 + 1)))).
    { rewrite E1. replace (53 - d1) with (1 + (53 - (d1 + 1))) by lia.
      rewrite Z.pow_add_r by lia. lia. }
    assert (Z.pos m1 <= 2 ^ 53 - 2) by lia.
    assert (q <= 2 ^ 54 - 4).
    { unfold q. apply Z.div_le_upper_bound; [lia|]. nia. }
    assert (q / 2 ^ 1 <= 2 ^ 53 - 2).
    { apply Z.div_le_upper_bound; lia. }
    lia.
Qed.

Lemma matches_full g t :
  length g = length t -> matches g t = len g -> g = t.
Proof.
  unfold len. revert t. induction g as [|x g IH]; intros [|y t] Hlen Hm; try done.
  cbn [matches length] in Hm. pose proof (matches_range g t) as Hr. unfold len in Hr.
  destruct (Byte.eqb x y) eqn:E; [|lia].
  apply Byte.byte_dec_bl in E as ->. f_equal.
  apply IH; [cbn in Hlen; lia|lia].
Qed.

(** The Fitness of an evaluated organism is 1.0 exactly when its genome
    is the target. *)
Lemma evaluated_one target d :
  length (Gene d) = length target -> 0 < len target < 2 ^ 53 ->
  Fitness (evaluated target d) = fone <-> Gene d = target.
Proof.
  intros Hlen Hn. cbn. split.
  - intros Hone. apply matches_full; [done|].
    pose proof (matches_range (Gene d) target) as Hr.
    destruct (Z.eq_dec (matches (Gene d) target) (len (Gene d))) as [|Hne]; [done|].
    exfalso.
    destruct (Z.eq_dec (matches (Gene d) target) 0) as [E|Hne0].
    + rewrite E in Hone. change (float64_of_int 0) with fzero in Hone.
      rewrite fdiv_zero in Hone; [done|].
      apply float64_of_int_int_float. unfold len in *. lia.
    + destruct (ratio_below_one (matches (Gene d) target) (len (Gene d)))
        as (mq & eq & Hq & Heq); [lia|unfold len in *; lia|].
      rewrite Hq in Hone. injection Hone as _ ->. lia.
  - intros <-. rewrite matches_diag. apply ratio_one. unfold len in *. lia.
Qed.

(** ** [getBest] returns the first of the fittest *)

Lemma flt_fzero_positive x :
  zero_or_positive x -> flt fzero x = false -> x = fzero.
Proof. by intros [->|(m & e & ->)]. Qed.

Lemma fle_flt_flt x y z :
  zero_or_positive x -> zero_or_positive y -> zero_or_positive z ->
  fle x y = true -> flt y z = true -> flt x z = true.
Proof.
  intros [->|(m1 & e1 & ->)] [->|(m2 & e2 & ->)] [->|(m3 & e3 & ->)]; try done.
  intros H1%fle_finite H2%flt_finite. apply flt_finite. lia.
Qed.

Lemma getBest_first_greatest (population : list DNA) :
  population <> [] ->
  Forall (fun d => zero_or_positive (Fitness d)) population ->
  exists (i : nat) best,
    population !! i = Some best /\ getBest population = Some best /\
    (forall d, d ∈ population -> fle (Fitness d) (Fitness best) = true) /\
    (forall (k : nat) d, (k < i)%nat -> population !! k = Some d ->
       flt (Fitness d) (Fitness best) = true).
Proof.
  intros Hne Hfit. rewrite Forall_forall in Hfit.
  assert (Hzp : forall d, d ∈ population -> zero_or_positive (Fitness d)).
  { intros d Hd. apply Hfit. by apply list_elem_of_In. }
  unfold getBest.
  match goal with |- context [for_range ?lo ?hi ?body ?s] =>
    destruct (for_range_inv (fun j '(best, idx) =>
      (j = 0 /\ best = fzero /\ idx = 0) \/
      (exists d, 0 <= idx < j /\ population !! Z.to_nat idx = Some d /\
         Fitness d = best /\
         (forall (k : nat) d', Z.of_nat k < j -> population !! k = Some d' ->
            fle (Fitness d') best = true) /\
         (forall (k : nat) d', Z.of_nat k < idx -> population !! k = Some d' ->
            flt (Fitness d') best = true)))
      body lo hi s) as ([best idx] & -> & Hinv)
  end.
  - apply len_nonneg.
  - by left.
  - intros j [best idx] Hj Hinv.
    destruct (index_is_Some population j) as [p Hp]; [lia|].
    cbv beta iota. rewrite Hp. cbn.
    apply index_Some in Hp as Hp'. destruct Hp' as [_ Hp'].
    pose proof (Hzp p (list_elem_of_lookup_2 _ _ _ Hp')) as Hpz.
    destruct (flt best (Fitness p)) eqn:Hcmp.
    + eexists. split; [done|]. cbv beta iota. right.
      exists p. split; [lia|]. split; [done|]. split; [done|].
      destruct Hinv as [(-> & -> & ->)|(d & Hidx & Hd & <- & Hall & Hbefore)].
      { split; intros k d' Hk Hd'; [|lia].
        replace k with (Z.to_nat 0) in Hd' by lia. simplify_eq. by apply fle_refl. }
      pose proof (Hzp d (list_elem_of_lookup_2 _ _ _ Hd)) as Hdz.
      split; intros k d' Hk Hd'.
      * destruct (decide (k = Z.to_nat j)) as [->|Hkj].
        -- simplify_eq. by apply fle_refl.
        -- apply (fle_flt_trans _ (Fitness d)); try done.
           ++ apply Hzp. by eapply list_elem_of_lookup_2.
           ++ apply (Hall k d'); [lia|done].
      * apply (fle_flt_flt _ (Fitness d)); try done.
        -- apply Hzp. by eapply list_elem_of_lookup_2.
        -- apply (Hall k d'); [lia|done].
    + eexists. split; [done|]. cbv beta iota. right.
      destruct Hinv as [(-> & -> & ->)|(d & Hidx & Hd & <- & Hall & Hbefore)].
      { pose proof (flt_fzero_positive _ Hpz Hcmp) as Hp0.
        exists p. split; [lia|]. split; [done|]. split; [done|].
        split; intros k d' Hk Hd'; [|lia].
        replace k with (Z.to_nat 0) in Hd' by lia.
        assert (d' = p) as -> by congruence. by rewrite Hp0. }
      pose proof (Hzp d (list_elem_of_lookup_2 _ _ _ Hd)) as Hdz.
      exists d. split; [lia|]. split; [done|]. split; [done|].
      split; [|done]. intros k d' Hk Hd'.
      destruct (decide (k = Z.to_nat j)) as [->|Hkj].
      * simplify_eq. by apply not_flt_fle.
      * apply (Hall k d'); [lia|done].
  - cbn. destruct Hinv as [(Hlen & _ & _)|(d & Hidx & Hd & <- & Hall & Hbefore)].
    { destruct population; [done|]. unfold len in Hlen. cbn in Hlen. lia. }
    exists (Z.to_nat idx), d. split; [done|]. split.
    { unfold index. by rewrite bool_decide_true by lia. }
    split.
    + intros d' [k Hk]%list_elem_of_lookup_1. apply (Hall k); [|done].
      apply lookup_lt_Some in Hk. unfold len. lia.
    + intros k d' Hk Hd'. apply (Hbefore k); [lia|done].
Qed.

End FoundFacts.

Section StringStatements.
Import Notions GoFacts FloatFacts FloatSigns Measures Proportional RatioFacts.
Import BestRatioFacts Invariants LibraryFacts GenomeFacts StringFacts StringLoopFacts.
Import PoolSizeFacts FoundFacts Shakespeare ShakespeareMain.

(** The first population of the byte-string program. For a
    non-negative [PopSize], [createPopulation] returns [PopSize]
    organisms made by [createDNA]: each has a genome as long as the
    target, of printable ASCII bytes (32 to 126), and the match ratio of
    that genome as Fitness. A negative [PopSize] panics. *)
Theorem Shakespeare_createPopulation_candidates {G} (R : rand_source G)
    (PopSize : Z) (target : list byte) (g : G) :
  rand_contract R ->
  is_int (len target) ->
  (0 <= PopSize ->
     exists population g',
       createPopulation R PopSize target g = Some (population, g') /\
       len population = PopSize /\
       Forall (candidate target) population) /\
  (PopSize < 0 -> createPopulation R PopSize target g = None).
Proof.
  intros HR Hint. split.
  - intros Hn. by apply createPopulation_candidates.
  - apply createPopulation_negative.
Qed.

Lemma Shakespeare_createPopulation_candidates_witness :
  exists population g',
    createPopulation lcg PopSize target 2024 = Some (population, g') /\
    len population = PopSize /\
    Forall (candidate target) population.
Proof.
  apply (Shakespeare_createPopulation_candidates lcg PopSize target 2024).
  - exact lcg_contract.
  - split; [discriminate | reflexivity].
  - discriminate.
Defined.

(** [mutate] of the byte-string program, at any rate: it returns,
    leaves Fitness as it was, keeps the length of the genome, and every
    byte of the result is the byte that was there or a printable ASCII
    byte (32 to 126). *)
Theorem Shakespeare_mutate_writes_printable {G} (R : rand_source G)
    (rate : float64) (d : DNA) (g : G) :
  rand_contract R ->
  exists d' g',
    mutate R rate d g = Some (d', g') /\
    Fitness d' = Fitness d /\
    length (Gene d') = length (Gene d) /\
    forall (i : nat) x, Gene d' !! i = Some x ->
      Gene d !! i = Some x \/ printable x.
Proof.
  intros HR.
  destruct (Shakespeare_mutate_shape R g rate d HR) as (d' & g' & E & Hf & Hl & Hm).
  by exists d', g'.
Qed.

Lemma Shakespeare_mutate_writes_printable_witness :
  exists d' g',
    mutate lcg fone Parents.mother 2024 = Some (d', g') /\
    Fitness d' = Fitness Parents.mother /\
    length (Gene d') = length (Gene Parents.mother) /\
    forall (i : nat) x, Gene d' !! i = Some x ->
      Gene Parents.mother !! i = Some x \/ printable x.
Proof.
  apply (Shakespeare_mutate_writes_printable lcg fone Parents.mother 2024).
  exact lcg_contract.
Defined.

(** The next generation of the byte-string program. From a pool that
    is not empty, whose genomes are as long as the (non-empty) target
    and printable, [naturalSelection] returns as many children as the
    population has organisms; every child has a genome of the target's
    length, of printable bytes, and its Fitness is the match ratio of
    its genome. *)
Theorem Shakespeare_naturalSelection_children {G} (R : rand_source G)
    (rate : float64) (pool population : list DNA) (target : list byte) (g : G) :
  rand_contract R ->
  0 < len target -> is_int (len target) ->
  pool <> [] ->
  Forall (fun p => length (Gene p) = length target /\ Forall printable (Gene p)) pool ->
  exists next g',
    naturalSelection R rate pool population target g = Some (next, g') /\
    length next = length population /\
    Forall (candidate target) next.
Proof. apply naturalSelection_candidates. Qed.

Lemma Shakespeare_naturalSelection_children_witness :
  exists next g',
    naturalSelection lcg MutationRate candidates candidates abc 2024 = Some (next, g') /\
    length next = length candidates /\
    Forall (candidate abc) next.
Proof.
  apply (Shakespeare_naturalSelection_children lcg MutationRate candidates candidates
           abc 2024).
  - exact lcg_contract.
  - reflexivity.
  - split; [discriminate | reflexivity].
  - discriminate.
  - repeat (apply Forall_cons_2 || apply Forall_nil_2);
      (split; [reflexivity|]);
      repeat (apply Forall_cons_2 || apply Forall_nil_2);
      (split; [discriminate | reflexivity]).
Defined.

(** How large the pool of the byte-string program gets. When
    [createPool] is called as [main] calls it, with the (positive)
    Fitness of an organism of the population that no other organism
    exceeds, on a population of organisms as the program keeps them:
    no organism enters the pool more than 100 times and that organism
    enters it exactly 100 times, so the pool has at least 100 members
    and at most 100 times the size of the population. *)
Theorem Shakespeare_createPool_pool_size `{Platform}
    (population : list DNA) (target : list byte) (best : DNA) :
  0 < len target -> is_int (len target) ->
  Forall (candidate target) population ->
  best ∈ population ->
  flt fzero (Fitness best) = true ->
  Forall (fun d => fle (Fitness d) (Fitness best) = true) population ->
  exists pool,
    createPool population target (Fitness best) = Some (population, pool) /\
    (forall d, d ∈ population -> 0 <= copies (Fitness d) (Fitness best) <= 100) /\
    copies (Fitness best) (Fitness best) = 100 /\
    100 <= len pool <= 100 * len population.
Proof.
  intros Hpos Hint Hc Hin Hfit Hmax. unfold is_int in Hint.
  rewrite createPool_candidates by done. eexists. split; [reflexivity|].
  rewrite Forall_forall in Hc, Hmax.
  assert (Hcd : forall d, d ∈ population ->
            0 < len (Gene d) /\ is_int (len (Gene d)) /\
            Fitness d = Fitness (evaluated target d)).
  { intros d Hd%list_elem_of_In. destruct (Hc d Hd) as (Hl & _ & Hev).
    unfold is_int, len in *. split; [lia|]. split; [lia|]. by rewrite <- Hev. }
  destruct (Hcd best Hin) as (Hbpos & Hbint & Hbev).
  destruct (evaluated_normal target best Hbpos Hbint) as [Hz|(mx & ex & Hb & Hmx & Hex)].
  { rewrite Hbev, Hz in Hfit. done. }
  rewrite <- Hbev in Hb.
  assert (Hcopies : forall d, d ∈ population ->
            0 <= copies (Fitness d) (Fitness best) <= 100).
  { intros d Hd. destruct (Hcd d Hd) as (Hdpos & Hdint & Hdev).
    pose proof (Hmax d (proj1 (list_elem_of_In _ _) Hd)) as Hle. cbn in Hle.
    rewrite Hdev, Hb in *. by apply copies_percent. }
  assert (Hbest : copies (Fitness best) (Fitness best) = 100).
  { rewrite Hb. by apply copies_self. }
  split; [done|]. split; [done|].
  rewrite (pool_length (fun d => copies (Fitness d) (Fitness best))).
  - assert (Hall : Forall (fun d => 0 <= copies (Fitness d) (Fitness best) <= 100)
                     population).
    { apply Forall_forall. intros d Hd%list_elem_of_In. by apply Hcopies. }
    pose proof (total_bounds _ _ _ _ Hall) as Hb'.
    pose proof (total_member (fun d => copies (Fitness d) (Fitness best))
                  population best) as Hm. cbv beta in Hm.
    rewrite Hbest in Hm. split; [apply Hm; [|done]|lia].
    eapply Forall_impl; [|exact Hall]. intros d Hd. cbn in Hd. lia.
  - apply Forall_forall. intros d Hd%list_elem_of_In.
    specialize (Hcopies d Hd). lia.
Qed.

Lemma Shakespeare_createPool_pool_size_witness :
  exists pool,
    @createPool amd64 (evaluated abc <$> candidates) abc
      (Fitness (evaluated abc {| Gene := abc; Fitness := fzero |}))
    = Some (evaluated abc <$> candidates, pool) /\
    (forall d, d ∈ evaluated abc <$> candidates ->
       0 <= @copies amd64 (Fitness d)
              (Fitness (evaluated abc {| Gene := abc; Fitness := fzero |})) <= 100) /\
    @copies amd64 (Fitness (evaluated abc {| Gene := abc; Fitness := fzero |}))
      (Fitness (evaluated abc {| Gene := abc; Fitness := fzero |})) = 100 /\
    100 <= len pool <= 100 * len (evaluated abc <$> candidates).
Proof.
  apply (@Shakespeare_createPool_pool_size amd64 (evaluated abc <$> candidates) abc
           (evaluated abc {| Gene := abc; Fitness := fzero |})).
  - reflexivity.
  - split; [discriminate | reflexivity].
  - repeat (apply Forall_cons_2 || apply Forall_nil_2);
      (split; [reflexivity|]); (split; [|reflexivity]);
      repeat (apply Forall_cons_2 || apply Forall_nil_2);
      (split; [discriminate | reflexivity]).
  - left.
  - reflexivity.
  - repeat (apply Forall_cons_2 || apply Forall_nil_2); reflexivity.
Defined.

(** A round of the loop of [main] in the byte-string program goes
    through when some organism has a byte right. For a population of
    organisms as the program keeps them, one of which has a positive
    Fitness, the round does not panic: the organism that [getBest]
    returns enters the pool 100 times, so the pool is not empty; the
    round ends with a population of the same size, again of organisms
    as the program keeps them; and [found] is set only if a genome of
    the population is the target. *)
Theorem Shakespeare_generation_goes_through {G} `{Platform} (R : rand_source G)
    (rate : float64) (target : list byte) (population : list DNA) (g : G) :
  rand_contract R ->
  0 < len target -> is_int (len target) ->
  Forall (candidate target) population ->
  (exists d, d ∈ population /\ flt fzero (Fitness d) = true) ->
  exists found next g',
    generation R rate target population g = Some (found, next, g') /\
    length next = length population /\
    Forall (candidate target) next /\
    (found = true ->
       next = population /\ exists d, d ∈ population /\ Gene d = target).
Proof.
  intros HR Hpos Hint Hc (d & Hd & Hfit).
  assert (Hne : population <> []) by (intros ->; by apply elem_of_nil in Hd).
  destruct (generation_round R rate target population g HR Hpos Hint Hne Hc)
    as (best & Hbest & Hin & Hfound & Hnot).
  assert (Hbpos : flt fzero (Fitness best) = true).
  { destruct (getBest_member population Hne) as (b & Hb & _ & [Hp|[_ Hall]]).
    - rewrite Hb in Hbest. by simplify_eq.
    - rewrite (Hall d Hd) in Hfit. done. }
  destruct (Z.eqb_spec (bytes_Compare (Gene best) target) 0)
    as [E%bytes_Compare_eq|NE%(not_iff_compat (bytes_Compare_eq _ _))].
  - exists true, population, g. split; [by apply Hfound|].
    split; [done|]. split; [done|]. intros _. split; [done|]. by exists best.
  - destruct (Hnot NE) as [Hgo _].
    destruct (Hgo Hbpos) as (next & g' & Hgen & Hl & Hn).
    exists false, next, g'. by repeat split.
Qed.

Lemma Shakespeare_generation_goes_through_witness :
  exists found next g',
    @generation _ amd64 lcg MutationRate abc (evaluated abc <$> candidates) 2024
    = Some (found, next, g') /\
    length next = length (evaluated abc <$> candidates) /\
    Forall (candidate abc) next /\
    (found = true ->
       next = evaluated abc <$> candidates /\
       exists d, d ∈ evaluated abc <$> candidates /\ Gene d = abc).
Proof.
  apply (@Shakespeare_generation_goes_through _ amd64 lcg MutationRate abc
           (evaluated abc <$> candidates) 2024).
  - exact lcg_contract.
  - reflexivity.
  - split; [discriminate | reflexivity].
  - repeat (apply Forall_cons_2 || apply Forall_nil_2);
      (split; [reflexivity|]); (split; [|reflexivity]);
      repeat (apply Forall_cons_2 || apply Forall_nil_2);
      (split; [discriminate | reflexivity]).
  - exists (evaluated abc azc). split; [|reflexivity].
    apply list_elem_of_fmap. exists azc. split; [reflexivity|]. right. left.
Defined.

(** A round of the loop of [main] panics when no organism has any byte
    right. All the ratios are then 0.0, [maxFitness] is 0.0, every
    count of copies is the conversion to [int] of 0.0/0.0, not a number;
    where that conversion yields no positive number (as on amd64 and
    arm64) the pool is empty and [naturalSelection] calls
    [rand.Intn(0)]. *)
Theorem Shakespeare_generation_without_match_panics {G} `{Platform}
    (R : rand_source G) (rate : float64) (target : list byte)
    (population : list DNA) (g : G) :
  rand_contract R ->
  0 < len target -> is_int (len target) ->
  population <> [] ->
  Forall (candidate target) population ->
  Forall (fun d => matches (Gene d) target = 0) population ->
  unrepresentable S754_nan <= 0 ->
  generation R rate target population g = None.
Proof.
  intros HR Hpos Hint Hne Hc Hzero Hnan.
  destruct (generation_round R rate target population g HR Hpos Hint Hne Hc)
    as (best & Hbest & Hin & _ & Hnot).
  rewrite Forall_forall in Hc, Hzero. apply list_elem_of_In in Hin.
  pose proof (Hc best Hin) as (Hl & _ & Hev).
  pose proof (Hzero best Hin) as Hm.
  assert (NE : Gene best <> target).
  { intros E. rewrite E, matches_diag in Hm. lia. }
  assert (Hfit : Fitness best = fzero).
  { rewrite Hev. apply evaluated_no_match; [unfold len in *; lia| |done].
    unfold is_int, len in *. lia. }
  destruct (Hnot NE) as [_ Hstop].
  apply Hstop; [by rewrite Hfit|done].
Qed.

Lemma Shakespeare_generation_without_match_panics_witness :
  @generation _ amd64 lcg MutationRate abc
    [evaluated abc {| Gene := [x7a; x7a; x7a]; Fitness := fzero |}] 2024 = None.
Proof.
  apply (@Shakespeare_generation_without_match_panics _ amd64 lcg MutationRate abc
           [evaluated abc {| Gene := [x7a; x7a; x7a]; Fitness := fzero |}] 2024).
  - exact lcg_contract.
  - reflexivity.
  - split; [discriminate | reflexivity].
  - discriminate.
  - repeat (apply Forall_cons_2 || apply Forall_nil_2);
      (split; [reflexivity|]); (split; [|reflexivity]);
      repeat (apply Forall_cons_2 || apply Forall_nil_2);
      (split; [discriminate | reflexivity]).
  - repeat constructor.
  - discriminate.
Defined.

(** The loop of [main] in the byte-string program stops exactly when
    the target is in the population. For a target of fewer than [2^53]
    bytes and a population of organisms as the program keeps them: if a
    genome of the population is the target, the round sets [found] and
    leaves the population as it is; and a round sets [found] only then.
    ([getBest] returns an organism of the greatest Fitness, and only the
    target has a Fitness of 1.0.) *)
Theorem Shakespeare_found_iff_target_in_population {G} `{Platform}
    (R : rand_source G) (rate : float64) (target : list byte)
    (population : list DNA) (g : G) :
  rand_contract R ->
  0 < len target < 2 ^ 53 ->
  Forall (candidate target) population ->
  ((exists d, d ∈ population /\ Gene d = target) ->
     generation R rate target population g = Some (true, population, g)) /\
  (forall next g',
     generation R rate target population g = Some (true, next, g') ->
     exists d, d ∈ population /\ Gene d = target).
Proof.
  intros HR Hlen Hc.
  assert (Hint : is_int (len target)) by (unfold is_int; lia).
  assert (Hcd : forall d, d ∈ population ->
            length (Gene d) = length target /\
            Fitness d = Fitness (evaluated target d)).
  { rewrite Forall_forall in Hc. intros d Hd%list_elem_of_In.
    destruct (Hc d Hd) as (Hl & _ & Hev). split; [done|]. by rewrite <- Hev. }
  split.
  - intros (d & Hd & Hgene).
    assert (Hne : population <> []) by (intros ->; by apply elem_of_nil in Hd).
    destruct (generation_round R rate target population g HR ltac:(lia) Hint Hne Hc)
      as (best & Hbest & Hin & Hfound & _).
    apply Hfound.
    destruct (getBest_first_greatest population Hne)
      as (i & best' & _ & Hbest' & Hmax & _).
    { apply Forall_forall. intros x Hx%list_elem_of_In.
      destruct (Hcd x Hx) as [Hl ->].
      apply evaluated_zero_or_positive; unfold is_int, len in *; lia. }
    rewrite Hbest in Hbest'. injection Hbest' as <-.
    destruct (Hcd d Hd) as [Hld Hfd]. destruct (Hcd best Hin) as [Hlb Hfb].
    pose proof (Hmax d Hd) as Hle.
    rewrite Hfd, (proj2 (evaluated_one target d Hld Hlen) Hgene), Hfb in Hle.
    apply matches_full; [done|].
    pose proof (matches_range (Gene best) target) as Hr.
    destruct (Z.eq_dec (matches (Gene best) target) (len (Gene best))) as [|Hlt];
      [done|exfalso]. cbn in Hle.
    destruct (Z.eq_dec (matches (Gene best) target) 0) as [E|Hne0].
    + rewrite E in Hle. change (float64_of_int 0) with fzero in Hle.
      rewrite fdiv_zero in Hle; [done|].
      apply float64_of_int_int_float. unfold len in *. lia.
    + destruct (ratio_below_one (matches (Gene best) target) (len (Gene best)))
        as (mq & eq & Hq & Heq); [lia|unfold len in *; lia|].
      rewrite Hq in Hle. change fone with (S754_finite false (2 ^ 52) (-52)) in Hle.
      apply fle_finite in Hle. lia.
  - intros next g' Hgen.
    assert (Hne : population <> []) by (by intros ->).
    destruct (generation_round R rate target population g HR ltac:(lia) Hint Hne Hc)
      as (best & Hbest & Hin & _ & Hnot).
    destruct (Z.eqb_spec (bytes_Compare (Gene best) target) 0)
      as [E%bytes_Compare_eq|NE%(not_iff_compat (bytes_Compare_eq _ _))].
    { by exists best. }
    exfalso. destruct (Hnot NE) as [Hgo Hstop].
    destruct (flt fzero (Fitness best)) eqn:Hfit.
    + destruct (Hgo eq_refl) as (next' & g'' & Hgen' & _). congruence.
    + destruct (Hstop eq_refl) as [_ Hany].
      by destruct (Hany true next g' Hgen).
Qed.

Lemma Shakespeare_found_iff_target_in_population_witness :
  @generation _ amd64 lcg MutationRate abc (evaluated abc <$> candidates) 2024
  = Some (true, evaluated abc <$> candidates, 2024).
Proof.
  apply (@Shakespeare_found_iff_target_in_population _ amd64 lcg MutationRate abc
           (evaluated abc <$> candidates) 2024).
  - exact lcg_contract.
  - split; reflexivity.
  - repeat (apply Forall_cons_2 || apply Forall_nil_2);
      (split; [reflexivity|]); (split; [|reflexivity]);
      repeat (apply Forall_cons_2 || apply Forall_nil_2);
      (split; [discriminate | reflexivity]).
  - exists (evaluated abc {| Gene := abc; Fitness := fzero |}).
    split; [left | reflexivity].
Defined.

(** [calcFitness] of the byte-string program reads the target at the
    indices of the genome: it returns exactly when the target is at
    least as long as the genome (a shorter target is an index out of
    range), and the bytes of the target beyond that length have no
    effect on the result. *)
Theorem Shakespeare_calcFitness_reads_gene_length (d : DNA) (target : list byte) :
  (is_Some (calcFitness d target) <-> (length (Gene d) <= length target)%nat) /\
  calcFitness d target = calcFitness d (take (length (Gene d)) target).
Proof.
  unfold calcFitness. split; [split|].
  - intros Hsome.
    destruct (decide (length (Gene d) <= length target)%nat) as [|Hgt]; [done|].
    exfalso. rewrite (for_range_panics _ _ _ (len target)) in Hsome.
    + by destruct Hsome.
    + unfold len. lia.
    + intros t. rewrite (index_None target) by lia.
      by destruct (index (Gene d) (len target)).
  - intros Hle.
    match goal with |- context [for_range ?lo ?hi ?body ?s] =>
      destruct (for_range_inv (fun _ _ => True) body lo hi s) as (sc & -> & _)
    end; [apply len_nonneg|done| |done].
    intros j sc Hj _.
    destruct (index_is_Some (Gene d) j) as [x ->]; [done|].
    destruct (index_is_Some target j) as [y ->]; [unfold len in *; lia|].
    cbn. destruct (Byte.eqb x y); eauto.
  - erewrite for_range_ext; [reflexivity|].
    intros j sc Hj. cbv beta.
    rewrite <- (Nat2Z.id (length (Gene d))). fold (len (Gene d)).
    by rewrite index_take by lia.
Qed.

(** The byte-string program never finds a target that holds a byte
    outside the printable ASCII range (a line break, a tab, a byte of a
    UTF-8 sequence): the genomes that [createDNA], [crossover] and
    [mutate] produce only hold bytes from 32 to 126, so whatever the
    number of rounds, [main] has not set [found]; it runs on or panics. *)
Theorem Shakespeare_unprintable_target_never_found {G} `{Platform}
    (R : rand_source G) (rate : float64) (PopSize : Z) (target : list byte) :
  rand_contract R ->
  is_int (len target) ->
  ~ Forall printable target ->
  forall (n : nat) (g : G) found population g',
    main R rate PopSize target n g = Some (found, population, g') ->
    found = false.
Proof.
  intros HR Hint Hbad.
  assert (Hpos : 0 < len target).
  { destruct target; [by destruct Hbad|unfold len; cbn; lia]. }
  assert (Hev : forall n population g found next g',
    Forall (candidate target) population ->
    evolve R rate target n population g = Some (found, next, g') -> found = false).
  { induction n as [|n IH]; intros population g found next g' Hc Hrun.
    { cbn in Hrun. by simplify_eq. }
    cbn [evolve] in Hrun.
    destruct (generation R rate target population g) as [[[f p] g1]|] eqn:Hgen;
      [|done]. cbn in Hrun.
    assert (Hne : population <> []) by (by intros ->).
    destruct (generation_round R rate target population g HR Hpos Hint Hne Hc)
      as (best & Hbest & Hin & _ & Hnot).
    assert (NE : Gene best <> target).
    { intros E. apply Hbad. rewrite <- E.
      rewrite Forall_forall in Hc. apply list_elem_of_In in Hin.
      by destruct (Hc best Hin) as (_ & Hp & _). }
    destruct (Hnot NE) as [Hgo Hstop].
    assert (Hf : f = false /\ Forall (candidate target) p).
    { destruct (flt fzero (Fitness best)) eqn:Hfit.
      - destruct (Hgo eq_refl) as (next' & g'' & Hgen' & _ & Hn).
        rewrite Hgen' in Hgen. by simplify_eq.
      - destruct (Hstop eq_refl) as [_ Hany].
        by destruct (Hany f p g1 Hgen) as (-> & _ & Hn). }
    destruct Hf as [-> Hp]. by eapply IH. }
  intros n g found population g' Hmain. unfold main in Hmain.
  destruct (Z_lt_le_dec PopSize 0) as [Hneg|Hnn].
  { by rewrite createPopulation_negative in Hmain. }
  destruct (createPopulation_candidates R PopSize target g HR Hint Hnn)
    as (p & g1 & Hp & _ & Hc).
  rewrite Hp in Hmain. cbn in Hmain. by eapply Hev.
Qed.

Lemma Shakespeare_unprintable_target_never_found_witness :
  exists found population g',
    @main _ amd64 lcg MutationRate 20 [x61; x0a] 3 2024
    = Some (found, population, g') /\ found = false.
Proof.
  destruct (@main _ amd64 lcg MutationRate 20 [x61; x0a] 3 2024)
    as [[[found population] g']|] eqn:E.
  - exists found, population, g'. split; [reflexivity|].
    apply (@Shakespeare_unprintable_target_never_found _ amd64 lcg MutationRate 20
             [x61; x0a] lcg_contract) with (n := 3%nat) (g := 2024)
             (population := population) (g' := g'); [| |exact E].
    + split; [discriminate | reflexivity].
    + intros Hp. inversion Hp as [|? ? _ Hp']. inversion Hp' as [|? ? [Hx _] _].
      by apply Hx.
  - vm_compute in E. discriminate.
Defined.

End StringStatements.

(* ================================================================== *)
(** * src/monalisa/main.go: distances, populations, a round of the loop *)
(* ================================================================== *)

Module ImageFacts.
Import Notions TopPool GoFacts FloatFacts FloatSigns PoolFacts Measures DistanceFacts.
Import Invariants LibraryFacts GenomeFacts.
Import Monalisa MonalisaMain.

(** ** The distance *)

Lemma squareDifference_comm x y : squareDifference x y = squareDifference y x.
Proof. rewrite !squareDifference_square. lia. Qed.

(** [diff] returns exactly when the second buffer is at least as long
    as the first. *)
Lemma diff_is_Some `{Platform} (a b : RGBA) :
  is_Some (diff a b) <-> (length (Pix a) <= length (Pix b))%nat.
Proof.
  unfold diff. split.
  - intros Hsome. destruct (decide (length (Pix a) <= length (Pix b))%nat) as [|Hgt];
      [done|]. exfalso.
    rewrite (for_range_panics _ _ _ (len (Pix b))) in Hsome.
    + by destruct Hsome.
    + unfold len. lia.
    + intros t. rewrite (index_None (Pix b)) by lia.
      by destruct (index (Pix a) (len (Pix b))).
  - intros Hle.
    match goal with |- context [for_range ?lo ?hi ?body ?s] =>
      destruct (for_range_inv (fun _ _ => True) body lo hi s) as (d & -> & _)
    end; [apply len_nonneg|done| |done].
    intros j d Hj _.
    destruct (index_is_Some (Pix a) j) as [x ->]; [done|].
    destruct (index_is_Some (Pix b) j) as [y ->]; [unfold len in *; lia|].
    cbn. eauto.
Qed.

(** The bytes of the second buffer beyond the first are not read. *)
Lemma diff_prefix `{Platform} (a b : RGBA) :
  diff a b = diff a {| Pix := take (length (Pix a)) (Pix b);
                       Stride := Stride b; Rect := Rect b |}.
Proof.
  unfold diff. cbn [Pix]. erewrite for_range_ext; [reflexivity|].
  intros j d Hj. cbv beta.
  rewrite <- (Nat2Z.id (length (Pix a))). fold (len (Pix a)).
  by rewrite index_take by lia.
Qed.

Lemma diff_comm `{Platform} (a b : RGBA) :
  length (Pix a) = length (Pix b) -> diff a b = diff b a.
Proof.
  intros Hlen. unfold diff.
  replace (len (Pix b)) with (len (Pix a)) by (unfold len; lia).
  erewrite for_range_ext; [reflexivity|].
  intros j d Hj. cbv beta.
  destruct (index_is_Some (Pix a) j) as [x ->]; [done|].
  destruct (index_is_Some (Pix b) j) as [y ->]; [unfold len in *; lia|].
  cbn. by rewrite squareDifference_comm.
Qed.

Lemma sum_squares_bound a b : sum_squares a b <= 65025 * len a.
Proof.
  unfold len. revert b. induction a as [|x a IH]; intros [|y b];
    cbn [sum_squares length]; try lia.
  specialize (IH b). pose proof (squareDifference_range x y) as Hr.
  rewrite squareDifference_square in Hr. lia.
Qed.

Lemma sum_squares_zero a b :
  length a = length b -> sum_squares a b = 0 -> a = b.
Proof.
  revert b. induction a as [|x a IH]; intros [|y b] Hlen Hs; try done.
  cbn [sum_squares] in Hs. pose proof (sum_squares_nonneg a b).
  pose proof (squareDifference_range x y) as Hr.
  rewrite squareDifference_square in Hr.
  f_equal.
  - apply uint64_of_uint8_inj. nia.
  - apply IH; [cbn in Hlen; lia|lia].
Qed.

(** For buffers of one length of up to [2^36] bytes, the distance is
    the integer square root of the sum of squares. *)
Lemma diff_moderate `{Platform} (a b : RGBA) :
  length (Pix a) = length (Pix b) -> len (Pix a) <= 2 ^ 36 ->
  diff a b = Some (Z.sqrt (sum_squares (Pix a) (Pix b))).
Proof.
  intros Hlen Hsmall. apply diff_sqrt; [done|].
  pose proof (sum_squares_bound (Pix a) (Pix b)). lia.
Qed.

Lemma diff_distance `{Platform} (a b : RGBA) d :
  length (Pix a) = length (Pix b) -> len (Pix a) <= 2 ^ 36 ->
  diff a b = Some d ->
  0 <= d /\ d * d <= 65025 * len (Pix a) /\ d < 2 ^ 26 /\ (d = 0 <-> Pix a = Pix b).
Proof.
  intros Hlen Hsmall Hd. rewrite diff_moderate in Hd by done. simplify_eq.
  pose proof (sum_squares_bound (Pix a) (Pix b)) as Hb.
  pose proof (sum_squares_nonneg (Pix a) (Pix b)) as H0.
  set (s := sum_squares (Pix a) (Pix b)) in *.
  pose proof (Z.sqrt_spec s H0) as Hs. cbv zeta in Hs.
  pose proof (Z.sqrt_nonneg s).
  split; [done|]. split; [lia|]. split.
  - apply Z.sqrt_lt_square; [lia|lia|]. change (2 ^ 26 * 2 ^ 26) with (2 ^ 52). lia.
  - split.
    + intros E. rewrite E in Hs. apply sum_squares_zero; [done|]. fold s. lia.
    + intros E. unfold s. by rewrite E, sum_squares_diag.
Qed.

(** ** Organisms *)

Lemma calcFitness_organism `{Platform} (o : Organism) target :
  framed target o ->
  exists o', calcFitness o target = Some o' /\ DNA o' = DNA o /\
    organism_of target o'.
Proof.
  intros (Hl & Hs & Hr).
  destruct (diff_returns (DNA o) target Hl) as [d Hd].
  exists {| DNA := DNA o; Fitness := d |}. unfold calcFitness. rewrite Hd. cbn.
  split; [by destruct (d =? 0)|]. split; [done|]. by repeat split.
Qed.

Lemma organism_distance `{Platform} target o :
  len (Pix target) <= 2 ^ 36 -> organism_of target o ->
  0 <= Fitness o < 2 ^ 26.
Proof.
  intros Hsmall (Hl & _ & _ & Hd).
  destruct (diff_distance (DNA o) target (Fitness o)) as (? & _ & ? & _);
    [done|unfold len in *; lia|done|lia].
Qed.

Lemma organism_framed `{Platform} target o : organism_of target o -> framed target o.
Proof. by intros (? & ? & ? & _). Qed.

Lemma createOrganism_organism {G} `{Platform} (D : rand_reader G) target (g : G) :
  Read_contract D ->
  exists o g', createOrganism D target g = Some (o, g') /\ organism_of target o.
Proof.
  intros HD. unfold createOrganism, createRandomImageFrom.
  pose proof (HD (make x00 (len (Pix target))) g) as Hl.
  destruct (rand_Read D _ g) as [pix g1]. cbn [fst] in Hl.
  unfold make, len in Hl. rewrite length_replicate, Nat2Z.id in Hl.
  destruct (calcFitness_organism
              {| DNA := {| Pix := pix; Stride := Stride target; Rect := Rect target |};
                 Fitness := 0 |} target) as (o' & -> & _ & Ho'); [done|].
  cbn. by eexists _, _.
Qed.

Lemma createPopulation_organisms {G} `{Platform} (D : rand_reader G) PopSize
    target (g : G) :
  Read_contract D -> 0 <= PopSize ->
  exists population g',
    createPopulation D PopSize target g = Some (population, g') /\
    len population = PopSize /\ Forall (organism_of target) population.
Proof.
  intros HD Hn. unfold createPopulation. rewrite make_n_Some by done. cbn.
  set (s := replicate _ _).
  assert (Hs : len s = PopSize) by (unfold s, len; rewrite length_replicate; lia).
  destruct (fill_loop (organism_of target) (createOrganism D target) s g PopSize)
    as (s' & g' & -> & Hl & Hc); [done| |].
  { intros g1. by apply createOrganism_organism. }
  exists s', g'. split; [done|]. split; [unfold len in *; lia|done].
Qed.

Lemma createPopulation_negative' {G} `{Platform} (D : rand_reader G) PopSize
    target (g : G) :
  PopSize < 0 -> createPopulation D PopSize target g = None.
Proof. intros Hn. unfold createPopulation. by rewrite make_n_None. Qed.

Lemma breed_organism {G} `{Platform} (R : rand_source G) rate pool target (g : G) :
  rand_contract R -> 0 < len (Pix target) ->
  pool <> [] -> Forall (framed target) pool ->
  exists child g', breed R rate pool target g = Some (child, g') /\
    organism_of target child.
Proof.
  intros HR Hpos Hne Hpool. unfold breed.
  assert (Hlen : 0 < len pool) by (destruct pool; [done|unfold len; cbn; lia]).
  destruct (Intn_range R HR _ g Hlen) as (r1 & g1 & -> & Hr1). cbn.
  destruct (Intn_range R HR _ g1 Hlen) as (r2 & g2 & -> & Hr2). cbn.
  destruct (index_is_Some pool r1 Hr1) as [a Ha].
  destruct (index_is_Some pool r2 Hr2) as [b Hb].
  rewrite Ha, Hb. cbn.
  apply index_Some in Ha as [_ Ha]. apply index_Some in Hb as [_ Hb].
  destruct (Forall_lookup_1 _ _ _ _ Hpool Ha) as (Hla & Hsa & Hra).
  destruct (Forall_lookup_1 _ _ _ _ Hpool Hb) as (Hlb & _ & _).
  assert (Hposa : 0 < len (Pix (DNA a))) by (unfold len in *; lia).
  destruct (Intn_range R HR _ g2 Hposa) as (m & g3 & Hm & Hrange).
  destruct (Monalisa_crossover_reach R g2 a b m g3 Hm Hrange) as [Hcross _].
  rewrite Hcross by (unfold len in *; lia). cbn.
  match goal with |- context [mutate R rate ?c0 g3] => set (c := c0) end.
  destruct (Monalisa_mutate_shape R g3 rate c HR) as (o' & g4 & -> & Hrest & Hmut).
  cbn.
  destruct (calcFitness_organism o' target) as (o'' & -> & _ & Ho'').
  - destruct Hmut as [Hl _]. unfold framed. rewrite Hl.
    injection Hrest as Hs Hr _. rewrite Hs, Hr. cbn.
    rewrite splice_length by (unfold len in *; lia). unfold len in *.
    split; [lia|done].
  - cbn. by eexists _, _.
Qed.

Lemma breed_no_pool {G} `{Platform} (R : rand_source G) rate target (g : G) :
  rand_contract R -> breed R rate [] target g = None.
Proof.
  intros HR. unfold breed. by rewrite (Intn_panics R HR) by done.
Qed.

Lemma naturalSelection_organisms {G} `{Platform} (R : rand_source G) rate pool
    population target (g : G) :
  rand_contract R -> 0 < len (Pix target) ->
  pool <> [] -> Forall (framed target) pool ->
  exists next g',
    naturalSelection R rate pool population target g = Some (next, g') /\
    length next = length population /\ Forall (organism_of target) next.
Proof.
  intros HR Hpos Hne Hpool. unfold naturalSelection.
  set (s := make _ _).
  assert (Hs : len s = len population).
  { unfold s, make, len. rewrite length_replicate. lia. }
  destruct (fill_loop (organism_of target) (breed R rate pool target) s g
              (len population)) as (s' & g' & -> & Hl & Hc); [done| |].
  { intros g1. by apply breed_organism. }
  exists s', g'. split; [done|]. split; [unfold len in *; lia|done].
Qed.

Lemma naturalSelection_no_pool {G} `{Platform} (R : rand_source G) rate population
    target (g : G) :
  rand_contract R -> population <> [] ->
  naturalSelection R rate [] population target g = None.
Proof.
  intros HR Hne. unfold naturalSelection. apply for_range_fails.
  - destruct population; [done|unfold len; cbn; lia].
  - cbv beta iota. by rewrite breed_no_pool.
Qed.

(** ** [getBest] *)

(** [getBest] returns a member; no Fitness of the population exceeds
    the greater of 0 and the Fitness of that member. *)
Lemma getBest_bound (population : list Organism) :
  population <> [] ->
  exists o, getBest population = Some o /\ o ∈ population /\
    forall o', o' ∈ population -> Fitness o' <= Z.max 0 (Fitness o).
Proof.
  intros Hne. unfold getBest.
  match goal with |- context [for_range ?lo ?hi ?body ?s] =>
    destruct (for_range_inv (fun j '(best, idx) =>
      0 <= best /\
      (forall (k : nat) o, Z.of_nat k < j -> population !! k = Some o ->
         Fitness o <= best) /\
      ((best = 0 /\ idx = 0) \/
       exists o, index population idx = Some o /\ Fitness o = best))
      body lo hi s) as ([best idx] & -> & Hb & Hall & Hidx)
  end.
  - apply len_nonneg.
  - cbn. split; [lia|]. split; [intros; lia|]. by left.
  - intros j [best idx] Hj (Hb & Hall & Hidx).
    destruct (index_is_Some population j) as [p Hp]; [lia|].
    cbv beta iota. rewrite Hp. cbn.
    apply index_Some in Hp as Hp'. destruct Hp' as [_ Hp'].
    destruct (Z.ltb_spec best (Fitness p)) as [Hlt|Hge].
    + eexists. split; [done|]. cbn.
      split; [lia|]. split; [|right; eauto].
      intros k o Hk Ho.
      destruct (decide (k = Z.to_nat j)) as [->|Hkj].
      * simplify_eq. lia.
      * specialize (Hall k o ltac:(lia) Ho). lia.
    + eexists. split; [done|]. cbn.
      split; [lia|]. split; [|done].
      intros k o Hk Ho.
      destruct (decide (k = Z.to_nat j)) as [->|Hkj].
      * simplify_eq. lia.
      * apply (Hall k o); [lia|done].
  - cbn.
    assert (Hall' : forall o', o' ∈ population -> Fitness o' <= best).
    { intros o' [k Hk]%list_elem_of_lookup_1. apply (Hall k); [|done].
      apply lookup_lt_Some in Hk. unfold len. lia. }
    destruct Hidx as [[-> ->]|(o & Ho & <-)].
    + destruct population as [|o rest]; [done|].
      exists o. split; [done|]. split; [left|].
      intros o' Ho'. specialize (Hall' o' Ho'). lia.
    + exists o. split; [done|]. split.
      * apply index_Some in Ho as [_ Ho]. by eapply list_elem_of_lookup_2.
      * intros o' Ho'. specialize (Hall' o' Ho'). lia.
Qed.

End ImageFacts.

Module ImageLoopFacts.
Import Notions TopPool GoFacts FloatFacts FloatSigns PoolFacts Measures DistanceFacts.
Import Invariants LibraryFacts GenomeFacts ImageFacts.
Import Monalisa MonalisaMain.

Lemma flat_map_weights {A} (w1 w2 : A -> Z) (l : list A) :
  Forall (fun x => w1 x = w2 x) l ->
  flat_map (fun x => replicate (Z.to_nat (w1 x)) x) l
  = flat_map (fun x => replicate (Z.to_nat (w2 x)) x) l.
Proof.
  induction 1 as [|x l Hx Hl IH]; [done|]. cbn [flat_map]. by rewrite Hx, IH.
Qed.

Lemma sorted_population (population : list Organism) :
  Permutation (SliceStable less population) population /\
  StronglySorted (fun a b => Fitness a <= Fitness b) (SliceStable less population).
Proof.
  split.
  - apply (SliceStable_Permutation Fitness).
  - apply (SliceStable_StronglySorted Fitness).
Qed.

(** The pool of [createPool] when no subtraction and no product
    wraps: the weighted top of the sorted population. *)
Lemma createPool_weighted PoolSize population target :
  0 <= PoolSize < len population -> len population < 2 ^ 63 ->
  Forall (fun o => 0 <= Fitness o < 2 ^ 59) population ->
  exists t0 tp,
    index (SliceStable less population) 0 = Some t0 /\
    index (SliceStable less population) PoolSize = Some tp /\
    Fitness t0 <= Fitness tp /\
    Forall (fun o => Fitness t0 <= Fitness o <= Fitness tp)
      (take (Z.to_nat PoolSize) (SliceStable less population)) /\
    (createPool PoolSize population target).2
    = Some (flat_map (fun o => replicate (Z.to_nat (10 * (Fitness tp - Fitness o))) o)
              (take (Z.to_nat PoolSize) (SliceStable less population))).
Proof.
  intros HP Hlen Hfit.
  destruct (createPool_pool PoolSize population target HP Hlen) as (tp & Htp & Hpool).
  destruct (sorted_population population) as [Hperm Hsorted].
  set (sorted := SliceStable less population) in *.
  assert (Hls : length sorted = length population) by (by apply Permutation_length).
  destruct (index_is_Some sorted 0) as [t0 Ht0]; [unfold len in *; lia|].
  exists t0, tp. split; [done|]. split; [done|].
  apply index_Some in Ht0 as [_ Ht0]. apply index_Some in Htp as [_ Htp].
  change (Z.to_nat 0) with O in Ht0.
  assert (Hd : forall o, o ∈ sorted -> 0 <= Fitness o < 2 ^ 59).
  { intros o Ho. rewrite Forall_forall in Hfit. apply Hfit.
    apply list_elem_of_In. by rewrite <- Hperm. }
  assert (Hrange : Forall (fun o => Fitness t0 <= Fitness o <= Fitness tp)
                     (take (Z.to_nat PoolSize) sorted)).
  { apply Forall_lookup_2. intros i o Ho.
    apply lookup_take_Some in Ho as [Ho Hi]. split.
    - apply (StronglySorted_lookup_le Fitness sorted 0 i _ _ Hsorted Ht0 Ho). lia.
    - apply (StronglySorted_lookup_le Fitness sorted i (Z.to_nat PoolSize) _ _
               Hsorted Ho Htp). lia. }
  split.
  { apply (StronglySorted_lookup_le Fitness sorted 0 (Z.to_nat PoolSize) _ _
             Hsorted Ht0 Htp). lia. }
  split; [done|].
  rewrite Hpool. f_equal. apply flat_map_weights.
  apply Forall_lookup_2. intros i o Ho.
  pose proof (Forall_lookup_1 _ _ _ _ Hrange Ho) as Hr. cbn in Hr.
  apply lookup_take_Some in Ho as [Ho Hi].
  pose proof (Hd o (list_elem_of_lookup_2 _ _ _ Ho)).
  pose proof (Hd tp (list_elem_of_lookup_2 _ _ _ Htp)).
  unfold weight. rewrite (int64_id (Fitness tp - Fitness o)) by lia.
  rewrite int64_id by lia. lia.
Qed.

(** The pool of a population without differences of Fitness is empty. *)
Lemma createPool_level PoolSize f population target :
  0 <= PoolSize < len population -> len population < 2 ^ 63 ->
  Forall (fun o => Fitness o = f) population ->
  (createPool PoolSize population target).2 = Some [].
Proof.
  intros HP Hlen Hfit.
  destruct (createPool_pool PoolSize population target)
    as (tp & Htp & ->); [lia|lia|]. f_equal.
  destruct (sorted_population population) as [Hperm _].
  set (sorted := SliceStable less population) in *.
  assert (Hf : Forall (fun o => Fitness o = f) sorted) by (by rewrite Hperm).
  apply index_Some in Htp as [_ Htp].
  pose proof (Forall_lookup_1 _ _ _ _ Hf Htp) as Fp. cbn in Fp.
  apply pool_empty. apply Forall_take.
  eapply Forall_impl; [|exact Hf]. intros o Ho. cbn in Ho.
  unfold weight. by rewrite Ho, Fp, Z.sub_diag.
Qed.

(** A round of the loop whose best organism is not under the limit. *)
Lemma generation_on {G} `{Platform} (R : rand_source G) rate PoolSize FitnessLimit
    target population (g : G) best :
  getBest population = Some best -> FitnessLimit <= Fitness best ->
  generation R rate PoolSize FitnessLimit target population g
  = pool ← (createPool PoolSize population target).2;
    '(next, g) ← naturalSelection R rate pool
                   (createPool PoolSize population target).1 target g;
    Some (false, next, g).
Proof.
  intros Hbest Hlim. unfold generation. rewrite Hbest. cbn [mbind option_bind].
  destruct (Z.ltb_spec (Fitness best) FitnessLimit); [lia|].
  by destruct (createPool PoolSize population target) as [sorted pool].
Qed.

Lemma generation_found {G} `{Platform} (R : rand_source G) rate PoolSize FitnessLimit
    target population (g : G) best :
  getBest population = Some best -> Fitness best < FitnessLimit ->
  generation R rate PoolSize FitnessLimit target population g
  = Some (true, population, g).
Proof.
  intros Hbest Hlim. unfold generation. rewrite Hbest. cbn [mbind option_bind].
  by destruct (Z.ltb_spec (Fitness best) FitnessLimit); [|lia].
Qed.

(** What a round leaves, when it returns. *)
Lemma generation_keeps {G} `{Platform} (R : rand_source G) rate PoolSize FitnessLimit
    target population (g : G) found next g' :
  rand_contract R -> 0 < FitnessLimit -> 0 < len (Pix target) ->
  0 <= PoolSize < len population -> is_int (len population) ->
  Forall (organism_of target) population ->
  generation R rate PoolSize FitnessLimit target population g
    = Some (found, next, g') ->
  length next = length population /\ Forall (organism_of target) next /\
  (found = true ->
     next = population /\ forall o, o ∈ population -> Fitness o < FitnessLimit).
Proof.
  intros HR Hlim Hpos HP Hint Hc Hgen. unfold is_int in Hint.
  assert (Hne : population <> []).
  { intros ->. unfold len in HP. cbn in HP. lia. }
  destruct (getBest_bound population Hne) as (best & Hbest & Hin & Hmax).
  destruct (Z_lt_le_dec (Fitness best) FitnessLimit) as [Hlt|Hge].
  - rewrite (generation_found _ _ _ _ _ _ _ best) in Hgen by done. simplify_eq.
    split; [done|]. split; [done|]. intros _. split; [done|].
    intros o Ho. specialize (Hmax o Ho). lia.
  - rewrite (generation_on _ _ _ _ _ _ _ best) in Hgen by done.
    destruct (createPool_pool PoolSize population target) as (tp & _ & Hpool);
      [lia|lia|].
    rewrite Hpool in Hgen. cbn [mbind option_bind] in Hgen.
    rewrite createPool_population in Hgen.
    destruct (sorted_population population) as [Hperm _].
    set (sorted := SliceStable less population) in *.
    set (pool := flat_map _ _) in Hgen.
    assert (Hsne : sorted <> []).
    { intros E. rewrite E in Hperm. by apply Permutation_nil in Hperm. }
    destruct pool as [|p0 rest] eqn:Epool.
    { by rewrite naturalSelection_no_pool in Hgen. }
    rewrite <- Epool in Hgen.
    destruct (naturalSelection_organisms R rate pool sorted target g)
      as (next' & g'' & Hnat & Hl & Hn); try done.
    + by rewrite Epool.
    + unfold pool. apply pool_members. apply Forall_take.
      rewrite Hperm. eapply Forall_impl; [|exact Hc].
      intros o Ho. by apply organism_framed.
    + rewrite Hnat in Hgen. cbn in Hgen. simplify_eq.
      split; [|by split].
      rewrite Hl. by apply Permutation_length.
Qed.

Lemma evolve_keeps {G} `{Platform} (R : rand_source G) rate PoolSize FitnessLimit
    target n population (g : G) found next g' :
  rand_contract R -> 0 < FitnessLimit -> 0 < len (Pix target) ->
  0 <= PoolSize < len population -> is_int (len population) ->
  Forall (organism_of target) population ->
  evolve R rate PoolSize FitnessLimit target n population g
    = Some (found, next, g') ->
  length next = length population /\ Forall (organism_of target) next /\
  (found = true -> forall o, o ∈ next -> Fitness o < FitnessLimit).
Proof.
  intros HR Hlim Hpos. revert population g.
  induction n as [|n IH]; intros population g HP Hint Hc Hrun.
  { cbn in Hrun. by simplify_eq. }
  cbn [evolve] in Hrun.
  destruct (generation R rate PoolSize FitnessLimit target population g)
    as [[[f p] g1]|] eqn:Hgen; [|done]. cbn in Hrun.
  destruct (generation_keeps R rate PoolSize FitnessLimit target population g
              f p g1 HR Hlim Hpos HP Hint Hc Hgen) as (Hl & Hp & Hf).
  destruct f.
  - simplify_eq. split; [done|]. split; [done|]. intros _.
    destruct (Hf eq_refl) as [-> Hall]. done.
  - destruct (IH p g1) as (Hl' & Hn & Hf'); try done.
    + unfold len in *. lia.
    + unfold is_int, len in *. lia.
    + split; [lia|]. by split.
Qed.

End ImageLoopFacts.

Section ImageStatements.
Import Notions TopPool GoFacts FloatFacts FloatSigns PoolFacts Measures DistanceFacts.
Import Invariants LibraryFacts GenomeFacts ImageFacts ImageLoopFacts.
Import Monalisa MonalisaMain.

(** [diff] and [calcFitness] of src/monalisa/main.go read both buffers
    at the indices of the first: they return exactly when the target's
    buffer is at least as long as the organism's (a shorter target is an
    index out of range), and the bytes of the target beyond that length
    have no effect on the result. *)
Theorem Monalisa_diff_reads_first_length `{Platform} (a b : RGBA) (o : Organism) :
  (is_Some (diff a b) <-> (length (Pix a) <= length (Pix b))%nat) /\
  (is_Some (calcFitness o b) <-> (length (Pix (DNA o)) <= length (Pix b))%nat) /\
  diff a b = diff a {| Pix := take (length (Pix a)) (Pix b);
                       Stride := Stride b; Rect := Rect b |}.
Proof.
  split; [apply diff_is_Some|]. split; [|apply diff_prefix].
  rewrite <- diff_is_Some. unfold calcFitness.
  destruct (diff (DNA o) b) as [d|]; cbn; split; intros [? ?]; by eauto.
Qed.

(** [diff] is a distance. On buffers of one length, of up to [2^36]
    bytes, it returns the same number in both directions; the number is
    not negative, its square is at most 255 * 255 times the length, and
    it is 0 exactly when the two buffers are equal. *)
Theorem Monalisa_diff_symmetric_zero_iff_equal `{Platform} (a b : RGBA) :
  length (Pix a) = length (Pix b) ->
  len (Pix a) <= 2 ^ 36 ->
  exists d,
    diff a b = Some d /\ diff b a = Some d /\
    0 <= d /\ d * d <= 65025 * len (Pix a) /\
    (d = 0 <-> Pix a = Pix b).
Proof.
  intros Hlen Hsmall. destruct (diff_returns a b Hlen) as [d Hd].
  exists d. split; [done|]. split; [by rewrite <- diff_comm|].
  by destruct (diff_distance a b d Hlen Hsmall Hd) as (? & ? & _ & ?).
Qed.

Lemma Monalisa_diff_symmetric_zero_iff_equal_witness :
  exists d,
    @diff amd64 Scenario.white Scenario.black = Some d /\
    @diff amd64 Scenario.black Scenario.white = Some d /\
    0 <= d /\ d * d <= 65025 * len (Pix Scenario.white) /\
    (d = 0 <-> Pix Scenario.white = Pix Scenario.black).
Proof.
  apply (@Monalisa_diff_symmetric_zero_iff_equal amd64 Scenario.white Scenario.black).
  - reflexivity.
  - discriminate.
Defined.

(** [mutate] of src/monalisa/main.go, at any rate: it returns, leaves
    Stride, Rect and Fitness as they were, keeps the length of the
    buffer, and every byte of the result is the byte that was there or a
    byte other than 255: [uint8(rand.Intn(255))] is never 255. *)
Theorem Monalisa_mutate_never_writes_255 {G} (R : rand_source G)
    (rate : float64) (o : Organism) (g : G) :
  rand_contract R ->
  exists o' g',
    mutate R rate o g = Some (o', g') /\
    Stride (DNA o') = Stride (DNA o) /\ Rect (DNA o') = Rect (DNA o) /\
    Fitness o' = Fitness o /\
    length (Pix (DNA o')) = length (Pix (DNA o)) /\
    forall (i : nat) x, Pix (DNA o') !! i = Some x ->
      Pix (DNA o) !! i = Some x \/ x <> xff.
Proof.
  intros HR.
  destruct (Monalisa_mutate_shape R g rate o HR) as (o' & g' & E & Hrest & Hl & Hm).
  exists o', g'. injection Hrest as Hs Hr Hf. by repeat split.
Qed.

Lemma Monalisa_mutate_never_writes_255_witness :
  exists o' g',
    mutate lcg fone Parents.mother' 2024 = Some (o', g') /\
    Stride (DNA o') = Stride (DNA Parents.mother') /\
    Rect (DNA o') = Rect (DNA Parents.mother') /\
    Fitness o' = Fitness Parents.mother' /\
    length (Pix (DNA o')) = length (Pix (DNA Parents.mother')) /\
    forall (i : nat) x, Pix (DNA o') !! i = Some x ->
      Pix (DNA Parents.mother') !! i = Some x \/ x <> xff.
Proof.
  apply (Monalisa_mutate_never_writes_255 lcg fone Parents.mother' 2024).
  exact lcg_contract.
Defined.

(** At a rate of 1.0 or more [mutate] redraws every byte, in both
    programs: whatever the genome was, the result has the same length
    and holds only printable ASCII bytes (32 to 126) in the byte-string
    program, and no byte 255 in src/monalisa/main.go; Fitness (and
    Stride and Rect) stay as they were. *)
Theorem mutate_rate_one_redraws_all {G} (R : rand_source G) (rate : float64)
    (d : Shakespeare.DNA) (o : Organism) (g : G) :
  rand_contract R ->
  fle fone rate = true ->
  (exists d' g',
     Shakespeare.mutate R rate d g = Some (d', g') /\
     Shakespeare.Fitness d' = Shakespeare.Fitness d /\
     length (Shakespeare.Gene d') = length (Shakespeare.Gene d) /\
     Forall printable (Shakespeare.Gene d')) /\
  (exists o' g',
     mutate R rate o g = Some (o', g') /\
     Stride (DNA o') = Stride (DNA o) /\ Rect (DNA o') = Rect (DNA o) /\
     Fitness o' = Fitness o /\
     length (Pix (DNA o')) = length (Pix (DNA o)) /\
     Forall (fun b => b <> xff) (Pix (DNA o'))).
Proof.
  intros HR Hrate. split.
  - unfold Shakespeare.mutate.
    apply (mutate_all_loop Shakespeare.Gene Shakespeare.set_Gene Shakespeare.Fitness
             R 95 (fun v => uint8 (int (v + 32))) printable rate d g);
      [exact set_Gene_frame|done|done|exact printable_draw|done].
  - unfold mutate.
    destruct (mutate_all_loop (fun o => Pix (DNA o)) set_Pix
                (fun o => (Stride (DNA o), Rect (DNA o), Fitness o))
                R 255 uint8 (fun b => b <> xff) rate o g)
      as (o' & g' & E & Hrest & Hl & Hf);
      [exact set_Pix_frame|done|done|exact below_255_draw|done|].
    exists o', g'. injection Hrest as Hs Hr Hfit. by repeat split.
Qed.

Lemma mutate_rate_one_redraws_all_witness :
  (exists d' g',
     Shakespeare.mutate lcg fone Parents.mother 2024 = Some (d', g') /\
     Shakespeare.Fitness d' = Shakespeare.Fitness Parents.mother /\
     length (Shakespeare.Gene d') = length (Shakespeare.Gene Parents.mother) /\
     Forall printable (Shakespeare.Gene d')) /\
  (exists o' g',
     mutate lcg fone Parents.mother' 2024 = Some (o', g') /\
     Stride (DNA o') = Stride (DNA Parents.mother') /\
     Rect (DNA o') = Rect (DNA Parents.mother') /\
     Fitness o' = Fitness Parents.mother' /\
     length (Pix (DNA o')) = length (Pix (DNA Parents.mother')) /\
     Forall (fun b => b <> xff) (Pix (DNA o'))).
Proof.
  apply (mutate_rate_one_redraws_all lcg fone Parents.mother Parents.mother' 2024).
  - exact lcg_contract.
  - reflexivity.
Defined.

(** [crossover] on parents of any lengths, in the byte-string program
    and in src/monalisa/main.go. A first parent without genome panics
    ([rand.Intn(0)]). Otherwise a cut [m] is drawn below the length of
    the first parent; if the second parent is longer than [m], the child
    is the first [m + 1] elements of the second parent followed by the
    first parent from [m + 1] on, with a Fitness of zero (and the Stride
    and Rect of the first parent); if the second parent ends at or
    before [m], the read of its element is out of range. *)
Theorem crossover_parents_of_any_length {G} (R : rand_source G) (g : G)
    (d1 d2 : Shakespeare.DNA) (o1 o2 : Organism) :
  rand_contract R ->
  (len (Shakespeare.Gene d1) = 0 -> Shakespeare.crossover R d1 d2 g = None) /\
  (0 < len (Shakespeare.Gene d1) ->
     exists m g',
       rand_Intn R (len (Shakespeare.Gene d1)) g = Some (m, g') /\
       0 <= m < len (Shakespeare.Gene d1) /\
       (m < len (Shakespeare.Gene d2) ->
          Shakespeare.crossover R d1 d2 g
          = Some ({| Shakespeare.Gene :=
                       splice m (Shakespeare.Gene d1) (Shakespeare.Gene d2);
                     Shakespeare.Fitness := fzero |}, g')) /\
       (len (Shakespeare.Gene d2) <= m -> Shakespeare.crossover R d1 d2 g = None)) /\
  (len (Pix (DNA o1)) = 0 -> crossover R o1 o2 g = None) /\
  (0 < len (Pix (DNA o1)) ->
     exists m g',
       rand_Intn R (len (Pix (DNA o1))) g = Some (m, g') /\
       0 <= m < len (Pix (DNA o1)) /\
       (m < len (Pix (DNA o2)) ->
          crossover R o1 o2 g
          = Some ({| DNA := {| Pix := splice m (Pix (DNA o1)) (Pix (DNA o2));
                               Stride := Stride (DNA o1);
                               Rect := Rect (DNA o1) |};
                     Fitness := 0 |}, g')) /\
       (len (Pix (DNA o2)) <= m -> crossover R o1 o2 g = None)).
Proof.
  intros HR. repeat split.
  - intros E. unfold Shakespeare.crossover.
    by rewrite E, (Intn_panics R HR) by done.
  - intros Hpos. destruct (Intn_range R HR _ g Hpos) as (m & g' & Hm & Hrange).
    exists m, g'. split; [done|]. split; [done|].
    by apply Shakespeare_crossover_reach.
  - intros E. unfold crossover.
    by rewrite E, (Intn_panics R HR) by done.
  - intros Hpos. destruct (Intn_range R HR _ g Hpos) as (m & g' & Hm & Hrange).
    exists m, g'. split; [done|]. split; [done|].
    by apply Monalisa_crossover_reach.
Qed.

Lemma crossover_parents_of_any_length_witness :
  exists m g',
    rand_Intn lcg (len (Shakespeare.Gene Parents.mother)) 2024 = Some (m, g') /\
    0 <= m < len (Shakespeare.Gene Parents.mother) /\
    (m < len (Shakespeare.Gene Proportional.azc) ->
       Shakespeare.crossover lcg Parents.mother Proportional.azc 2024
       = Some ({| Shakespeare.Gene :=
                    splice m (Shakespeare.Gene Parents.mother)
                             (Shakespeare.Gene Proportional.azc);
                  Shakespeare.Fitness := fzero |}, g')) /\
    (len (Shakespeare.Gene Proportional.azc) <= m ->
       Shakespeare.crossover lcg Parents.mother Proportional.azc 2024 = None).
Proof.
  apply (crossover_parents_of_any_length lcg 2024 Parents.mother Proportional.azc
           Parents.mother' Parents.father' lcg_contract).
  reflexivity.
Defined.

(** With an empty pool [naturalSelection] panics as soon as the
    population has a member, in both programs: the first thing a round
    does is [rand.Intn(len(pool))]. *)
Theorem naturalSelection_empty_pool_panics {G} `{Platform} (R : rand_source G)
    (rate : float64) (g : G)
    (population : list Organism) (target : RGBA)
    (dnas : list Shakespeare.DNA) (text : list byte) :
  rand_contract R ->
  (population <> [] -> naturalSelection R rate [] population target g = None) /\
  (dnas <> [] -> Shakespeare.naturalSelection R rate [] dnas text g = None).
Proof.
  intros HR. split.
  - by apply naturalSelection_no_pool.
  - by apply StringFacts.naturalSelection_empty_pool.
Qed.

Lemma naturalSelection_empty_pool_panics_witness :
  @naturalSelection _ amd64 lcg MutationRate [] [Scenario.near; Scenario.far]
    Scenario.target1 2024 = None /\
  Shakespeare.naturalSelection lcg MutationRate [] Proportional.candidates
    Proportional.abc 2024 = None.
Proof.
  destruct (@naturalSelection_empty_pool_panics _ amd64 lcg MutationRate 2024
              [Scenario.near; Scenario.far] Scenario.target1
              Proportional.candidates Proportional.abc lcg_contract) as [Ha Hb].
  split; [apply Ha | apply Hb]; discriminate.
Defined.

(** The next generation of src/monalisa/main.go. From a pool that is
    not empty, whose images have the frame and the (positive) number of
    bytes of the target, [naturalSelection] returns as many children as
    the population has organisms; every child is an image with the frame
    and the number of bytes of the target, and its Fitness is its
    distance to the target. *)
Theorem Monalisa_naturalSelection_children {G} `{Platform} (R : rand_source G)
    (rate : float64) (pool population : list Organism) (target : RGBA) (g : G) :
  rand_contract R ->
  0 < len (Pix target) ->
  pool <> [] ->
  Forall (framed target) pool ->
  exists next g',
    naturalSelection R rate pool population target g = Some (next, g') /\
    length next = length population /\
    Forall (organism_of target) next.
Proof. apply naturalSelection_organisms. Qed.

Lemma Monalisa_naturalSelection_children_witness :
  exists next g',
    @naturalSelection _ amd64 lcg MutationRate [Scenario.near; Scenario.far]
      [Scenario.near; Scenario.far; Scenario.far] Scenario.target1 2024
    = Some (next, g') /\
    length next = length [Scenario.near; Scenario.far; Scenario.far] /\
    Forall (@organism_of amd64 Scenario.target1) next.
Proof.
  apply (@Monalisa_naturalSelection_children _ amd64 lcg MutationRate
           [Scenario.near; Scenario.far] [Scenario.near; Scenario.far; Scenario.far]
           Scenario.target1 2024).
  - exact lcg_contract.
  - reflexivity.
  - discriminate.
  - repeat constructor.
Defined.

(** The first population of src/monalisa/main.go. For a non-negative
    [PopSize], [createPopulation] returns [PopSize] organisms made by
    [createOrganism] from [createRandomImageFrom]: each is an image with
    the Stride and Rect of the target and as many bytes, with its
    distance to the target as Fitness. A negative [PopSize] panics. *)
Theorem Monalisa_createPopulation_organisms {G} `{Platform} (D : rand_reader G)
    (PopSize : Z) (target : RGBA) (g : G) :
  Read_contract D ->
  (0 <= PopSize ->
     exists population g',
       createPopulation D PopSize target g = Some (population, g') /\
       len population = PopSize /\
       Forall (organism_of target) population) /\
  (PopSize < 0 -> createPopulation D PopSize target g = None).
Proof.
  intros HD. split.
  - intros Hn. by apply createPopulation_organisms.
  - apply createPopulation_negative'.
Qed.

Lemma Monalisa_createPopulation_organisms_witness :
  exists population g',
    @createPopulation _ amd64 lcg_reader PopSize Scenario.white 2024
    = Some (population, g') /\
    len population = PopSize /\
    Forall (@organism_of amd64 Scenario.white) population.
Proof.
  apply (@Monalisa_createPopulation_organisms _ amd64 lcg_reader PopSize
           Scenario.white 2024 lcg_reader_contract).
  discriminate.
Defined.

(** Who enters the pool of src/monalisa/main.go. For a population of
    more than [PoolSize] organisms with Fitness in [[0, 2^59)], with
    [t0] the first and [tp] the organism at index [PoolSize] of the
    sorted population: the pool holds, in the order of the sorted
    population, each of its first [PoolSize] organisms ten times the
    difference between the Fitness of [tp] and its own; so every member
    of the pool is an organism of the population with a Fitness strictly
    below that of [tp]; the pool is empty exactly when [t0] and [tp]
    have the same Fitness; and its length is the sum of those counts. *)
Theorem Monalisa_createPool_selects_fitter
    (PoolSize : Z) (target : RGBA) (population : list Organism) :
  0 <= PoolSize < len population ->
  is_int (len population) ->
  Forall (fun o => 0 <= Fitness o < 2 ^ 59) population ->
  exists t0 tp pool,
    index (createPool PoolSize population target).1 0 = Some t0 /\
    index (createPool PoolSize population target).1 PoolSize = Some tp /\
    (createPool PoolSize population target).2 = Some pool /\
    pool = flat_map (fun o => replicate (Z.to_nat (10 * (Fitness tp - Fitness o))) o)
             (take (Z.to_nat PoolSize) (createPool PoolSize population target).1) /\
    (forall o, o ∈ pool -> o ∈ population /\ Fitness o < Fitness tp) /\
    (pool = [] <-> Fitness t0 = Fitness tp) /\
    len pool = total (fun o => 10 * (Fitness tp - Fitness o))
                 (take (Z.to_nat PoolSize) (createPool PoolSize population target).1).
Proof.
  intros HP Hint Hfit. unfold is_int in Hint.
  destruct (createPool_weighted PoolSize population target)
    as (t0 & tp & Ht0 & Htp & Hle & Hrange & Hpool); [lia|lia|done|].
  rewrite createPool_population.
  destruct (sorted_population population) as [Hperm _].
  set (sorted := SliceStable less population) in *.
  eexists t0, tp, _. split; [done|]. split; [done|]. split; [exact Hpool|].
  split; [done|].
  set (w := fun o => 10 * (Fitness tp - Fitness o)).
  split; [|split].
  - intros o [Ho Hw]%pool_member. split.
    + rewrite <- Hperm. apply list_elem_of_lookup_1 in Ho as [i Hi].
      apply lookup_take_Some in Hi as [Hi _]. by eapply list_elem_of_lookup_2.
    + unfold w in Hw. lia.
  - split.
    + intros Hnil.
      destruct (Z.to_nat PoolSize) as [|n] eqn:En.
      { replace PoolSize with 0 in * by lia. by simplify_eq. }
      destruct (Z_lt_le_dec (Fitness t0) (Fitness tp)) as [Hlt|]; [|lia].
      exfalso. apply index_Some in Ht0 as [_ Ht0].
      change (Z.to_nat 0) with O in Ht0.
      assert (Hin : t0 ∈ (@nil Organism)); [|by apply elem_of_nil in Hin].
      rewrite <- Hnil. apply (pool_member w). split; [|unfold w; lia].
      apply (list_elem_of_lookup_2 _ 0). by rewrite lookup_take_lt by lia.
    + intros E. apply pool_empty.
      eapply Forall_impl; [|exact Hrange]. intros o Ho. cbn in Ho. lia.
  - apply pool_length. eapply Forall_impl; [|exact Hrange].
    intros o Ho. cbn in Ho. lia.
Qed.

Lemma Monalisa_createPool_selects_fitter_witness :
  exists t0 tp pool,
    index (createPool 1 [Scenario.far; Scenario.near] Scenario.target1).1 0 = Some t0 /\
    index (createPool 1 [Scenario.far; Scenario.near] Scenario.target1).1 1 = Some tp /\
    (createPool 1 [Scenario.far; Scenario.near] Scenario.target1).2 = Some pool /\
    pool = flat_map (fun o => replicate (Z.to_nat (10 * (Fitness tp - Fitness o))) o)
             (take (Z.to_nat 1)
                (createPool 1 [Scenario.far; Scenario.near] Scenario.target1).1) /\
    (forall o, o ∈ pool ->
       o ∈ [Scenario.far; Scenario.near] /\ Fitness o < Fitness tp) /\
    (pool = [] <-> Fitness t0 = Fitness tp) /\
    len pool = total (fun o => 10 * (Fitness tp - Fitness o))
                 (take (Z.to_nat 1)
                    (createPool 1 [Scenario.far; Scenario.near] Scenario.target1).1).
Proof.
  apply (Monalisa_createPool_selects_fitter 1 Scenario.target1
           [Scenario.far; Scenario.near]).
  - split; [discriminate | reflexivity].
  - split; [discriminate | reflexivity].
  - repeat constructor; discriminate.
Defined.

(** A round of the loop of [main] in src/monalisa/main.go panics on a
    population without differences of Fitness that is not under the
    limit: [getBest] returns an organism at the limit or above, the
    pool of [createPool] is empty, and [naturalSelection] calls
    [rand.Intn(0)]. *)
Theorem Monalisa_generation_level_population_panics {G} `{Platform}
    (R : rand_source G) (rate : float64) (PoolSize FitnessLimit f : Z)
    (target : RGBA) (population : list Organism) (g : G) :
  rand_contract R ->
  0 <= PoolSize < len population ->
  is_int (len population) ->
  Forall (fun o => Fitness o = f) population ->
  FitnessLimit <= f ->
  generation R rate PoolSize FitnessLimit target population g = None.
Proof.
  intros HR HP Hint Hfit Hlim. unfold is_int in Hint.
  assert (Hne : population <> []).
  { intros ->. unfold len in HP. cbn in HP. lia. }
  destruct (getBest_bound population Hne) as (best & Hbest & Hin & _).
  rewrite Forall_forall in Hfit.
  pose proof (Hfit best (proj1 (list_elem_of_In _ _) Hin)) as Hb.
  rewrite (generation_on _ _ _ _ _ _ _ best) by (done || lia).
  rewrite (createPool_level PoolSize f) by (done || lia || by apply Forall_forall).
  cbn [mbind option_bind]. rewrite naturalSelection_no_pool; [done|done|].
  rewrite createPool_population. destruct (sorted_population population) as [Hperm _].
  intros E. rewrite E in Hperm. by apply Permutation_nil in Hperm.
Qed.

Lemma Monalisa_generation_level_population_panics_witness :
  @generation _ amd64 lcg MutationRate PoolSize FitnessLimit Scenario.white
    Scenario.converged 2024 = None.
Proof.
  apply (@Monalisa_generation_level_population_panics _ amd64 lcg MutationRate
           PoolSize FitnessLimit 16127 Scenario.white Scenario.converged 2024).
  - exact lcg_contract.
  - split; [discriminate | reflexivity].
  - split; [discriminate | reflexivity].
  - apply Forall_replicate. reflexivity.
  - discriminate.
Defined.

(** A round of the loop of [main] in src/monalisa/main.go goes through
    when the pool is not empty. For a population of organisms as the
    program keeps them (images with the frame of the target, of up to
    [2^36] bytes, with their distance as Fitness), larger than
    [PoolSize], in which the best organism is strictly closer to the
    target than the organism at index [PoolSize] of the sorted
    population, the round does not panic; it ends with a population of
    the same size, again of organisms as the program keeps them; and
    [found] is set, with the population left as it is, exactly when
    every organism is under the limit. *)
Theorem Monalisa_generation_goes_through {G} `{Platform} (R : rand_source G)
    (rate : float64) (PoolSize FitnessLimit : Z) (target : RGBA)
    (population : list Organism) (g : G) (t0 tp : Organism) :
  rand_contract R ->
  0 < FitnessLimit ->
  0 < len (Pix target) <= 2 ^ 36 ->
  0 <= PoolSize < len population ->
  is_int (len population) ->
  Forall (organism_of target) population ->
  index (SliceStable less population) 0 = Some t0 ->
  index (SliceStable less population) PoolSize = Some tp ->
  Fitness t0 < Fitness tp ->
  exists found next g',
    generation R rate PoolSize FitnessLimit target population g
      = Some (found, next, g') /\
    length next = length population /\
    Forall (organism_of target) next /\
    (found = true -> next = population) /\
    (found = true <-> forall o, o ∈ population -> Fitness o < FitnessLimit).
Proof.
  intros HR Hlim Hpos HP Hint Hc Ht0 Htp Hlt.
  assert (Hsome : is_Some (generation R rate PoolSize FitnessLimit target population g)).
  { assert (Hne : population <> []).
    { intros ->. unfold len in HP. cbn in HP. lia. }
    destruct (getBest_bound population Hne) as (best & Hbest & Hin & _).
    destruct (Z_lt_le_dec (Fitness best) FitnessLimit) as [Hb|Hb].
    { by rewrite (generation_found _ _ _ _ _ _ _ best). }
    rewrite (generation_on _ _ _ _ _ _ _ best) by done.
    destruct (createPool_weighted PoolSize population target)
      as (t0' & tp' & Ht0' & Htp' & _ & _ & Hpool); [lia|unfold is_int in Hint; lia| |].
    { eapply Forall_impl; [|exact Hc]. intros o Ho. cbn.
      pose proof (organism_distance target o ltac:(lia) Ho). lia. }
    rewrite Hpool. cbn [mbind option_bind]. rewrite createPool_population.
    rewrite Ht0 in Ht0'. rewrite Htp in Htp'. simplify_eq.
    destruct (sorted_population population) as [Hperm _].
    set (sorted := SliceStable less population) in *.
    destruct (naturalSelection_organisms R rate
                (flat_map (fun o => replicate (Z.to_nat (10 * (Fitness tp' - Fitness o))) o)
                   (take (Z.to_nat PoolSize) sorted)) sorted target g)
      as (next & g' & -> & _); [done|lia| | |done].
    - apply index_Some in Ht0 as [_ Ht0]. change (Z.to_nat 0) with O in Ht0.
      apply (pool_nonempty _ _ t0'); [|lia].
      apply (list_elem_of_lookup_2 _ 0). rewrite lookup_take_lt; [done|].
      destruct (Z.to_nat PoolSize) eqn:En; [|lia].
      replace PoolSize with 0 in * by lia. apply index_Some in Htp as [_ Htp].
      change (Z.to_nat 0) with O in Htp. simplify_eq. lia.
    - apply pool_members. apply Forall_take. rewrite Hperm.
      eapply Forall_impl; [|exact Hc]. intros o Ho. by apply organism_framed. }
  destruct Hsome as [[[found next] g'] Hgen].
  exists found, next, g'. split; [done|].
  destruct (generation_keeps R rate PoolSize FitnessLimit target population g
              found next g') as (Hl & Hn & Hf); try done; try lia.
  split; [done|]. split; [done|].
  split; [intros E; by destruct (Hf E)|].
  split; [intros E; by destruct (Hf E)|]. intros Hall.
  assert (Hne : population <> []).
  { intros ->. unfold len in HP. cbn in HP. lia. }
  destruct (getBest_bound population Hne) as (best & Hbest & Hin & _).
  rewrite (generation_found _ _ _ _ _ _ _ best) in Hgen by (done || by apply Hall).
  by simplify_eq.
Qed.

Lemma Monalisa_generation_goes_through_witness :
  exists found next g',
    @generation _ amd64 lcg MutationRate 1 100 Scenario.target1
      [Scenario.far; Scenario.near] 2024 = Some (found, next, g') /\
    length next = length [Scenario.far; Scenario.near] /\
    Forall (@organism_of amd64 Scenario.target1) next /\
    (found = true -> next = [Scenario.far; Scenario.near]) /\
    (found = true <->
       forall o, o ∈ [Scenario.far; Scenario.near] -> Fitness o < 100).
Proof.
  apply (@Monalisa_generation_goes_through _ amd64 lcg MutationRate 1 100
           Scenario.target1 [Scenario.far; Scenario.near] 2024
           Scenario.near Scenario.far).
  - exact lcg_contract.
  - reflexivity.
  - split; [reflexivity | discriminate].
  - split; [discriminate | reflexivity].
  - split; [discriminate | reflexivity].
  - repeat constructor.
  - reflexivity.
  - reflexivity.
  - reflexivity.
Defined.

(** What [main] of src/monalisa/main.go ends with. For a target with
    pixels, [0 <= PoolSize < PopSize] and a positive [FitnessLimit]:
    whenever [main] has not panicked after some number of rounds, the
    population has [PopSize] organisms, each an image with the frame of
    the target and its distance to the target as Fitness; and if
    [found] is set, every organism of the population is under the
    limit, not only the one [getBest] returned. *)
Theorem Monalisa_main_ends_with_all_under_limit {G} `{Platform}
    (R : rand_source G) (D : rand_reader G) (rate : float64)
    (PopSize PoolSize FitnessLimit : Z) (target : RGBA) :
  rand_contract R -> Read_contract D ->
  0 < FitnessLimit ->
  0 < len (Pix target) ->
  0 <= PoolSize < PopSize -> is_int PopSize ->
  forall (n : nat) (g : G) found population g',
    main R D rate PopSize PoolSize FitnessLimit target n g
      = Some (found, population, g') ->
    len population = PopSize /\
    Forall (organism_of target) population /\
    (found = true -> forall o, o ∈ population -> Fitness o < FitnessLimit).
Proof.
  intros HR HD Hlim Hpos HP Hint n g found population g' Hmain.
  unfold main in Hmain.
  destruct (createPopulation_organisms D PopSize target g HD ltac:(lia))
    as (p & g1 & Hp & Hl & Hc).
  rewrite Hp in Hmain. cbn in Hmain.
  destruct (evolve_keeps R rate PoolSize FitnessLimit target n p g1
              found population g') as (Hl' & Hn & Hf); try done; try lia.
  - by rewrite Hl.
  - split; [unfold len in *; lia|]. by split.
Qed.

Lemma Monalisa_main_ends_with_all_under_limit_witness :
  exists found population g',
    @main _ amd64 lcg lcg_reader MutationRate 3 1 FitnessLimit Scenario.target1 2 2024
    = Some (found, population, g') /\
    len population = 3 /\
    Forall (@organism_of amd64 Scenario.target1) population /\
    (found = true -> forall o, o ∈ population -> Fitness o < FitnessLimit).
Proof.
  destruct (@main _ amd64 lcg lcg_reader MutationRate 3 1 FitnessLimit
              Scenario.target1 2 2024) as [[[found population] g']|] eqn:E.
  - exists found, population, g'. split; [reflexivity|].
    apply (@Monalisa_main_ends_with_all_under_limit _ amd64 lcg lcg_reader
             MutationRate 3 1 FitnessLimit Scenario.target1
             lcg_contract lcg_reader_contract) with (n := 2%nat) (g := 2024) (g' := g');
      [reflexivity | reflexivity | split; [discriminate | reflexivity]
      | split; [discriminate | reflexivity] | exact E].
  - vm_compute in E. discriminate.
Defined.

End ImageStatements.

(* ================================================================== *)
(** * The triangle-drawing program: random triangles *)
(* ================================================================== *)

Section TriangleStatements.
Import Notions GoFacts FloatSigns Invariants LibraryFacts.
Import Triangles TrianglesMain.

(** [createTriangle(w, h)] of the triangle program. It panics unless
    [w] and [h] are positive. For positive sizes (with [w + 14] and
    [h + 14] in the range of [int]) the first corner lies inside the
    [w] by [h] image, the second and the third corner lie within -15 and
    +14 of the first in each coordinate, wherever that is, and no
    component of the colour is 255. *)
Theorem Triangles_createTriangle_ranges {G} (R : rand_source G) (w h : Z) (g : G) :
  rand_contract R ->
  (w <= 0 \/ h <= 0 -> createTriangle R w h g = None) /\
  (0 < w -> 0 < h -> is_int (w + 14) -> is_int (h + 14) ->
   exists t g',
     createTriangle R w h g = Some (t, g') /\
     0 <= X (P1 t) < w /\ 0 <= Y (P1 t) < h /\
     -15 <= X (P2 t) - X (P1 t) <= 14 /\ -15 <= Y (P2 t) - Y (P1 t) <= 14 /\
     -15 <= X (P3 t) - X (P1 t) <= 14 /\ -15 <= Y (P3 t) - Y (P1 t) <= 14 /\
     length (Color t) = 4%nat /\ Forall (fun c => c <> xff) (Color t)).
Proof.
  intros HR. split.
  - intros Hbad. unfold createTriangle.
    destruct (Z_lt_le_dec 0 w) as [Hw|Hw].
    + destruct (Intn_range R HR w g Hw) as (x & g1 & -> & _). cbn.
      by rewrite (Intn_panics R HR) by lia.
    + by rewrite (Intn_panics R HR) by lia.
  - intros Hw Hh Hiw Hih. unfold is_int in *. unfold createTriangle.
    destruct (Intn_range R HR w g Hw) as (x & g1 & -> & Hx). cbn.
    destruct (Intn_range R HR h g1 Hh) as (y & g2 & -> & Hy). cbn.
    destruct (Intn_range R HR 30 g2 ltac:(lia)) as (dx2 & g3 & -> & Hdx2). cbn.
    destruct (Intn_range R HR 30 g3 ltac:(lia)) as (dy2 & g4 & -> & Hdy2). cbn.
    destruct (Intn_range R HR 30 g4 ltac:(lia)) as (dx3 & g5 & -> & Hdx3). cbn.
    destruct (Intn_range R HR 30 g5 ltac:(lia)) as (dy3 & g6 & -> & Hdy3). cbn.
    destruct (Intn_range R HR 255 g6 ltac:(lia)) as (cr & g7 & -> & Hcr). cbn.
    destruct (Intn_range R HR 255 g7 ltac:(lia)) as (cg & g8 & -> & Hcg). cbn.
    destruct (Intn_range R HR 255 g8 ltac:(lia)) as (cb & g9 & -> & Hcb). cbn.
    destruct (Intn_range R HR 255 g9 ltac:(lia)) as (ca & g10 & -> & Hca). cbn.
    eexists _, _. split; [reflexivity|]. cbn.
    unfold int. rewrite !(int64_id (_ - 15)) by lia.
    rewrite !int64_id by lia.
    repeat split; try lia.
    repeat constructor; by apply below_255_draw.
Qed.

Lemma Triangles_createTriangle_ranges_witness :
  createTriangle lcg 0 500 2024 = None /\
  exists t g',
    createTriangle lcg 336 500 2024 = Some (t, g') /\
    0 <= X (P1 t) < 336 /\ 0 <= Y (P1 t) < 500 /\
    -15 <= X (P2 t) - X (P1 t) <= 14 /\ -15 <= Y (P2 t) - Y (P1 t) <= 14 /\
    -15 <= X (P3 t) - X (P1 t) <= 14 /\ -15 <= Y (P3 t) - Y (P1 t) <= 14 /\
    length (Color t) = 4%nat /\ Forall (fun c => c <> xff) (Color t).
Proof.
  split.
  - apply (Triangles_createTriangle_ranges lcg 0 500 2024 lcg_contract).
    left. reflexivity.
  - apply (Triangles_createTriangle_ranges lcg 336 500 2024 lcg_contract);
      (reflexivity || (split; [discriminate | reflexivity])).
Defined.

End TriangleStatements.
